(** * gitops-promoter: promotion state machine and its reconcilers

    A shallow embedding of the Go sources
      - [internal/utils] (name and label sanitizers, ordered environment
        look-ups, the status upsert helper),
      - [internal/controller/promotionstrategy_controller.go],
      - the PullRequest controller of [internal/controller],
      - the flag defaults of [cmd/main.go],
    followed by the properties established about them.

    Conventions.  Go strings are byte sequences: they are modelled by
    [string] (a list of 8-bit [ascii]).  Go [int] values are modelled by [Z].
    A Go panic (index out of range, nil dereference, write to a nil map) is
    an explicit result, never swept under a default value. *)

From Stdlib Require Import ZArith NArith String Ascii List Lia Bool.
From stdpp Require Import base option list gmap strings.
Import ListNotations.

#[local] Open Scope Z_scope.

(** ** Go string primitives *)

Module GoString.

(** [len(s)] *)
Definition len (s : string) : Z := Z.of_nat (String.length s).

(** [s[i]]; [None] is the run-time panic "index out of range". *)
Definition index (s : string) (i : Z) : option ascii :=
  if (i <? 0) || (len s <=? i) then None else String.get (Z.to_nat i) s.

(** [s[lo:hi]]; every use in the sources is guarded so that
    [0 <= lo <= hi <= len(s)]. *)
Definition slice (s : string) (lo hi : Z) : string :=
  substring (Z.to_nat lo) (Z.to_nat (hi - lo)) s.

Definition isDigit (c : ascii) : bool :=
  let n := N_of_ascii c in ((48 <=? n) && (n <=? 57))%N.
Definition isUpper (c : ascii) : bool :=
  let n := N_of_ascii c in ((65 <=? n) && (n <=? 90))%N.
Definition isLower (c : ascii) : bool :=
  let n := N_of_ascii c in ((97 <=? n) && (n <=? 122))%N.

(** The character class [a-zA-Z0-9]. *)
Definition isAlnum (c : ascii) : bool := isLower c || isUpper c || isDigit c.

Definition hyphen : ascii := "-"%char.

(** [regexp.MustCompile("[^a-zA-Z0-9]+").ReplaceAllString(s, "-")].

    The regular expression matches maximal runs of characters outside
    [a-zA-Z0-9].  Go decodes the subject as UTF-8; every byte of a
    multi-byte rune is at least 0x80 and an invalid byte decodes to
    U+FFFD of width one, so a maximal run of non-matching runes is exactly
    a maximal run of bytes outside the class.  [inRun] records that the
    previous byte already belonged to the run being replaced. *)
Fixpoint replaceRuns (inRun : bool) (s : string) : string :=
  match s with
  | EmptyString => EmptyString
  | String c rest =>
      if isAlnum c then String c (replaceRuns false rest)
      else if inRun then replaceRuns true rest
           else String hyphen (replaceRuns true rest)
  end.

Definition m1_ReplaceAllString (s : string) : string := replaceRuns false s.

(** [strings.ToLower] on one byte below 0x80. *)
Definition toLowerByte (c : ascii) : ascii :=
  if isUpper c then ascii_of_N (N_of_ascii c + 32) else c.

(** [strings.ToLower]; in the sources it is applied to the output of
    [m1_ReplaceAllString] only, which is pure ASCII. *)
Fixpoint ToLower (s : string) : string :=
  match s with
  | EmptyString => EmptyString
  | String c rest => String (toLowerByte c) (ToLower rest)
  end.

(** [hash/fnv]: the 32-bit FNV-1a hash, [h.Write] followed by [h.Sum32]. *)
Definition offset32 : N := 2166136261.
Definition prime32 : N := 16777619.

Fixpoint fnv32a_write (h : N) (s : string) : N :=
  match s with
  | EmptyString => h
  | String c rest =>
      fnv32a_write ((N.lxor h (N_of_ascii c) * prime32) mod 2 ^ 32)%N rest
  end.

Definition fnv32a (s : string) : N := fnv32a_write offset32 s.

Definition hexDigit (d : N) : ascii :=
  if (d <? 10)%N then ascii_of_N (48 + d) else ascii_of_N (87 + d).

(** [fmt.Sprintf("%x", v)] for a [uint32]: lower-case hexadecimal digits,
    most significant first, no leading zero (a single "0" for zero). *)
Fixpoint hexLoop (digits : nat) (v : N) (acc : string) : string :=
  match digits with
  | O => acc
  | S digits' =>
      let acc' := String (hexDigit (v mod 16)) acc in
      if (v / 16 =? 0)%N then acc' else hexLoop digits' (v / 16)%N acc'
  end.

Definition Sprintf_x (v : N) : string := hexLoop 8 v EmptyString.

End GoString.

(** ** api/v1alpha1: the resource kinds *)

(** Modelled from the spec: the type declarations of api/v1alpha1 are not
    among the sources.  The records follow the data model of the
    specification and the CRDs under config/crd, and list the fields the
    controllers read and write, under their Go names.  [metav1.Time] is an
    instant, modelled by [Z]. *)

Definition metav1_Time := Z.

(** A Go [map[string]string]; [None] is the nil map, which can be read
    (every key yields the empty string) but not written. *)
Definition StringMap := option (gmap string string).

Definition labelOf (l : StringMap) (key : string) : string :=
  match l with
  | Some m => default "" (m !! key)
  | None => ""
  end.

Module ObjectMeta.
Record t := mk {
  Name : string;
  Namespace : string;
  Labels : StringMap;
  Annotations : StringMap;
  Generation : Z;
  DeletionTimestamp : option metav1_Time;
  Finalizers : list string;
  OwnerReferences : list string
}.
End ObjectMeta.

Module ObjectKey.
Record t := mk { Namespace : string; Name : string }.
End ObjectKey.

Module ScmProviderRef.
Record t := mk { Name : string; Namespace : string }.
End ScmProviderRef.

Module Repository.
Record t := mk { Owner : string; Name : string; ScmProviderRef : ScmProviderRef.t }.
End Repository.

Module CommitStatusSelector.
Record t := mk { Key : string }.
End CommitStatusSelector.

Module Environment.
Record t := mk {
  Branch : string;
  AutoMerge : option bool;
  ActiveCommitStatuses : list CommitStatusSelector.t;
  ProposedCommitStatuses : list CommitStatusSelector.t
}.

(** Modelled from the spec: [GetAutoMerge] is declared in api/v1alpha1,
    which is not among the sources; "an optional autoMerge flag (default
    true)". *)
Definition GetAutoMerge (e : t) : bool :=
  match AutoMerge e with
  | Some b => b
  | None => true
  end.
End Environment.

Module ProposedCommitShaState.
Record t := mk { Sha : string; CommitTime : metav1_Time }.
End ProposedCommitShaState.

Module PromotionStrategyCommitStatus.
Record t := mk { State : string; Sha : string }.
End PromotionStrategyCommitStatus.

Module PromotionStrategyBranchStateStatus.
Record t := mk {
  Dry : ProposedCommitShaState.t;
  Hydrated : ProposedCommitShaState.t;
  CommitStatus : PromotionStrategyCommitStatus.t
}.
End PromotionStrategyBranchStateStatus.

Module HealthyDryShas.
Record t := mk { Sha : string; Time : metav1_Time }.
End HealthyDryShas.

Module EnvironmentStatus.
Record t := mk {
  Branch : string;
  Active : PromotionStrategyBranchStateStatus.t;
  Proposed : PromotionStrategyBranchStateStatus.t;
  LastHealthyDryShas : list HealthyDryShas.t
}.
End EnvironmentStatus.

Module PromotionStrategySpec.
Record t := mk {
  RepositoryReference : Repository.t;
  ActiveCommitStatuses : list CommitStatusSelector.t;
  ProposedCommitStatuses : list CommitStatusSelector.t;
  Environments : list Environment.t
}.
End PromotionStrategySpec.

Module PromotionStrategyStatus.
Record t := mk { Environments : list EnvironmentStatus.t }.
End PromotionStrategyStatus.

Module PromotionStrategy.
Record t := mk {
  Meta : ObjectMeta.t;
  Spec : PromotionStrategySpec.t;
  Status : PromotionStrategyStatus.t
}.
End PromotionStrategy.

Module ProposedCommitBranchState.
Record t := mk { Dry : ProposedCommitShaState.t; Hydrated : ProposedCommitShaState.t }.
End ProposedCommitBranchState.

Module ProposedCommitSpec.
Record t := mk {
  RepositoryReference : Repository.t;
  ProposedBranch : string;
  ActiveBranch : string
}.
End ProposedCommitSpec.

Module ProposedCommitStatus.
Record t := mk {
  Active : ProposedCommitBranchState.t;
  Proposed : ProposedCommitBranchState.t
}.
End ProposedCommitStatus.

Module ProposedCommit.
Record t := mk {
  Meta : ObjectMeta.t;
  Spec : ProposedCommitSpec.t;
  Status : ProposedCommitStatus.t
}.
End ProposedCommit.

(** [CommitStatusState] and [PullRequestState] are Go string types. *)
Definition CommitSuccess : string := "success".

Definition PullRequestOpen : string := "open".
Definition PullRequestMerged : string := "merged".
Definition PullRequestClosed : string := "closed".

Module CommitStatusSpec.
Record t := mk {
  RepositoryReference : Repository.t;
  Sha : string;
  Name : string;
  Description : string;
  State : string;
  Url : string
}.
End CommitStatusSpec.

Module CommitStatusStatus.
Record t := mk {
  ObservedGeneration : Z;
  Id : string;
  Sha : string;
  State : string
}.
End CommitStatusStatus.

Module CommitStatus.
Record t := mk {
  Meta : ObjectMeta.t;
  Spec : CommitStatusSpec.t;
  Status : CommitStatusStatus.t
}.
End CommitStatus.

Module PullRequestSpec.
Record t := mk {
  RepositoryReference : Repository.t;
  Title : string;
  TargetBranch : string;
  SourceBranch : string;
  Description : string;
  State : string
}.
End PullRequestSpec.

Module PullRequestStatus.
Record t := mk {
  ID : string;
  State : string;
  PRCreationTime : metav1_Time;
  ObservedGeneration : Z
}.
End PullRequestStatus.

Module PullRequest.
Record t := mk {
  Meta : ObjectMeta.t;
  Spec : PullRequestSpec.t;
  Status : PullRequestStatus.t
}.
End PullRequest.

Module GitHub.
Record t := mk { Domain : string }.
End GitHub.

Module ScmProviderSpec.
(** [GitHub] and [Fake] are pointers in Go: [None] is nil. *)
Record t := mk {
  SecretRefName : string;
  GitHub : option GitHub.t;
  Fake : option unit
}.
End ScmProviderSpec.

Module ScmProvider.
Record t := mk { Meta : ObjectMeta.t; Spec : ScmProviderSpec.t }.
End ScmProvider.

Module Secret.
Record t := mk { Meta : ObjectMeta.t; Data : gmap string string }.
End Secret.

(** ** internal/utils *)

Module utils.
Import GoString.

(** The loop of [TruncateString]: [truncated] and [count] are the two
    locals of the source; one iteration per rune of [str] (per byte, the
    callers only pass ASCII strings). *)
Fixpoint TruncateString_loop (str : string) (length : Z)
         (truncated : string) (count : Z) : string :=
  match str with
  | EmptyString => truncated
  | String char rest =>
      let truncated := truncated +:+ String char EmptyString in
      let count := count + 1 in
      if count >=? length then truncated
      else TruncateString_loop rest length truncated count
  end.

Definition TruncateString (str : string) (length : Z) : string :=
  if length <=? 0 then EmptyString
  else TruncateString_loop str length EmptyString 0.

(** Truncate from front of string. *)
Definition TruncateStringFromBeginning (str : string) (length : Z) : string :=
  if length <=? 0 then EmptyString
  else if len str <=? length then str
  else slice str (len str - length) (len str).

(** [KubeSafeUniqueName]; [None] is the panic of [name[len(name)-1]] on an
    empty [name].  [h.Write] of an FNV hash never fails, so the error
    branch that only logs is not represented. *)
Definition KubeSafeUniqueName (name : string) : option string :=
  let name := m1_ReplaceAllString name in
  let name := ToLower name in
  let hash := Sprintf_x (fnv32a name) in
  match index name (len name - 1) with
  | None => None
  | Some last =>
      let name := if Ascii.eqb last hyphen
                  then slice name 0 (len name - 1) else name in
      let name := name +:+ "-" +:+ hash in
      Some (TruncateString name (255 - len hash - 1))
  end.

(** [KubeSafeLabel]; [None] would be the panic of [name[0]]. *)
Definition KubeSafeLabel (name : string) : option string :=
  if String.eqb name "" then Some ""
  else
    let name := m1_ReplaceAllString name in
    let name := TruncateStringFromBeginning name 63 in
    match index name 0 with
    | None => None
    | Some first =>
        Some (if Ascii.eqb first hyphen then slice name 1 (len name) else name)
    end.

(** [GetProposedCommitName]: [fmt.Sprintf("%s-%s", ...)].
    [createOrGetProposedCommit] builds the same string in place. *)
Definition GetProposedCommitName (promotionStrategyName environmentBranch : string) : string :=
  promotionStrategyName +:+ "-" +:+ environmentBranch.

End utils.


(** ** internal/utils, continued: look-ups over the strategy status *)

Module envutils.

(** Spec order is authoritative: for every spec environment, in order,
    the status entries that carry its branch. *)
Definition GetEnvironmentsFromStatusInOrder (promotionStrategy : PromotionStrategy.t)
  : list EnvironmentStatus.t :=
  flat_map
    (fun specEnvironment =>
       filter (fun statusEvents =>
                 Environment.Branch specEnvironment = EnvironmentStatus.Branch statusEvents)
              (PromotionStrategyStatus.Environments (PromotionStrategy.Status promotionStrategy)))
    (PromotionStrategySpec.Environments (PromotionStrategy.Spec promotionStrategy)).

(** The [for i, environment := range environments] loop of
    [GetPreviousEnvironmentStatusByBranch], from index [i] on.  The nil
    pointer is [None]. *)
Fixpoint GetPrevious_loop (environments : list EnvironmentStatus.t) (currentBranch : string)
         (i : Z) (rest : list EnvironmentStatus.t) : Z * option EnvironmentStatus.t :=
  match rest with
  | [] => (-1, None)
  | environment :: rest' =>
      if String.eqb (EnvironmentStatus.Branch environment) currentBranch
         && (i - 1 >=? 0) && (Z.of_nat (length environments) >? 0)
      then (i + 1, environments !! Z.to_nat (i - 1))
      else GetPrevious_loop environments currentBranch (i + 1) rest'
  end.

Definition GetPreviousEnvironmentStatusByBranch
           (promotionStrategy : PromotionStrategy.t) (currentBranch : string)
  : Z * option EnvironmentStatus.t :=
  let environments := GetEnvironmentsFromStatusInOrder promotionStrategy in
  GetPrevious_loop environments currentBranch 0 environments.

Fixpoint GetEnvironmentStatus_loop (branch : string) (i : Z)
         (rest : list EnvironmentStatus.t) : Z * option EnvironmentStatus.t :=
  match rest with
  | [] => (-1, None)
  | environment :: rest' =>
      if String.eqb (EnvironmentStatus.Branch environment) branch
      then (i, Some environment)
      else GetEnvironmentStatus_loop branch (i + 1) rest'
  end.

Definition GetEnvironmentStatusByBranch
           (promotionStrategy : PromotionStrategy.t) (branch : string)
  : Z * option EnvironmentStatus.t :=
  GetEnvironmentStatus_loop branch 0 (GetEnvironmentsFromStatusInOrder promotionStrategy).

(** The [for i, environment := range promotionStrategy.Spec.Environments]
    loop of [GetEnvironmentByBranch], from index [i] on. *)
Fixpoint GetEnvironment_loop (branch : string) (i : Z)
         (rest : list Environment.t) : Z * option Environment.t :=
  match rest with
  | [] => (-1, None)
  | environment :: rest' =>
      if String.eqb (Environment.Branch environment) branch
      then (i, Some environment)
      else GetEnvironment_loop branch (i + 1) rest'
  end.

Definition GetEnvironmentByBranch
           (promotionStrategy : PromotionStrategy.t) (branch : string)
  : Z * option Environment.t :=
  GetEnvironment_loop branch 0
    (PromotionStrategySpec.Environments (PromotionStrategy.Spec promotionStrategy)).

(** The [for index, ele := range slice] loop of [UpsertEnvironmentStatus];
    [slices.Replace(slice, index, index+1, i)] overwrites position
    [index]. *)
Fixpoint Upsert_loop (slice : list EnvironmentStatus.t) (i : EnvironmentStatus.t)
         (index : nat) (rest : list EnvironmentStatus.t) : list EnvironmentStatus.t :=
  match rest with
  | [] => slice ++ [i]
  | ele :: rest' =>
      if String.eqb (EnvironmentStatus.Branch ele) (EnvironmentStatus.Branch i)
      then <[index := i]> slice
      else Upsert_loop slice i (S index) rest'
  end.

Definition UpsertEnvironmentStatus (slice : list EnvironmentStatus.t)
           (i : EnvironmentStatus.t) : list EnvironmentStatus.t :=
  if (length slice =? 0)%nat then slice ++ [i]
  else Upsert_loop slice i 0%nat slice.

End envutils.

(** ** The world outside the reconcilers

    A reconciler talks to the declarative store through
    [client.Client] and to the SCM through [scms.PullRequestProvider]; both
    are Go interfaces.  They are kept abstract: an operation transforms an
    arbitrary world [W] and yields what the Go call returns.  Since every
    operation may change the world, actions of other controllers between two
    calls are covered. *)

Inductive error :=
| ErrNotFound
| ErrConflict
| ErrOther (msg : string).

(** [errors.IsNotFound], [errors.IsConflict] *)
Definition IsNotFound (e : error) : bool :=
  match e with ErrNotFound => true | _ => false end.
Definition IsConflict (e : error) : bool :=
  match e with ErrConflict => true | _ => false end.

(** The [(value, err)] pair returned by a store read. *)
Inductive result (A : Type) :=
| Ok (a : A)
| Err (e : error).
Arguments Ok {A} a.
Arguments Err {A} e.

Inductive Kind :=
| KPromotionStrategy | KProposedCommit | KCommitStatus | KPullRequest
| KScmProvider | KSecret.

Inductive Object :=
| OPromotionStrategy (o : PromotionStrategy.t)
| OProposedCommit (o : ProposedCommit.t)
| OCommitStatus (o : CommitStatus.t)
| OPullRequest (o : PullRequest.t)
| OScmProvider (o : ScmProvider.t)
| OSecret (o : Secret.t).

Module ListOptions.
(** [labels.SelectorFromSet] and [fields.SelectorFromSet]: every pair of
    the set must match; no namespace restriction is given in the sources. *)
Record t := mk {
  LabelSelector : gmap string string;
  FieldSelector : gmap string string
}.
End ListOptions.

(** Everything a reconciler does to the outside, in program order. *)
Inductive Call :=
| CGet (k : Kind) (key : ObjectKey.t)
| CList (k : Kind) (opts : ListOptions.t)
| CCreate (o : Object)
| CUpdate (o : Object)
| CDelete (o : Object)
| CStatusUpdate (o : Object)
| CFindOpen (pr : PullRequest.t)
| CProviderCreate (title source target description : string) (pr : PullRequest.t)
| CProviderUpdate (title description : string) (pr : PullRequest.t)
| CProviderMerge (commitMessage : string) (pr : PullRequest.t)
| CProviderClose (pr : PullRequest.t)
| CEvent (o : Object) (eventtype reason message : string)
| CRandIntn (n : Z)
| CSleep (milliseconds : Z)
| CNow.

Class Resource (A : Type) := {
  kindOf : Kind;
  toObject : A -> Object;
  metaOf : A -> ObjectMeta.t
}.

#[global] Instance PromotionStrategy_Resource : Resource PromotionStrategy.t :=
  {| kindOf := KPromotionStrategy; toObject := OPromotionStrategy;
     metaOf := PromotionStrategy.Meta |}.
#[global] Instance ProposedCommit_Resource : Resource ProposedCommit.t :=
  {| kindOf := KProposedCommit; toObject := OProposedCommit;
     metaOf := ProposedCommit.Meta |}.
#[global] Instance CommitStatus_Resource : Resource CommitStatus.t :=
  {| kindOf := KCommitStatus; toObject := OCommitStatus;
     metaOf := CommitStatus.Meta |}.
#[global] Instance PullRequest_Resource : Resource PullRequest.t :=
  {| kindOf := KPullRequest; toObject := OPullRequest;
     metaOf := PullRequest.Meta |}.
#[global] Instance ScmProvider_Resource : Resource ScmProvider.t :=
  {| kindOf := KScmProvider; toObject := OScmProvider;
     metaOf := ScmProvider.Meta |}.
#[global] Instance Secret_Resource : Resource Secret.t :=
  {| kindOf := KSecret; toObject := OSecret; metaOf := Secret.Meta |}.

(** [client.Client] restricted to one kind.  The writing calls take a
    pointer in Go and store the server's answer through it: they return the
    object as it is after the call. *)
Class Store (W A : Type) := {
  store_get : ObjectKey.t -> W -> W * result A;
  store_list : ListOptions.t -> W -> W * result (list A);
  store_create : A -> W -> W * result A;
  store_update : A -> W -> W * result A;
  store_delete : A -> W -> W * option error;
  store_status_update : A -> W -> W * result A
}.

(** [scms.PullRequestProvider] *)
Record PullRequestProvider (W : Type) := {
  FindOpen : PullRequest.t -> W -> W * (bool * option error);
  ProviderCreate : string -> string -> string -> string -> PullRequest.t ->
                   W -> W * (string * option error);
  ProviderUpdate : string -> string -> PullRequest.t -> W -> W * option error;
  ProviderMerge : string -> PullRequest.t -> W -> W * option error;
  ProviderClose : PullRequest.t -> W -> W * option error
}.
Arguments FindOpen {W}.
Arguments ProviderCreate {W}.
Arguments ProviderUpdate {W}.
Arguments ProviderMerge {W}.
Arguments ProviderClose {W}.

(** The Go runtime and the packages outside the repository that act on the
    world: [rand.Intn], [time.Sleep], [metav1.Now], and the constructors of
    the two provider drivers ([internal/scms/github], [internal/scms/fake]). *)
Class Runtime (W : Type) := {
  rt_randIntn : Z -> W -> W * Z;
  rt_sleep : Z -> W -> W;
  rt_now : W -> W * metav1_Time;
  NewGithubPullRequestProvider : Secret.t -> string -> result (PullRequestProvider W);
  NewFakePullRequestProvider : PullRequestProvider W
}.

(** ** The monad of reconciler code

    State: the world and the calls made so far.  A computation ends with a
    value, with a panic, or is cut by the fuel of an unbounded loop. *)

Inductive run (A : Type) :=
| Val (a : A)
| Panicked
| OutOfFuel.
Arguments Val {A} a.
Arguments Panicked {A}.
Arguments OutOfFuel {A}.

Module St.
Record t (W : Type) := mk { world : W; calls : list Call }.
Arguments mk {W}.
Arguments world {W}.
Arguments calls {W}.
End St.

Definition M (W A : Type) : Type := St.t W -> St.t W * run A.

Definition ret {W A} (a : A) : M W A := fun st => (st, Val a).

Definition bind {W A B} (m : M W A) (k : A -> M W B) : M W B :=
  fun st =>
    match m st with
    | (st', Val a) => k a st'
    | (st', Panicked) => (st', Panicked)
    | (st', OutOfFuel) => (st', OutOfFuel)
    end.

Definition panic {W A} : M W A := fun st => (st, Panicked).
Definition outOfFuel {W A} : M W A := fun st => (st, OutOfFuel).

(** A value whose computation may panic. *)
Definition orPanic {W A} (o : option A) : M W A :=
  match o with
  | Some a => ret a
  | None => panic
  end.

(** Perform [op] on the world and record [c]. *)
Definition call {W A} (c : Call) (op : W -> W * A) : M W A :=
  fun st =>
    let '(w, a) := op (St.world st) in
    (St.mk w (St.calls st ++ [c]), Val a).

#[global] Instance M_ret {W} : MRet (M W) := fun A a => ret a.
#[global] Instance M_bind {W} : MBind (M W) := fun A B k m => bind m k.

(** What a loop body tells its loop: go on with the loop-carried
    variables [s], or leave the enclosing function with [r]. *)
Inductive flow (S R : Type) :=
| Next (s : S)
| Return (r : R).
Arguments Next {S R} s.
Arguments Return {S R} r.

Fixpoint forRange {W A S R} (xs : list A) (s : S)
         (body : S -> A -> M W (flow S R)) : M W (flow S R) :=
  match xs with
  | [] => ret (Next s)
  | x :: rest =>
      bind (body s x)
           (fun f => match f with
                     | Next s' => forRange rest s' body
                     | Return r => ret (Return r)
                     end)
  end.

(** ** Zero values and field updates

    Go updates struct fields in place; each setter below rebuilds the record
    with one field changed. *)

Definition ObjectMeta_zero : ObjectMeta.t :=
  ObjectMeta.mk "" "" None None 0 None [] [].
Definition Repository_zero : Repository.t :=
  Repository.mk "" "" (ScmProviderRef.mk "" "").
Definition ProposedCommitShaState_zero : ProposedCommitShaState.t :=
  ProposedCommitShaState.mk "" 0.
Definition ProposedCommitBranchState_zero : ProposedCommitBranchState.t :=
  ProposedCommitBranchState.mk ProposedCommitShaState_zero ProposedCommitShaState_zero.
Definition ProposedCommitStatus_zero : ProposedCommitStatus.t :=
  ProposedCommitStatus.mk ProposedCommitBranchState_zero ProposedCommitBranchState_zero.
Definition ProposedCommit_zero : ProposedCommit.t :=
  ProposedCommit.mk ObjectMeta_zero (ProposedCommitSpec.mk Repository_zero "" "")
                    ProposedCommitStatus_zero.
Definition CommitStatusStatus_zero : CommitStatusStatus.t :=
  CommitStatusStatus.mk 0 "" "" "".

Definition setLabels (l : StringMap) (m : ObjectMeta.t) : ObjectMeta.t :=
  ObjectMeta.mk (ObjectMeta.Name m) (ObjectMeta.Namespace m) l
                (ObjectMeta.Annotations m) (ObjectMeta.Generation m)
                (ObjectMeta.DeletionTimestamp m) (ObjectMeta.Finalizers m)
                (ObjectMeta.OwnerReferences m).

Definition setFinalizers (f : list string) (m : ObjectMeta.t) : ObjectMeta.t :=
  ObjectMeta.mk (ObjectMeta.Name m) (ObjectMeta.Namespace m) (ObjectMeta.Labels m)
                (ObjectMeta.Annotations m) (ObjectMeta.Generation m)
                (ObjectMeta.DeletionTimestamp m) f
                (ObjectMeta.OwnerReferences m).

Definition setCommitState (v : string) (c : PromotionStrategyCommitStatus.t) :=
  PromotionStrategyCommitStatus.mk v (PromotionStrategyCommitStatus.Sha c).
Definition setCommitSha (v : string) (c : PromotionStrategyCommitStatus.t) :=
  PromotionStrategyCommitStatus.mk (PromotionStrategyCommitStatus.State c) v.

Definition withCommitStatus
           (f : PromotionStrategyCommitStatus.t -> PromotionStrategyCommitStatus.t)
           (b : PromotionStrategyBranchStateStatus.t) :=
  PromotionStrategyBranchStateStatus.mk
    (PromotionStrategyBranchStateStatus.Dry b)
    (PromotionStrategyBranchStateStatus.Hydrated b)
    (f (PromotionStrategyBranchStateStatus.CommitStatus b)).

(** [e.Active.CommitStatus := f (e.Active.CommitStatus)] *)
Definition withActive
           (f : PromotionStrategyCommitStatus.t -> PromotionStrategyCommitStatus.t)
           (e : EnvironmentStatus.t) :=
  EnvironmentStatus.mk (EnvironmentStatus.Branch e)
                       (withCommitStatus f (EnvironmentStatus.Active e))
                       (EnvironmentStatus.Proposed e)
                       (EnvironmentStatus.LastHealthyDryShas e).

(** [e.Proposed.CommitStatus := f (e.Proposed.CommitStatus)] *)
Definition withProposed
           (f : PromotionStrategyCommitStatus.t -> PromotionStrategyCommitStatus.t)
           (e : EnvironmentStatus.t) :=
  EnvironmentStatus.mk (EnvironmentStatus.Branch e)
                       (EnvironmentStatus.Active e)
                       (withCommitStatus f (EnvironmentStatus.Proposed e))
                       (EnvironmentStatus.LastHealthyDryShas e).

Definition withLastHealthyDryShas (l : list HealthyDryShas.t) (e : EnvironmentStatus.t) :=
  EnvironmentStatus.mk (EnvironmentStatus.Branch e) (EnvironmentStatus.Active e)
                       (EnvironmentStatus.Proposed e) l.

Definition statusEnvironments (ps : PromotionStrategy.t) : list EnvironmentStatus.t :=
  PromotionStrategyStatus.Environments (PromotionStrategy.Status ps).

Definition specEnvironments (ps : PromotionStrategy.t) : list Environment.t :=
  PromotionStrategySpec.Environments (PromotionStrategy.Spec ps).

Definition setStatusEnvironments (l : list EnvironmentStatus.t) (ps : PromotionStrategy.t) :=
  PromotionStrategy.mk (PromotionStrategy.Meta ps) (PromotionStrategy.Spec ps)
                       (PromotionStrategyStatus.mk l).

(** [ps.Status.Environments[i]] as an operand; [None]: index out of range. *)
Definition environmentAt (ps : PromotionStrategy.t) (i : Z) : option EnvironmentStatus.t :=
  if (i <? 0) || (Z.of_nat (length (statusEnvironments ps)) <=? i) then None
  else statusEnvironments ps !! Z.to_nat i.

(** [ps.Status.Environments[i].<field> = ...]; [None]: index out of range. *)
Definition assignAt (ps : PromotionStrategy.t) (i : Z)
           (f : EnvironmentStatus.t -> EnvironmentStatus.t) : option PromotionStrategy.t :=
  if (i <? 0) || (Z.of_nat (length (statusEnvironments ps)) <=? i) then None
  else Some (setStatusEnvironments (alter f (Z.to_nat i) (statusEnvironments ps)) ps).

Definition setPullRequestSpecState (v : string) (pr : PullRequest.t) : PullRequest.t :=
  let s := PullRequest.Spec pr in
  PullRequest.mk (PullRequest.Meta pr)
                 (PullRequestSpec.mk (PullRequestSpec.RepositoryReference s)
                                     (PullRequestSpec.Title s)
                                     (PullRequestSpec.TargetBranch s)
                                     (PullRequestSpec.SourceBranch s)
                                     (PullRequestSpec.Description s) v)
                 (PullRequest.Status pr).

Definition setPullRequestStatus (st : PullRequestStatus.t) (pr : PullRequest.t) : PullRequest.t :=
  PullRequest.mk (PullRequest.Meta pr) (PullRequest.Spec pr) st.

Definition setPullRequestMeta (m : ObjectMeta.t) (pr : PullRequest.t) : PullRequest.t :=
  PullRequest.mk m (PullRequest.Spec pr) (PullRequest.Status pr).

Definition objectKeyOf (m : ObjectMeta.t) : ObjectKey.t :=
  ObjectKey.mk (ObjectMeta.Namespace m) (ObjectMeta.Name m).

(** ** The client calls as monadic actions *)

Section Client.
Context {W : Type}.

Definition r_Get {A} `{Resource A, Store W A} (key : ObjectKey.t) : M W (result A) :=
  call (CGet (@kindOf A _) key) (store_get key).

Definition r_List {A} `{Resource A, Store W A} (opts : ListOptions.t)
  : M W (result (list A)) :=
  call (CList (@kindOf A _) opts) (store_list opts).

Definition r_Create {A} `{Resource A, Store W A} (obj : A) : M W (result A) :=
  call (CCreate (toObject obj)) (store_create obj).

Definition r_Update {A} `{Resource A, Store W A} (obj : A) : M W (result A) :=
  call (CUpdate (toObject obj)) (store_update obj).

Definition r_Delete {A} `{Resource A, Store W A} (obj : A) : M W (option error) :=
  call (CDelete (toObject obj)) (store_delete obj).

Definition r_Status_Update {A} `{Resource A, Store W A} (obj : A) : M W (result A) :=
  call (CStatusUpdate (toObject obj)) (store_status_update obj).

Definition Recorder_Event {A} `{Resource A} (obj : A) (eventtype reason message : string)
  : M W unit :=
  call (CEvent (toObject obj) eventtype reason message) (fun w => (w, tt)).

Definition rand_Intn `{Runtime W} (n : Z) : M W Z :=
  call (CRandIntn n) (rt_randIntn n).

Definition time_Sleep `{Runtime W} (milliseconds : Z) : M W unit :=
  call (CSleep milliseconds) (fun w => (rt_sleep milliseconds w, tt)).

Definition metav1_Now `{Runtime W} : M W metav1_Time :=
  call CNow rt_now.

(** [retry.RetryOnConflict(backoff, fn)] of k8s.io/client-go: [fn] is run
    until it succeeds or fails with something else than a conflict, at most
    [steps] times; when the steps are used up the last conflict is
    returned.  [retry.DefaultRetry] has five steps.  [s] stands for the
    variables the closure captures and overwrites. *)
Fixpoint RetryOnConflict {S} (steps : nat) (lastErr : option error) (s : S)
         (fn : S -> M W (S * option error)) : M W (S * option error) :=
  match steps with
  | O => mret (s, lastErr)
  | S steps' =>
      '(s, err) ← fn s;
      match err with
      | None => mret (s, None)
      | Some e => if IsConflict e then RetryOnConflict steps' (Some e) s fn
                  else mret (s, Some e)
      end
  end.

Definition DefaultRetry : nat := 5.

End Client.

Module Result.
(** [ctrl.Result]; [RequeueAfter] is a [time.Duration], in nanoseconds. *)
Record t := mk { Requeue : bool; RequeueAfter : Z }.
Definition zero : t := mk false 0.
End Result.

Definition Millisecond : Z := 1000000.
Definition Second : Z := 1000 * Millisecond.

(** ** cmd/main.go: the requeue flags *)

Module main.
(** [flag.StringVar(&promotionStrategyRequeue,
    "promotion-strategy-requeue-duration", "60s", ...)] followed by
    [time.ParseDuration]. *)
Definition promotionStrategyRequeue_default : Z := 60 * Second.
Definition proposedCommitRequeue_default : Z := 60 * Second.
End main.

(** ** internal/controller/promotionstrategy_controller.go *)

Module PromotionStrategyReconcilerConfig.
Record t := mk { RequeueDuration : Z }.
End PromotionStrategyReconcilerConfig.

Module PromotionStrategyReconciler.

(** The reconciler value as [cmd/main.go] builds it: the embedded client
    is the ambient [Store] instances, [Config] carries the parsed flag. *)
Record t := mk { Config : PromotionStrategyReconcilerConfig.t }.

Definition label_promotion_strategy := "promoter.argoproj.io/promotion-strategy".
Definition label_proposed_commit := "promoter.argoproj.io/proposed-commit".
Definition label_environment := "promoter.argoproj.io/environment".
Definition label_commit_status := "promoter.argoproj.io/commit-status".
Definition label_copy := "promoter.argoproj.io/commit-status-copy".
Definition label_copy_from := "promoter.argoproj.io/commit-status-copy-from".
Definition label_copy_from_sha := "promoter.argoproj.io/commit-status-copy-from-sha".
Definition label_copy_from_branch := "promoter.argoproj.io/commit-status-copy-from-branch".

Section WithClient.
Context {W : Type}.
Context {psStore : Store W PromotionStrategy.t} {pcStore : Store W ProposedCommit.t}
        {csStore : Store W CommitStatus.t} {prStore : Store W PullRequest.t}
        {runtime : Runtime W}.

Definition statusPopulated (pc : ProposedCommit.t) : bool :=
  let s := ProposedCommit.Status pc in
  negb (String.eqb (ProposedCommitShaState.Sha (ProposedCommitBranchState.Dry (ProposedCommitStatus.Active s))) "")
  && negb (String.eqb (ProposedCommitShaState.Sha (ProposedCommitBranchState.Hydrated (ProposedCommitStatus.Active s))) "")
  && negb (String.eqb (ProposedCommitShaState.Sha (ProposedCommitBranchState.Dry (ProposedCommitStatus.Proposed s))) "")
  && negb (String.eqb (ProposedCommitShaState.Sha (ProposedCommitBranchState.Hydrated (ProposedCommitStatus.Proposed s))) "").

(** The unbounded [for] loop at the end of [createOrGetProposedCommit];
    [fuel] bounds the number of iterations. *)
Fixpoint waitForStatus (fuel : nat) (key : ObjectKey.t) (pc : ProposedCommit.t)
  : M W (ProposedCommit.t * option error) :=
  match fuel with
  | O => outOfFuel
  | S fuel' =>
      r ← r_Get key;
      match r with
      | Err e =>
          if IsNotFound e then waitForStatus fuel' key pc
          else mret (pc, Some e)
      | Ok pc =>
          if statusPopulated pc then mret (pc, None)
          else
            n ← rand_Intn 1000;
            time_Sleep n;;
            waitForStatus fuel' key pc
      end
  end.

Definition createOrGetProposedCommit (fuel : nat) (ps : PromotionStrategy.t)
           (environment : Environment.t) : M W (ProposedCommit.t * option error) :=
  let pc := ProposedCommit_zero in
  let psMeta := PromotionStrategy.Meta ps in
  pcName ← orPanic (utils.KubeSafeUniqueName
                      (ObjectMeta.Name psMeta +:+ "-" +:+ Environment.Branch environment));
  let key := ObjectKey.mk (ObjectMeta.Namespace psMeta) pcName in
  r ← r_Get key;
  match r with
  | Err e =>
      if IsNotFound e then
        l1 ← orPanic (utils.KubeSafeLabel (ObjectMeta.Name psMeta));
        l2 ← orPanic (utils.KubeSafeLabel pcName);
        l3 ← orPanic (utils.KubeSafeLabel (Environment.Branch environment));
        let pc :=
          ProposedCommit.mk
            (ObjectMeta.mk pcName (ObjectMeta.Namespace psMeta)
               (Some (<[label_promotion_strategy := l1]>
                       (<[label_proposed_commit := l2]>
                         (<[label_environment := l3]> ∅))))
               None 0 None [] [ObjectMeta.Name psMeta])
            (ProposedCommitSpec.mk
               (PromotionStrategySpec.RepositoryReference (PromotionStrategy.Spec ps))
               (Environment.Branch environment +:+ "-" +:+ "next")
               (Environment.Branch environment))
            ProposedCommitStatus_zero in
        c ← r_Create pc;
        match c with
        | Err e => mret (pc, Some e)
        | Ok pc => waitForStatus fuel key pc
        end
      else mret (pc, Some e)
  | Ok pc => waitForStatus fuel key pc
  end.

(** [for _, cs := range list { if cs.Status.State != "success" { ...; break } }]:
    the entry at which the loop breaks, if any. *)
Fixpoint firstNotSuccess (list : list CommitStatus.t) : option CommitStatus.t :=
  match list with
  | [] => None
  | cs :: rest =>
      if negb (String.eqb (CommitStatusStatus.State (CommitStatus.Status cs)) "success")
      then Some cs
      else firstNotSuccess rest
  end.

Definition notCopy (item : CommitStatus.t) : bool :=
  negb (String.eqb (labelOf (ObjectMeta.Labels (CommitStatus.Meta item)) label_copy) "true").

(** One iteration of either [for _, status := range ...CommitStatusList]
    loop of [calculateStatus].  The two loops are the same text up to
    the SHA that is selected ([hydratedSha]) and the side of the status
    entry that receives the sentinels ([side] is [withActive] or
    [withProposed]).  Loop-carried: the strategy and the collected list. *)
Definition collectCommitStatus (hydratedSha : string)
           (side : (PromotionStrategyCommitStatus.t -> PromotionStrategyCommitStatus.t)
                   -> EnvironmentStatus.t -> EnvironmentStatus.t)
           (i : Z)
           (s : PromotionStrategy.t * list CommitStatus.t)
           (status : CommitStatusSelector.t)
  : M W (flow (PromotionStrategy.t * list CommitStatus.t)
              (PromotionStrategy.t * option error)) :=
  let '(ps, allCSList) := s in
  key ← orPanic (utils.KubeSafeLabel (CommitStatusSelector.Key status));
  r ← r_List (ListOptions.mk {[ label_commit_status := key ]}
                             {[ ".spec.sha" := hydratedSha ]});
  match r with
  | Err err => mret (Return (ps, Some err))
  | Ok items =>
      let csListSlice := List.filter notCopy items in
      match csListSlice with
      | [only] => mret (Next (ps, allCSList ++ [only]))
      | _ :: _ :: _ =>
          ps ← orPanic (assignAt ps i (side (setCommitState "to-many-matching-sha")));
          ps ← orPanic (assignAt ps i (side (setCommitSha "to-many-matching-sha")));
          mret (Next (ps, allCSList))
      | [] =>
          ps ← orPanic (assignAt ps i (side (setCommitState "no-commit-status-found")));
          ps ← orPanic (assignAt ps i (side (setCommitSha "no-commit-status-found")));
          mret (Next (ps, allCSList))
      end
  end.

(** The status entry [calculateStatus] upserts for an environment. *)
Definition freshStatus (environment : Environment.t) (pc : ProposedCommit.t)
  : EnvironmentStatus.t :=
  let s := ProposedCommit.Status pc in
  let a := ProposedCommitStatus.Active s in
  let p := ProposedCommitStatus.Proposed s in
  EnvironmentStatus.mk
    (Environment.Branch environment)
    (PromotionStrategyBranchStateStatus.mk
       (ProposedCommitShaState.mk
          (ProposedCommitShaState.Sha (ProposedCommitBranchState.Dry a))
          (ProposedCommitShaState.CommitTime (ProposedCommitBranchState.Dry a)))
       (ProposedCommitShaState.mk
          (ProposedCommitShaState.Sha (ProposedCommitBranchState.Hydrated a))
          (ProposedCommitShaState.CommitTime (ProposedCommitBranchState.Hydrated a)))
       (PromotionStrategyCommitStatus.mk "unknown" "unknown"))
    (PromotionStrategyBranchStateStatus.mk
       (ProposedCommitShaState.mk
          (ProposedCommitShaState.Sha (ProposedCommitBranchState.Dry p))
          (ProposedCommitShaState.CommitTime (ProposedCommitBranchState.Dry p)))
       (ProposedCommitShaState.mk
          (ProposedCommitShaState.Sha (ProposedCommitBranchState.Hydrated p))
          (ProposedCommitShaState.CommitTime (ProposedCommitBranchState.Hydrated p)))
       (PromotionStrategyCommitStatus.mk "unknown" "unknown"))
    [].

Definition activeHydratedSha (pc : ProposedCommit.t) : string :=
  ProposedCommitShaState.Sha
    (ProposedCommitBranchState.Hydrated (ProposedCommitStatus.Active (ProposedCommit.Status pc))).
Definition proposedHydratedSha (pc : ProposedCommit.t) : string :=
  ProposedCommitShaState.Sha
    (ProposedCommitBranchState.Hydrated (ProposedCommitStatus.Proposed (ProposedCommit.Status pc))).
Definition proposedDrySha (pc : ProposedCommit.t) : string :=
  ProposedCommitShaState.Sha
    (ProposedCommitBranchState.Dry (ProposedCommitStatus.Proposed (ProposedCommit.Status pc))).

(** The body of [for _, environment := range ps.Spec.Environments] in
    [calculateStatus]; the strategy is the loop-carried variable. *)
Definition calculateStatus_body (pcMap : gmap string ProposedCommit.t)
           (ps : PromotionStrategy.t) (environment : Environment.t)
  : M W (flow PromotionStrategy.t (PromotionStrategy.t * option error)) :=
  match pcMap !! Environment.Branch environment with
  | None =>
      mret (Return (ps, Some (ErrOther ("ProposedCommit not found for branch "
                                          +:+ Environment.Branch environment))))
  | Some pc =>
      let ps := setStatusEnvironments
                  (envutils.UpsertEnvironmentStatus (statusEnvironments ps)
                                                    (freshStatus environment pc)) ps in
      let '(i, _) := envutils.GetEnvironmentStatusByBranch ps (Environment.Branch environment) in
      (* if i >= len(ps.Status.Environments) && len(...[i].LastHealthyDryShas) > 10 *)
      tooMany ← (if i >=? Z.of_nat (length (statusEnvironments ps))
                 then e ← orPanic (environmentAt ps i);
                      mret (Z.of_nat (length (EnvironmentStatus.LastHealthyDryShas e)) >? 10)
                 else mret false);
      ps ← (if tooMany : bool
            then e ← orPanic (environmentAt ps i);
                 orPanic (assignAt ps i (withLastHealthyDryShas
                                           (take 10 (EnvironmentStatus.LastHealthyDryShas e))))
            else mret ps);
      (* Bubble up active CommitStatus to PromotionStrategy Status *)
      let activeCommitStatusList :=
        Environment.ActiveCommitStatuses environment
        ++ PromotionStrategySpec.ActiveCommitStatuses (PromotionStrategy.Spec ps) in
      f ← forRange activeCommitStatusList (ps, [])
            (collectCommitStatus (activeHydratedSha pc) withActive i);
      match f with
      | Return r => mret (Return r)
      | Next (ps, allActiveCSList) =>
          ps ← (if (Z.of_nat (length allActiveCSList) =? 0) && (i >=? 0)
                then
                  ps ← orPanic (assignAt ps i (withProposed (setCommitState "success")));
                  orPanic (assignAt ps i (withProposed (setCommitSha (activeHydratedSha pc))))
                else
                  ps ← orPanic (assignAt ps i (withActive (setCommitState "success")));
                  match firstNotSuccess allActiveCSList with
                  | Some cs =>
                      ps ← orPanic (assignAt ps i (withActive
                             (setCommitState (CommitStatusSpec.State (CommitStatus.Spec cs)))));
                      orPanic (assignAt ps i (withActive
                             (setCommitSha (CommitStatusSpec.Sha (CommitStatus.Spec cs)))))
                  | None => mret ps
                  end);
          (* Bubble up proposed CommitStatus to PromotionStrategy Status *)
          let proposedCommitStatusList :=
            Environment.ProposedCommitStatuses environment
            ++ PromotionStrategySpec.ProposedCommitStatuses (PromotionStrategy.Spec ps) in
          f ← forRange proposedCommitStatusList (ps, [])
                (collectCommitStatus (proposedHydratedSha pc) withProposed i);
          match f with
          | Return r => mret (Return r)
          | Next (ps, allProposdedCSList) =>
              ps ← (if (Z.of_nat (length allProposdedCSList) =? 0) && (i >=? 0)
                    then
                      ps ← orPanic (assignAt ps i (withProposed (setCommitState "success")));
                      orPanic (assignAt ps i (withProposed (setCommitSha (activeHydratedSha pc))))
                    else
                      ps ← orPanic (assignAt ps i (withProposed (setCommitState "success")));
                      match firstNotSuccess allActiveCSList with
                      | Some cs =>
                          ps ← orPanic (assignAt ps i (withProposed
                                 (setCommitState (CommitStatusSpec.State (CommitStatus.Spec cs)))));
                          orPanic (assignAt ps i (withProposed
                                 (setCommitSha (CommitStatusSpec.Sha (CommitStatus.Spec cs)))))
                      | None => mret ps
                      end);
              mret (Next ps)
          end
      end
  end.

Definition calculateStatus (ps : PromotionStrategy.t)
           (pcMap : gmap string ProposedCommit.t)
  : M W (PromotionStrategy.t * option error) :=
  f ← forRange (specEnvironments ps) ps (calculateStatus_body pcMap);
  match f with
  | Return r => mret r
  | Next ps => mret (ps, None)
  end.

(** The copy built on the not-found path of [copyCommitStatuses]. *)
Definition newCopy (commitStatus : CommitStatus.t) (labels : gmap string string)
           (copyFromActiveHydratedSha copyToProposedHydratedSha branch : string)
  : CommitStatus.t :=
  let m := CommitStatus.Meta commitStatus in
  let sp := CommitStatus.Spec commitStatus in
  let repo := CommitStatusSpec.RepositoryReference sp in
  CommitStatus.mk
    (ObjectMeta.mk ("proposed-" +:+ ObjectMeta.Name m) (ObjectMeta.Namespace m)
                   (Some labels) (ObjectMeta.Annotations m) 0 None [] [])
    (CommitStatusSpec.mk
       repo
       copyToProposedHydratedSha
       (branch +:+ " - " +:+ CommitStatusSpec.Name sp)
       (CommitStatusSpec.Description sp)
       (CommitStatusSpec.State sp)
       ("https://github.com/" +:+ Repository.Owner repo +:+ "/" +:+ Repository.Name repo
          +:+ "/commit/" +:+ copyFromActiveHydratedSha))
    CommitStatusStatus_zero.

(** The four provenance labels written on a copy. *)
Definition copyLabels (base : gmap string string) (from fromSha fromBranch : string)
  : gmap string string :=
  <[label_copy_from_branch := fromBranch]>
    (<[label_copy_from_sha := fromSha]>
       (<[label_copy_from := from]>
          (<[label_copy := "true"]> base))).

(** The body of [for _, commitStatus := range commitStatuses.Items]. *)
Definition copyCommitStatus
           (copyFromActiveHydratedSha copyToProposedHydratedSha branch : string)
           (_ : unit) (commitStatus : CommitStatus.t)
  : M W (flow unit (option error)) :=
  let m := CommitStatus.Meta commitStatus in
  let sp := CommitStatus.Spec commitStatus in
  if String.eqb (labelOf (ObjectMeta.Labels m) label_copy) "true"
  then mret (Next tt)                                             (* continue *)
  else
    let proposedCSObjectKey :=
      ObjectKey.mk (ObjectMeta.Namespace m) ("proposed-" +:+ ObjectMeta.Name m) in
    g ← r_Get proposedCSObjectKey;
    match g with
    | Err errGet =>
        if IsNotFound errGet then
          (* if status.Labels == nil { status.Labels = make(map[string]string) } *)
          let base := default ∅ (ObjectMeta.Labels m) in
          from ← orPanic (utils.KubeSafeLabel (CommitStatusSpec.Name sp));
          fromSha ← orPanic (utils.KubeSafeLabel copyFromActiveHydratedSha);
          fromBranch ← orPanic (utils.KubeSafeLabel branch);
          let status := newCopy commitStatus (copyLabels base from fromSha fromBranch)
                                copyFromActiveHydratedSha copyToProposedHydratedSha branch in
          c ← r_Create status;
          match c with
          | Err err => mret (Return (Some err))
          | Ok _ => mret (Return None)                            (* return nil *)
          end
        else mret (Return (Some errGet))
    | Ok cs =>
        (* commitStatus.Spec.DeepCopyInto(&cs.Spec); cs.Labels[...] = ... *)
        labels ← orPanic (ObjectMeta.Labels (CommitStatus.Meta cs));
        from ← orPanic (utils.KubeSafeLabel (CommitStatusSpec.Name sp));
        fromSha ← orPanic (utils.KubeSafeLabel copyFromActiveHydratedSha);
        fromBranch ← orPanic (utils.KubeSafeLabel branch);
        let repo := CommitStatusSpec.RepositoryReference sp in
        let cs :=
          CommitStatus.mk
            (setLabels (Some (copyLabels labels from fromSha fromBranch)) (CommitStatus.Meta cs))
            (CommitStatusSpec.mk
               repo
               copyToProposedHydratedSha
               (branch +:+ " - " +:+ CommitStatusSpec.Name sp)
               (CommitStatusSpec.Description sp)
               (CommitStatusSpec.State sp)
               ("https://github.com/" +:+ Repository.Owner repo +:+ "/" +:+ Repository.Name repo
                  +:+ "/commit/" +:+ copyFromActiveHydratedSha))
            (CommitStatus.Status cs) in
        u ← r_Update cs;
        match u with
        | Err err => mret (Return (Some err))
        | Ok _ => mret (Next tt)
        end
    end.

(** The body of [for _, value := range csSelector]. *)
Definition copyCommitStatuses_body
           (copyFromActiveHydratedSha copyToProposedHydratedSha branch : string)
           (_ : unit) (value : CommitStatusSelector.t)
  : M W (flow unit (option error)) :=
  key ← orPanic (utils.KubeSafeLabel (CommitStatusSelector.Key value));
  r ← r_List (ListOptions.mk {[ label_commit_status := key ]}
                             {[ ".spec.sha" := copyFromActiveHydratedSha ]});
  match r with
  | Err err => mret (Return (Some err))
  | Ok items =>
      forRange items tt
               (copyCommitStatus copyFromActiveHydratedSha copyToProposedHydratedSha branch)
  end.

Definition copyCommitStatuses (csSelector : list CommitStatusSelector.t)
           (copyFromActiveHydratedSha copyToProposedHydratedSha branch : string)
  : M W (option error) :=
  f ← forRange csSelector tt
        (copyCommitStatuses_body copyFromActiveHydratedSha copyToProposedHydratedSha branch);
  match f with
  | Return err => mret err
  | Next _ => mret None
  end.

Definition activeDry (e : EnvironmentStatus.t) : ProposedCommitShaState.t :=
  PromotionStrategyBranchStateStatus.Dry (EnvironmentStatus.Active e).
Definition activeState (e : EnvironmentStatus.t) : string :=
  PromotionStrategyCommitStatus.State
    (PromotionStrategyBranchStateStatus.CommitStatus (EnvironmentStatus.Active e)).
Definition proposedState (e : EnvironmentStatus.t) : string :=
  PromotionStrategyCommitStatus.State
    (PromotionStrategyBranchStateStatus.CommitStatus (EnvironmentStatus.Proposed e)).

(** The closure handed to [retry.RetryOnConflict] in [Reconcile]; it
    reads into and writes from [prl.Items[0]]. *)
Definition mergeClosure (item : PullRequest.t) : M W (PullRequest.t * option error) :=
  g ← r_Get (objectKeyOf (PullRequest.Meta item));
  match g with
  | Err err => mret (item, Some err)
  | Ok item =>
      let item := setPullRequestSpecState PullRequestMerged item in
      u ← r_Update item;
      match u with
      | Err err => mret (item, Some err)
      | Ok item => mret (item, None)
      end
  end.

(** [activeChecksPassed := previousEnvironmentStatus != nil && ... &&
    previous...CommitTime.After(environmentStatus...CommitTime.Time)]:
    four conjuncts evaluated left to right with short circuit, so the map
    entry and [environmentStatus] are dereferenced only when the
    conjuncts before them hold. *)
Definition activeChecksPassed (proposedCommitMap : gmap string ProposedCommit.t)
           (branch : string)
           (previousEnvironmentStatus environmentStatus : option EnvironmentStatus.t)
  : M W bool :=
  match previousEnvironmentStatus with
  | None => mret false
  | Some previous =>
      if String.eqb (activeState previous) "success" then
        pc ← orPanic (proposedCommitMap !! branch);
        if String.eqb (ProposedCommitShaState.Sha (activeDry previous)) (proposedDrySha pc)
        then
          current ← orPanic environmentStatus;
          mret (ProposedCommitShaState.CommitTime (activeDry current)
                <? ProposedCommitShaState.CommitTime (activeDry previous))
        else mret false
      else mret false
  end.

(** [proposedChecksPassed := environmentStatus != nil &&
    environmentStatus.Proposed.CommitStatus.State == "success"] *)
Definition proposedChecksPassed (environmentStatus : option EnvironmentStatus.t) : bool :=
  match environmentStatus with
  | Some current => String.eqb (proposedState current) "success"
  | None => false
  end.

(** The body of the second [for _, environment := range
    ps.Spec.Environments] loop of [Reconcile]: copy the statuses forward,
    then decide on the merge.  [Return] leaves [Reconcile]. *)
Definition Reconcile_body (ps : PromotionStrategy.t)
           (proposedCommitMap : gmap string ProposedCommit.t)
           (_ : unit) (environment : Environment.t)
  : M W (flow unit (Result.t * option error)) :=
  let branch := Environment.Branch environment in
  let '(_, previousEnvironmentStatus) :=
    envutils.GetPreviousEnvironmentStatusByBranch ps branch in
  let '(environmentIndex, environmentStatus) :=
    envutils.GetEnvironmentStatusByBranch ps branch in
  err ← match previousEnvironmentStatus with
        | Some previous =>
            pc ← orPanic (proposedCommitMap !! branch);
            if String.eqb (ProposedCommitShaState.Sha (activeDry previous)) (proposedDrySha pc)
            then copyCommitStatuses
                   (Environment.ActiveCommitStatuses environment
                    ++ PromotionStrategySpec.ActiveCommitStatuses (PromotionStrategy.Spec ps))
                   (ProposedCommitShaState.Sha
                      (PromotionStrategyBranchStateStatus.Hydrated (EnvironmentStatus.Active previous)))
                   (proposedHydratedSha pc)
                   (EnvironmentStatus.Branch previous)
            else mret None
        | None => mret None
        end;
  match err with
  | Some err => mret (Return (Result.zero, Some err))
  | None =>
      activeChecksPassed ←
        activeChecksPassed proposedCommitMap branch
                           previousEnvironmentStatus environmentStatus;
      let proposedChecksPassed := proposedChecksPassed environmentStatus in
      if ((environmentIndex =? 0) || (activeChecksPassed && proposedChecksPassed))
         && Environment.GetAutoMerge environment
      then
        l1 ← orPanic (utils.KubeSafeLabel (ObjectMeta.Name (PromotionStrategy.Meta ps)));
        pc ← orPanic (proposedCommitMap !! branch);
        l2 ← orPanic (utils.KubeSafeLabel (ObjectMeta.Name (ProposedCommit.Meta pc)));
        l3 ← orPanic (utils.KubeSafeLabel branch);
        r ← r_List (ListOptions.mk
                      (<[label_promotion_strategy := l1]>
                         (<[label_proposed_commit := l2]>
                            (<[label_environment := l3]> ∅)))
                      ∅);
        match r with
        | Err err => mret (Return (Result.zero, Some err))
        | Ok items =>
            match items with
            | item :: _ =>
                if String.eqb (PullRequestSpec.State (PullRequest.Spec item)) PullRequestOpen
                   && String.eqb (PullRequestStatus.State (PullRequest.Status item)) PullRequestOpen
                then
                  let item := setPullRequestSpecState PullRequestMerged item in
                  '(_, err) ← RetryOnConflict DefaultRetry None item mergeClosure;
                  match err with
                  | Some err => mret (Return (Result.zero, Some err))
                  | None => mret (Next tt)
                  end
                else mret (Next tt)
            | [] => mret (Next tt)
            end
        end
      else mret (Next tt)
  end.

(** [Reconcile]; [req] is the namespaced name of the strategy, [fuel]
    bounds each wait for a ProposedCommit status. *)
Definition Reconcile (r : t) (fuel : nat) (req : ObjectKey.t)
  : M W (Result.t * option error) :=
  g ← r_Get req;
  match g with
  | Err err =>
      if IsNotFound err then mret (Result.zero, None)
      else mret (Result.zero, Some err)
  | Ok ps =>
      f ← forRange (specEnvironments ps) (∅ : gmap string ProposedCommit.t)
            (fun proposedCommitMap environment =>
               '(pc, err) ← createOrGetProposedCommit fuel ps environment;
               match err with
               | Some err => mret (Return (Result.zero, Some err))
               | None => mret (Next (<[Environment.Branch environment := pc]> proposedCommitMap))
               end);
      match f with
      | Return res => mret res
      | Next proposedCommitMap =>
          '(ps, err) ← calculateStatus ps proposedCommitMap;
          match err with
          | Some err => mret (Result.zero, Some err)
          | None =>
              f ← forRange (specEnvironments ps) tt (Reconcile_body ps proposedCommitMap);
              match f with
              | Return res => mret res
              | Next _ =>
                  u ← r_Status_Update ps;
                  match u with
                  | Err err => mret (Result.zero, Some err)
                  | Ok _ => mret (Result.mk true (10 * Second), None)
                  end
              end
          end
      end
  end.

End WithClient.
End PromotionStrategyReconciler.

(** ** internal/utils: the ScmProvider look-ups *)

Module scmutils.
Section WithClient.
Context {W : Type}.
Context {scmStore : Store W ScmProvider.t} {secretStore : Store W Secret.t}.

(** [obj] is passed for its namespace only. *)
Definition GetScmProviderFromRepositoryReference
           (repositoryRef : Repository.t) (obj : ObjectMeta.t)
  : M W (option ScmProvider.t * option error) :=
  let ref := Repository.ScmProviderRef repositoryRef in
  let namespace :=
    if negb (String.eqb (ScmProviderRef.Namespace ref) "")
    then ScmProviderRef.Namespace ref
    else ObjectMeta.Namespace obj in
  let objectKey := ObjectKey.mk namespace (ScmProviderRef.Name ref) in
  g ← r_Get objectKey;
  match g with
  | Err err => mret (None, Some err)
  | Ok scmProvider => mret (Some scmProvider, None)
  end.

Definition GetScmProviderAndSecretFromRepositoryReference
           (repositoryRef : Repository.t) (obj : ObjectMeta.t)
  : M W (option ScmProvider.t * option Secret.t * option error) :=
  '(scmProvider, err) ← GetScmProviderFromRepositoryReference repositoryRef obj;
  match err with
  | Some err => mret (None, None, Some err)
  | None =>
      scmProvider ← orPanic scmProvider;
      let objectKey :=
        ObjectKey.mk (ObjectMeta.Namespace (ScmProvider.Meta scmProvider))
                     (ScmProviderSpec.SecretRefName (ScmProvider.Spec scmProvider)) in
      g ← r_Get objectKey;
      match g with
      | Err err => mret (None, None, Some err)
      | Ok secret => mret (Some scmProvider, Some secret, None)
      end
  end.

End WithClient.
End scmutils.

(** ** internal/controller: the PullRequest reconciler *)

Module PullRequestReconciler.

Definition finalizerName : string := "pullrequest.promoter.argoporoj.io/finalizer".

(** [controllerutil.ContainsFinalizer], [AddFinalizer], [RemoveFinalizer] *)
Definition ContainsFinalizer (pr : PullRequest.t) (name : string) : bool :=
  existsb (String.eqb name) (ObjectMeta.Finalizers (PullRequest.Meta pr)).

Definition AddFinalizer (pr : PullRequest.t) (name : string) : PullRequest.t :=
  if ContainsFinalizer pr name then pr
  else setPullRequestMeta
         (setFinalizers (ObjectMeta.Finalizers (PullRequest.Meta pr) ++ [name])
                        (PullRequest.Meta pr)) pr.

Definition RemoveFinalizer (pr : PullRequest.t) (name : string) : PullRequest.t :=
  setPullRequestMeta
    (setFinalizers (List.filter (fun f => negb (String.eqb f name))
                                (ObjectMeta.Finalizers (PullRequest.Meta pr)))
                   (PullRequest.Meta pr)) pr.

(** [pr.ObjectMeta.DeletionTimestamp.IsZero()]: a nil pointer is zero; so
    is the zero instant. *)
Definition DeletionTimestamp_IsZero (pr : PullRequest.t) : bool :=
  match ObjectMeta.DeletionTimestamp (PullRequest.Meta pr) with
  | None => true
  | Some t => t =? 0
  end.

Definition setStatusState (v : string) (pr : PullRequest.t) : PullRequest.t :=
  let st := PullRequest.Status pr in
  setPullRequestStatus
    (PullRequestStatus.mk (PullRequestStatus.ID st) v
                          (PullRequestStatus.PRCreationTime st)
                          (PullRequestStatus.ObservedGeneration st)) pr.

Definition specState (pr : PullRequest.t) : string :=
  PullRequestSpec.State (PullRequest.Spec pr).
Definition statusState (pr : PullRequest.t) : string :=
  PullRequestStatus.State (PullRequest.Status pr).
Definition observedGeneration (pr : PullRequest.t) : Z :=
  PullRequestStatus.ObservedGeneration (PullRequest.Status pr).
Definition generation (pr : PullRequest.t) : Z :=
  ObjectMeta.Generation (PullRequest.Meta pr).

Section WithClient.
Context {W : Type}.
Context {prStore : Store W PullRequest.t} {scmStore : Store W ScmProvider.t}
        {secretStore : Store W Secret.t} {runtime : Runtime W}.

(** The provider is an interface value: [None] is nil. *)
Definition getPullRequestProvider (pr : PullRequest.t)
  : M W (option (PullRequestProvider W) * option error) :=
  '(scmProvider, secret, err) ←
    scmutils.GetScmProviderAndSecretFromRepositoryReference
      (PullRequestSpec.RepositoryReference (PullRequest.Spec pr)) (PullRequest.Meta pr);
  match err with
  | Some err => mret (None, Some err)
  | None =>
      scmProvider ← orPanic scmProvider;
      match ScmProviderSpec.GitHub (ScmProvider.Spec scmProvider),
            ScmProviderSpec.Fake (ScmProvider.Spec scmProvider) with
      | Some gh, _ =>
          secret ← orPanic secret;
          match NewGithubPullRequestProvider secret (GitHub.Domain gh) with
          | Ok p => mret (Some p, None)
          | Err err => mret (None, Some err)
          end
      | None, Some _ => mret (Some NewFakePullRequestProvider, None)
      | None, None => mret (None, None)
      end
  end.

Definition closePullRequest (pr : PullRequest.t)
           (pullRequestProvider : option (PullRequestProvider W))
  : M W (PullRequest.t * option error) :=
  match pullRequestProvider with
  | None =>
      mret (pr, Some (ErrOther "failed to get pull request provider, pullRequestProvider is nil in closePullRequest"))
  | Some provider =>
      if String.eqb (statusState pr) PullRequestMerged then mret (pr, None)
      else
        err ← call (CProviderClose pr) (ProviderClose provider pr);
        match err with
        | Some err => mret (pr, Some err)
        | None => mret (setStatusState PullRequestClosed pr, None)
        end
  end.

(** The closure of [handleFinalizer]: re-read, add the finalizer, write. *)
Definition addFinalizerClosure (pr : PullRequest.t) : M W (PullRequest.t * option error) :=
  g ← r_Get (objectKeyOf (PullRequest.Meta pr));
  match g with
  | Err err => mret (pr, Some err)
  | Ok pr =>
      let pr := AddFinalizer pr finalizerName in
      u ← r_Update pr;
      match u with
      | Err err => mret (pr, Some err)
      | Ok pr => mret (pr, None)
      end
  end.

(** Returns the (possibly rewritten) [*pr], [deleted] and the error. *)
Definition handleFinalizer (pr : PullRequest.t)
           (pullRequestProvider : option (PullRequestProvider W))
  : M W (PullRequest.t * bool * option error) :=
  if DeletionTimestamp_IsZero pr then
    if negb (ContainsFinalizer pr finalizerName) then
      '(pr, err) ← RetryOnConflict DefaultRetry None pr addFinalizerClosure;
      match err with
      | Some err => mret (pr, false, Some err)
      | None => mret (pr, false, None)
      end
    else mret (pr, false, None)
  else
    if ContainsFinalizer pr finalizerName then
      '(pr, err) ← closePullRequest pr pullRequestProvider;
      match err with
      | Some err => mret (pr, false, Some err)
      | None =>
          let pr := RemoveFinalizer pr finalizerName in
          u ← r_Update pr;
          match u with
          | Err err => mret (pr, true, Some err)
          | Ok pr => mret (pr, true, None)
          end
      end
    else mret (pr, false, None).

Definition createPullRequest (pr : PullRequest.t) (provider : PullRequestProvider W)
  : M W (PullRequest.t * option error) :=
  let sp := PullRequest.Spec pr in
  '(id, err) ← call (CProviderCreate (PullRequestSpec.Title sp) (PullRequestSpec.SourceBranch sp)
                                     (PullRequestSpec.TargetBranch sp)
                                     (PullRequestSpec.Description sp) pr)
                    (ProviderCreate provider (PullRequestSpec.Title sp)
                                    (PullRequestSpec.SourceBranch sp)
                                    (PullRequestSpec.TargetBranch sp)
                                    (PullRequestSpec.Description sp) pr);
  match err with
  | Some err => mret (pr, Some err)
  | None =>
      now ← metav1_Now;
      mret (setPullRequestStatus
              (PullRequestStatus.mk id PullRequestOpen now (observedGeneration pr)) pr,
            None)
  end.

(** [pr] is passed by value. *)
Definition updatePullRequest (pr : PullRequest.t)
           (pullRequestProvider : option (PullRequestProvider W))
  : M W (option error) :=
  match pullRequestProvider with
  | None =>
      mret (Some (ErrOther "failed to get pull request provider, pullRequestProvider is nil in updatePullRequest"))
  | Some provider =>
      let sp := PullRequest.Spec pr in
      err ← call (CProviderUpdate (PullRequestSpec.Title sp) (PullRequestSpec.Description sp) pr)
                 (ProviderUpdate provider (PullRequestSpec.Title sp)
                                 (PullRequestSpec.Description sp) pr);
      Recorder_Event pr "Normal" "PullRequestUpdated"
                     ("Pull Request " +:+ ObjectMeta.Name (PullRequest.Meta pr) +:+ " updated");;
      mret err
  end.

Definition mergePullRequest (pr : PullRequest.t)
           (pullRequestProvider : option (PullRequestProvider W))
  : M W (PullRequest.t * option error) :=
  match pullRequestProvider with
  | None =>
      mret (pr, Some (ErrOther "failed to get pull request provider, pullRequestProvider is nil in mergePullRequest"))
  | Some provider =>
      err ← call (CProviderMerge "" pr) (ProviderMerge provider "" pr);
      match err with
      | Some err => mret (pr, Some err)
      | None => mret (setStatusState PullRequestMerged pr, None)
      end
  end.

(** The part of [Reconcile] after the open pull request has been looked
    up on the provider and the record was not deleted. *)
Definition Reconcile_converge (pr : PullRequest.t) (provider : PullRequestProvider W)
  : M W (Result.t * option error) :=
  if negb (String.eqb (statusState pr) "")
     && String.eqb (specState pr) (statusState pr)
     && (observedGeneration pr =? generation pr)
  then mret (Result.zero, None)
  else
    '(pr, err) ← (if String.eqb (specState pr) PullRequestOpen
                     && negb (String.eqb (statusState pr) PullRequestOpen)
                  then createPullRequest pr provider
                  else mret (pr, None));
    match err with
    | Some err => mret (Result.zero, Some err)
    | None =>
        if String.eqb (specState pr) PullRequestMerged
           && negb (String.eqb (statusState pr) PullRequestMerged)
        then
          '(pr, err) ← mergePullRequest pr (Some provider);
          match err with
          | Some err => mret (Result.zero, Some err)
          | None =>
              u ← r_Status_Update pr;
              match u with
              | Err err => mret (Result.zero, Some err)
              | Ok _ => mret (Result.mk true 0, None)
              end
          end
        else if String.eqb (specState pr) PullRequestClosed
                && negb (String.eqb (statusState pr) PullRequestClosed)
        then
          '(pr, err) ← closePullRequest pr (Some provider);
          match err with
          | Some err => mret (Result.zero, Some err)
          | None =>
              u ← r_Status_Update pr;
              match u with
              | Err err => mret (Result.zero, Some err)
              | Ok _ => mret (Result.mk true 0, None)
              end
          end
        else
          err ← (if negb (observedGeneration pr =? generation pr)
                 then updatePullRequest pr (Some provider)
                 else mret None);
          match err with
          | Some err => mret (Result.zero, Some err)
          | None =>
              let st := PullRequest.Status pr in
              let pr := setPullRequestStatus
                          (PullRequestStatus.mk (PullRequestStatus.ID st)
                                                (PullRequestStatus.State st)
                                                (PullRequestStatus.PRCreationTime st)
                                                (generation pr)) pr in
              u ← r_Status_Update pr;
              match u with
              | Err err => mret (Result.zero, Some err)
              | Ok _ => mret (Result.zero, None)
              end
          end
    end.

(** The part of [Reconcile] from [FindOpen] on. *)
Definition Reconcile_observe (pr : PullRequest.t) (provider : PullRequestProvider W)
  : M W (Result.t * option error) :=
  '(found, err) ← call (CFindOpen pr) (FindOpen provider pr);
  match err with
  | Some err => mret (Result.zero, Some err)
  | None =>
      if negb found && negb (String.eqb (statusState pr) "") then
        err ← r_Delete pr;
        match err with
        | Some err =>
            if IsNotFound err then mret (Result.zero, None)
            else mret (Result.zero, Some err)
        | None => mret (Result.zero, None)
        end
      else Reconcile_converge pr provider
  end.

Definition Reconcile (req : ObjectKey.t) : M W (Result.t * option error) :=
  g ← r_Get req;
  match g with
  | Err err =>
      if IsNotFound err then mret (Result.zero, None)
      else mret (Result.zero, Some err)
  | Ok pr =>
      '(pullRequestProvider, err) ← getPullRequestProvider pr;
      match err with
      | Some err => mret (Result.zero, Some err)
      | None =>
          match pullRequestProvider with
          | None =>
              mret (Result.zero,
                    Some (ErrOther "failed to get pull request provider, pullRequestProvider is nil"))
          | Some provider =>
              '(pr, deleted, err) ← handleFinalizer pr (Some provider);
              match err with
              | Some err => mret (Result.zero, Some err)
              | None =>
                  if deleted : bool then mret (Result.zero, None)
                  else Reconcile_observe pr provider
              end
          end
      end
  end.

End WithClient.
End PullRequestReconciler.

(** ** An in-memory world

    A cluster as lists of records, with the behaviour of the store reduced
    to look-up by namespaced name, selection by labels and by the indexed
    field [.spec.sha], and no failure other than not-found and
    already-exists; a provider that only remembers which pull requests are
    open.  It serves to run the reconcilers on concrete inputs. *)

Module Fake.

Record Cluster := mkCluster {
  promotionStrategies : list PromotionStrategy.t;
  proposedCommits : list ProposedCommit.t;
  commitStatuses : list CommitStatus.t;
  pullRequests : list PullRequest.t;
  scmProviders : list ScmProvider.t;
  secrets : list Secret.t;
  openOnProvider : list ObjectKey.t;
  clock : metav1_Time
}.

Definition keyEqb (a b : ObjectKey.t) : bool :=
  String.eqb (ObjectKey.Namespace a) (ObjectKey.Namespace b)
  && String.eqb (ObjectKey.Name a) (ObjectKey.Name b).

Section Generic.
Context {A : Type} `{Resource A}.
(** The value of an indexed field of [A], if the field is indexed. *)
Variable fieldOf : A -> string -> option string.

Definition hasKey (key : ObjectKey.t) (o : A) : bool :=
  keyEqb key (objectKeyOf (metaOf o)).

Definition selected (opts : ListOptions.t) (o : A) : bool :=
  forallb (fun kv => match ObjectMeta.Labels (metaOf o) with
                     | Some m => bool_decide (m !! kv.1 = Some kv.2)
                     | None => false
                     end)
          (map_to_list (ListOptions.LabelSelector opts))
  && forallb (fun kv => bool_decide (fieldOf o kv.1 = Some kv.2))
             (map_to_list (ListOptions.FieldSelector opts)).

Definition lookupByKey (key : ObjectKey.t) (l : list A) : result A :=
  match List.find (hasKey key) l with
  | Some o => Ok o
  | None => Err ErrNotFound
  end.

Definition selectBy (opts : ListOptions.t) (l : list A) : list A :=
  List.filter (selected opts) l.

Definition insertNew (o : A) (l : list A) : list A * result A :=
  if existsb (hasKey (objectKeyOf (metaOf o))) l
  then (l, Err (ErrOther "already exists"))
  else (l ++ [o], Ok o).

Definition replace (o : A) (l : list A) : list A :=
  List.map (fun x => if hasKey (objectKeyOf (metaOf o)) x then o else x) l.

Definition overwrite (o : A) (l : list A) : list A * result A :=
  if existsb (hasKey (objectKeyOf (metaOf o))) l
  then (replace o l, Ok o)
  else (l, Err ErrNotFound).

Definition remove (o : A) (l : list A) : list A * option error :=
  if existsb (hasKey (objectKeyOf (metaOf o))) l
  then (List.filter (fun x => negb (hasKey (objectKeyOf (metaOf o)) x)) l, None)
  else (l, Some ErrNotFound).
End Generic.

Definition noFields {A} (_ : A) (_ : string) : option string := None.

Definition commitStatusField (cs : CommitStatus.t) (field : string) : option string :=
  if String.eqb field ".spec.sha"
  then Some (CommitStatusSpec.Sha (CommitStatus.Spec cs))
  else None.

Definition setPromotionStrategies l c :=
  mkCluster l (proposedCommits c) (commitStatuses c) (pullRequests c)
            (scmProviders c) (secrets c) (openOnProvider c) (clock c).
Definition setProposedCommits l c :=
  mkCluster (promotionStrategies c) l (commitStatuses c) (pullRequests c)
            (scmProviders c) (secrets c) (openOnProvider c) (clock c).
Definition setCommitStatuses l c :=
  mkCluster (promotionStrategies c) (proposedCommits c) l (pullRequests c)
            (scmProviders c) (secrets c) (openOnProvider c) (clock c).
Definition setPullRequests l c :=
  mkCluster (promotionStrategies c) (proposedCommits c) (commitStatuses c) l
            (scmProviders c) (secrets c) (openOnProvider c) (clock c).
Definition setScmProviders l c :=
  mkCluster (promotionStrategies c) (proposedCommits c) (commitStatuses c) (pullRequests c)
            l (secrets c) (openOnProvider c) (clock c).
Definition setSecrets l c :=
  mkCluster (promotionStrategies c) (proposedCommits c) (commitStatuses c) (pullRequests c)
            (scmProviders c) l (openOnProvider c) (clock c).
Definition setOpenOnProvider l c :=
  mkCluster (promotionStrategies c) (proposedCommits c) (commitStatuses c) (pullRequests c)
            (scmProviders c) (secrets c) l (clock c).

(** The store of one kind, given where its records live in the cluster. *)
Definition storeOf {A} `{Resource A} (fieldOf : A -> string -> option string)
           (proj : Cluster -> list A) (inj : list A -> Cluster -> Cluster)
  : Store Cluster A :=
  {| store_get := fun key c => (c, lookupByKey key (proj c));
     store_list := fun opts c => (c, Ok (selectBy fieldOf opts (proj c)));
     store_create := fun o c => let '(l, r) := insertNew o (proj c) in (inj l c, r);
     store_update := fun o c => let '(l, r) := overwrite o (proj c) in (inj l c, r);
     store_delete := fun o c => let '(l, r) := remove o (proj c) in (inj l c, r);
     store_status_update := fun o c => let '(l, r) := overwrite o (proj c) in (inj l c, r) |}.

#[export] Instance PromotionStrategy_Store : Store Cluster PromotionStrategy.t :=
  storeOf noFields promotionStrategies setPromotionStrategies.
#[export] Instance ProposedCommit_Store : Store Cluster ProposedCommit.t :=
  storeOf noFields proposedCommits setProposedCommits.
#[export] Instance CommitStatus_Store : Store Cluster CommitStatus.t :=
  storeOf commitStatusField commitStatuses setCommitStatuses.
#[export] Instance PullRequest_Store : Store Cluster PullRequest.t :=
  storeOf noFields pullRequests setPullRequests.
#[export] Instance ScmProvider_Store : Store Cluster ScmProvider.t :=
  storeOf noFields scmProviders setScmProviders.
#[export] Instance Secret_Store : Store Cluster Secret.t :=
  storeOf noFields secrets setSecrets.

Definition isOpen (pr : PullRequest.t) (c : Cluster) : bool :=
  existsb (keyEqb (objectKeyOf (PullRequest.Meta pr))) (openOnProvider c).

Definition closeOnProvider (pr : PullRequest.t) (c : Cluster) : Cluster :=
  setOpenOnProvider
    (List.filter (fun k => negb (keyEqb (objectKeyOf (PullRequest.Meta pr)) k))
                 (openOnProvider c)) c.

Definition provider : PullRequestProvider Cluster :=
  {| FindOpen := fun pr c => (c, (isOpen pr c, None));
     ProviderCreate := fun _ _ _ _ pr c =>
       (setOpenOnProvider (openOnProvider c ++ [objectKeyOf (PullRequest.Meta pr)]) c,
        ("1", None));
     ProviderUpdate := fun _ _ _ c => (c, None);
     ProviderMerge := fun _ pr c => (closeOnProvider pr c, None);
     ProviderClose := fun pr c => (closeOnProvider pr c, None) |}.

#[export] Instance runtime : Runtime Cluster :=
  {| rt_randIntn := fun _ c => (c, 0);
     rt_sleep := fun _ c => c;
     rt_now := fun c => (c, clock c);
     NewGithubPullRequestProvider := fun _ _ => Ok provider;
     NewFakePullRequestProvider := provider |}.

Definition start (c : Cluster) : St.t Cluster := St.mk c [].

End Fake.

(** * Vocabulary of the properties *)

(** ** The name sanitizer, as the specification words it

    "Replace every run of non-alphanumeric characters with -, lowercase,
    compute a 32-bit FNV-1a hash of the sanitized value, strip a trailing -,
    append -<hex hash>, and truncate the whole to 255 − len(hash) − 1
    characters."  Stated independently of the Go text: runs are replaced
    in two passes (every character outside the class becomes a hyphen, then
    repeated hyphens are squeezed), the trailing hyphen is stripped by
    structural recursion, truncation is the prefix of the given length, the
    hash is a fold over the bytes and its rendering is positional notation
    by division. *)

Module Spec.
Import GoString.

Definition toHyphen (c : ascii) : ascii := if isAlnum c then c else hyphen.

Fixpoint mapChars (f : ascii -> ascii) (s : string) : string :=
  match s with
  | EmptyString => EmptyString
  | String c t => String (f c) (mapChars f t)
  end.

Fixpoint squeeze (afterHyphen : bool) (s : string) : string :=
  match s with
  | EmptyString => EmptyString
  | String c t =>
      if Ascii.eqb c hyphen
      then if afterHyphen then squeeze true t else String c (squeeze true t)
      else String c (squeeze false t)
  end.

Definition sanitize (s : string) : string := squeeze false (mapChars toHyphen s).

(** Lower-casing of one character, by its place in the alphabet. *)
Definition lowerChar (c : ascii) : ascii :=
  if Ascii.leb "A" c && Ascii.leb c "Z"
  then ascii_of_nat (nat_of_ascii c + 32)
  else c.

Definition lowercase (s : string) : string := mapChars lowerChar s.

(** FNV-1a, 32 bits: start from the offset basis; for every byte, xor it
    in, then multiply by the prime modulo 2^32. *)
Definition fnv1a32 (s : string) : N :=
  fold_left (fun h b => (N.lxor h b * 16777619) mod 4294967296)%N
            (N_of_ascii <$> list_ascii_of_string s) 2166136261%N.

Definition hexDigitOf (d : N) : ascii :=
  nth (N.to_nat d) (list_ascii_of_string "0123456789abcdef") "0"%char.

(** Positional notation in base 16, most significant digit first and
    without leading zeros: a number below 16 is its digit, a larger one is
    the notation of its quotient by 16 followed by the digit of the
    remainder.  [digits] bounds the length. *)
Fixpoint hex (digits : nat) (v : N) : string :=
  match digits with
  | O => EmptyString
  | S digits' =>
      if (v <? 16)%N then String (hexDigitOf v) EmptyString
      else hex digits' (v / 16)%N +:+ String (hexDigitOf (v mod 16)%N) EmptyString
  end.

(** The number a string of lower-case hexadecimal digits denotes. *)
Definition hexDigitValue (c : ascii) : N :=
  let n := N_of_ascii c in
  if (n <? 58)%N then (n - 48)%N else (n - 87)%N.

Fixpoint hexValueFrom (acc : N) (s : string) : N :=
  match s with
  | EmptyString => acc
  | String c t => hexValueFrom (16 * acc + hexDigitValue c)%N t
  end.

Definition hexValue (s : string) : N := hexValueFrom 0 s.

Fixpoint stripTrailingHyphen (s : string) : string :=
  match s with
  | EmptyString => EmptyString
  | String c EmptyString => if Ascii.eqb c hyphen then EmptyString else s
  | String c t => String c (stripTrailingHyphen t)
  end.

Definition truncate (n : nat) (s : string) : string := substring 0 n s.

Definition kubeSafeUniqueName (s : string) : string :=
  let sanitized := lowercase (sanitize s) in
  let hash := hex 8 (fnv1a32 sanitized) in
  truncate (255 - String.length hash - 1)
           (stripTrailingHyphen sanitized +:+ "-" +:+ hash).
End Spec.

(** ** Predicates on strings *)

(** The character class [A-Za-z0-9._-] of label values. *)
Definition isLabelChar (c : ascii) : bool :=
  GoString.isAlnum c || Ascii.eqb c "."%char || Ascii.eqb c "_"%char
  || Ascii.eqb c GoString.hyphen.

Fixpoint allChars (p : ascii -> bool) (s : string) : bool :=
  match s with
  | EmptyString => true
  | String c t => p c && allChars p t
  end.

(** Alphanumerics and isolated hyphens only; [afterHyphen] tells that the
    character before the string is a hyphen. *)
Fixpoint hyphenated (afterHyphen : bool) (s : string) : bool :=
  match s with
  | EmptyString => true
  | String c t =>
      if GoString.isAlnum c then hyphenated false t
      else Ascii.eqb c GoString.hyphen && negb afterHyphen && hyphenated true t
  end.

Fixpoint lastChar (s : string) : option ascii :=
  match s with
  | EmptyString => None
  | String c EmptyString => Some c
  | String _ t => lastChar t
  end.

(** ** Predicates on strategies *)

Definition branches (ps : PromotionStrategy.t) : list string :=
  EnvironmentStatus.Branch <$> statusEnvironments ps.

(** The active sides of the status entries, in order. *)
Definition actives (ps : PromotionStrategy.t) : list PromotionStrategyBranchStateStatus.t :=
  EnvironmentStatus.Active <$> statusEnvironments ps.

(** Same spec, same branches in the status, position by position. *)
Definition sameFrame (ps ps' : PromotionStrategy.t) : Prop :=
  PromotionStrategy.Spec ps' = PromotionStrategy.Spec ps /\ branches ps' = branches ps.

(** Every environment of the spec has an entry in the status. *)
Definition covered (ps : PromotionStrategy.t) : Prop :=
  forall e, e ∈ specEnvironments ps ->
            exists s, s ∈ statusEnvironments ps
                      /\ EnvironmentStatus.Branch s = Environment.Branch e.

(** The status entries the ordered look-up lists for one spec environment. *)
Definition blockOf (status : list EnvironmentStatus.t) (e : Environment.t)
  : list EnvironmentStatus.t :=
  filter (fun s => Environment.Branch e = EnvironmentStatus.Branch s) status.

(** What a loop of [calculateStatus] leaves behind: on [Next] the frame of
    the strategy is kept, a [Return] carries an error. *)
Definition keepsFrame {S} (ps : PromotionStrategy.t) (proj : S -> PromotionStrategy.t)
           (f : flow S (PromotionStrategy.t * option error)) : Prop :=
  match f with
  | Next s => sameFrame ps (proj s)
  | Return r => r.2 <> None
  end.

(** After the body of [calculateStatus] for [environment]: the spec is
    untouched, no branch left the status, and the branch of [environment]
    is in it. *)
Definition bodyPost (ps : PromotionStrategy.t) (environment : Environment.t)
           (f : flow PromotionStrategy.t (PromotionStrategy.t * option error)) : Prop :=
  match f with
  | Next ps' =>
      PromotionStrategy.Spec ps' = PromotionStrategy.Spec ps
      /\ (forall b, b ∈ branches ps -> b ∈ branches ps')
      /\ Environment.Branch environment ∈ branches ps'
  | Return r => r.2 <> None
  end.

(** The meaning of [activeChecksPassed] returning true. *)
Definition activeGate (pcMap : gmap string ProposedCommit.t) (branch : string)
           (previous current : option EnvironmentStatus.t) : Prop :=
  exists prev cur pc,
    previous = Some prev /\ current = Some cur /\ pcMap !! branch = Some pc
    /\ PromotionStrategyReconciler.activeState prev = "success"
    /\ ProposedCommitShaState.Sha (PromotionStrategyReconciler.activeDry prev)
       = PromotionStrategyReconciler.proposedDrySha pc
    /\ ProposedCommitShaState.CommitTime (PromotionStrategyReconciler.activeDry cur)
       < ProposedCommitShaState.CommitTime (PromotionStrategyReconciler.activeDry prev).

(** ** Predicates on computations and their calls *)

(** A write of the spec of a PullRequest. *)
Definition isPullRequestUpdate (c : Call) : bool :=
  match c with
  | CUpdate (OPullRequest _) => true
  | _ => false
  end.

Definition notPullRequestUpdate (c : Call) : Prop := isPullRequestUpdate c = false.

(** A call that, if it writes the spec of a PullRequest, writes it with
    the desired state merged. *)
Definition updatesToMerged (c : Call) : Prop :=
  forall pr, c = CUpdate (OPullRequest pr) ->
             PullRequestSpec.State (PullRequest.Spec pr) = PullRequestMerged.

Section Assertions.
Context {W : Type}.

(** [m] can only end normally with a value satisfying [Q]. *)
Definition post {A} (Q : A -> Prop) (m : M W A) : Prop :=
  forall st st' a, m st = (st', Val a) -> Q a.

(** [m] only appends calls to the trace, and each of them satisfies [P]. *)
Definition emits {A} (P : Call -> Prop) (m : M W A) : Prop :=
  forall st st' r, m st = (st', r) ->
                   exists new, St.calls st' = St.calls st ++ new /\ Forall P new.
End Assertions.

(** ** The gate as the testable-properties section words it *)

Section OwnStatus.
Context {W : Type}.
Context {psStore : Store W PromotionStrategy.t} {pcStore : Store W ProposedCommit.t}
        {csStore : Store W CommitStatus.t} {prStore : Store W PullRequest.t}
        {runtime : Runtime W}.

(** "For every non-first environment e, if status[e].active.commitStatus.state
    ≠ success then the PR for e is never transitioned from desired open to
    desired merged": an iteration of the merge loop for an environment
    that has [previous] before it writes no PullRequest as long as no
    status entry of the environment itself has the active state
    "success". *)
Definition ownStatusGatesMerge : Prop :=
  forall (ps0 ps : PromotionStrategy.t) (pcMap : gmap string ProposedCommit.t)
         (st0 st1 st st' : St.t W) (pre post_ : list Environment.t)
         (previous environment : Environment.t)
         (out : run (flow unit (Result.t * option error))) (new : list Call),
    PromotionStrategyReconciler.calculateStatus ps0 pcMap st0 = (st1, Val (ps, None)) ->
    specEnvironments ps0 = pre ++ previous :: environment :: post_ ->
    Forall (fun e => Environment.Branch e <> Environment.Branch environment)
           (pre ++ [previous]) ->
    PromotionStrategyReconciler.Reconcile_body ps pcMap tt environment st = (st', out) ->
    St.calls st' = St.calls st ++ new ->
    (forall cur, cur ∈ statusEnvironments ps ->
                 EnvironmentStatus.Branch cur = Environment.Branch environment ->
                 PromotionStrategyReconciler.activeState cur <> "success") ->
    Forall notPullRequestUpdate new.

(** "A PR is never flipped to merged unless the prior environment (if
    any) has observed a success active rollup on the same dry SHA", for
    every environment that has a previous one by spec order: whenever an
    iteration of the merge loop for an environment that has [previous]
    right before it in the spec writes a PullRequest, a status entry of
    [previous] has the active state "success" and, as active dry SHA, the
    proposed dry SHA of the environment. *)
Definition previousGatesMerge : Prop :=
  forall (ps0 ps : PromotionStrategy.t) (pcMap : gmap string ProposedCommit.t)
         (st0 st1 st st' : St.t W) (pre post_ : list Environment.t)
         (previous environment : Environment.t)
         (out : run (flow unit (Result.t * option error))) (new : list Call)
         (pr : PullRequest.t),
    PromotionStrategyReconciler.calculateStatus ps0 pcMap st0 = (st1, Val (ps, None)) ->
    specEnvironments ps0 = pre ++ previous :: environment :: post_ ->
    PromotionStrategyReconciler.Reconcile_body ps pcMap tt environment st = (st', out) ->
    St.calls st' = St.calls st ++ new ->
    In (CUpdate (OPullRequest pr)) new ->
    exists prev pc,
      prev ∈ statusEnvironments ps
      /\ EnvironmentStatus.Branch prev = Environment.Branch previous
      /\ pcMap !! Environment.Branch environment = Some pc
      /\ PromotionStrategyReconciler.activeState prev = "success"
      /\ ProposedCommitShaState.Sha (PromotionStrategyReconciler.activeDry prev)
         = PromotionStrategyReconciler.proposedDrySha pc.
End OwnStatus.

(** ** Further predicates on strings *)

(** A byte below 0x80: a rune of one byte. *)
Definition isAscii (c : ascii) : bool := (N_of_ascii c <? 128)%N.

(** The alphabet of DNS names: [a-z0-9-]. *)
Definition isNameChar (c : ascii) : bool :=
  GoString.isLower c || GoString.isDigit c || Ascii.eqb c GoString.hyphen.

(** The shape of a label: alphanumerics and isolated hyphens, at most 63
    of them, the first one not a hyphen. *)
Definition labelShaped (l : string) : Prop :=
  hyphenated false l = true /\ (String.length l <= 63)%nat
  /\ GoString.index l 0 <> Some GoString.hyphen.

(** ** Further predicates on strategies *)

(** The updates [calculateStatus] applies to a status entry: one of the
    two rolled-up commit statuses, or the list of healthy dry SHAs. *)
Definition rollupSetter (f : EnvironmentStatus.t -> EnvironmentStatus.t) : Prop :=
  (exists g, f = withActive g) \/ (exists g, f = withProposed g)
  \/ (exists l, f = withLastHealthyDryShas l).

(** What a status entry says about commits, the rolled-up commit
    statuses and the healthy dry SHAs left aside. *)
Definition commitsOf (e : EnvironmentStatus.t)
  : string * (ProposedCommitShaState.t * ProposedCommitShaState.t)
    * (ProposedCommitShaState.t * ProposedCommitShaState.t) :=
  (EnvironmentStatus.Branch e,
   (PromotionStrategyBranchStateStatus.Dry (EnvironmentStatus.Active e),
    PromotionStrategyBranchStateStatus.Hydrated (EnvironmentStatus.Active e)),
   (PromotionStrategyBranchStateStatus.Dry (EnvironmentStatus.Proposed e),
    PromotionStrategyBranchStateStatus.Hydrated (EnvironmentStatus.Proposed e))).

(** The branches of the status after the upsert of an entry for [b]. *)
Definition addBranch (acc : list string) (b : string) : list string :=
  if decide (b ∈ acc) then acc else acc ++ [b].

(** ** Further predicates on calls *)

(** A list of CommitStatuses by check key and indexed SHA. *)
Definition listsCommitStatuses (c : Call) : Prop :=
  exists key sha,
    c = CList KCommitStatus
              (ListOptions.mk {[ PromotionStrategyReconciler.label_commit_status := key ]}
                              {[ ".spec.sha" := sha ]}).

(** A CommitStatus that carries the copy mark (the filter [notCopy] of
    [calculateStatus] rejects it) and reports on commit [to]. *)
Definition isCopyTo (to : string) (cs : CommitStatus.t) : Prop :=
  PromotionStrategyReconciler.notCopy cs = false
  /\ CommitStatusSpec.Sha (CommitStatus.Spec cs) = to.

(** The calls of [copyCommitStatuses]: reads of CommitStatuses, and
    writes of copies for [to]. *)
Definition copiesOnly (to : string) (c : Call) : Prop :=
  match c with
  | CGet k _ | CList k _ => k = KCommitStatus
  | CCreate (OCommitStatus cs) | CUpdate (OCommitStatus cs) => isCopyTo to cs
  | _ => False
  end.

(** The calls of the PromotionStrategy reconciler. *)
Definition strategyCall (c : Call) : Prop :=
  match c with
  | CGet k _ =>
      k = KPromotionStrategy \/ k = KProposedCommit \/ k = KCommitStatus \/ k = KPullRequest
  | CList k _ => k = KCommitStatus \/ k = KPullRequest
  | CCreate (OProposedCommit _) | CCreate (OCommitStatus _) => True
  | CUpdate (OCommitStatus _) => True
  | CUpdate (OPullRequest pr) =>
      PullRequestSpec.State (PullRequest.Spec pr) = PullRequestMerged
  | CStatusUpdate (OPromotionStrategy _) => True
  | CRandIntn n => n = 1000
  | CSleep _ => True
  | _ => False
  end.

(** A call that does not concern PullRequests. *)
Definition notPullRequestCall (c : Call) : Prop :=
  match c with
  | CGet KPullRequest _ | CList KPullRequest _ => False
  | CCreate (OPullRequest _) | CUpdate (OPullRequest _) | CDelete (OPullRequest _)
  | CStatusUpdate (OPullRequest _) => False
  | _ => True
  end.

(** The selector with which [Reconcile] lists the PullRequests of an
    environment. *)
Definition pullRequestSelector (strategy proposedCommit environment : string) : ListOptions.t :=
  ListOptions.mk
    (<[PromotionStrategyReconciler.label_promotion_strategy := strategy]>
       (<[PromotionStrategyReconciler.label_proposed_commit := proposedCommit]>
          (<[PromotionStrategyReconciler.label_environment := environment]> ∅)))
    ∅.

(** The calls of the PullRequest reconciler, each with the condition on
    the record under which it is made. *)
Definition justified (c : Call) : Prop :=
  match c with
  | CProviderCreate _ _ _ _ pr =>
      PullRequestReconciler.specState pr = PullRequestOpen
      /\ PullRequestReconciler.statusState pr <> PullRequestOpen
  | CProviderMerge _ pr =>
      PullRequestReconciler.specState pr = PullRequestMerged
      /\ PullRequestReconciler.statusState pr <> PullRequestMerged
  | CProviderClose pr =>
      PullRequestReconciler.statusState pr <> PullRequestMerged
      /\ ((PullRequestReconciler.specState pr = PullRequestClosed
           /\ PullRequestReconciler.statusState pr <> PullRequestClosed)
          \/ (PullRequestReconciler.DeletionTimestamp_IsZero pr = false
              /\ PullRequestReconciler.ContainsFinalizer
                   pr PullRequestReconciler.finalizerName = true))
  | CProviderUpdate _ _ pr =>
      PullRequestReconciler.observedGeneration pr <> PullRequestReconciler.generation pr
  | CDelete (OPullRequest pr) => PullRequestReconciler.statusState pr <> ""
  | CUpdate (OPullRequest _) | CStatusUpdate (OPullRequest _) => True
  | CGet k _ => k = KPullRequest \/ k = KScmProvider \/ k = KSecret
  | CFindOpen _ | CEvent _ _ _ _ | CNow => True
  | _ => False
  end.

(** * Concrete inputs

    Clusters of the in-memory world on which the reconcilers are run. *)

Module Scenario.
Import Fake.

Definition objectMeta (name : string) (labels : list (string * string)) : ObjectMeta.t :=
  ObjectMeta.mk name "default" (Some (list_to_map labels)) None 1 None [] [].

Definition repository : Repository.t :=
  Repository.mk "acme" "deploy" (ScmProviderRef.mk "scm" "").

Definition selectors (keys : list string) : list CommitStatusSelector.t :=
  CommitStatusSelector.mk <$> keys.

Definition environment (branch : string) (active proposed : list string) : Environment.t :=
  Environment.mk branch None (selectors active) (selectors proposed).

(** A strategy named "demo" with an empty status. *)
Definition strategy (environments : list Environment.t) : PromotionStrategy.t :=
  PromotionStrategy.mk (objectMeta "demo" [])
                       (PromotionStrategySpec.mk repository [] [] environments)
                       (PromotionStrategyStatus.mk []).

Definition proposedCommitName (branch : string) : string :=
  default "" (utils.KubeSafeUniqueName ("demo-" +:+ branch)).

Definition safeLabel (s : string) : string := default "" (utils.KubeSafeLabel s).

Definition shaState (sha : string) (time : Z) := ProposedCommitShaState.mk sha time.

(** The ProposedCommit of [branch], all four SHAs resolved. *)
Definition proposedCommit (branch : string) (activeDry activeHydrated : string) (activeTime : Z)
           (proposedDry proposedHydrated : string) (proposedTime : Z) : ProposedCommit.t :=
  ProposedCommit.mk
    (objectMeta (proposedCommitName branch) [])
    (ProposedCommitSpec.mk repository (branch +:+ "-next") branch)
    (ProposedCommitStatus.mk
       (ProposedCommitBranchState.mk (shaState activeDry activeTime)
                                     (shaState activeHydrated activeTime))
       (ProposedCommitBranchState.mk (shaState proposedDry proposedTime)
                                     (shaState proposedHydrated proposedTime))).

(** A CommitStatus record for check [key] on commit [sha]. *)
Definition commitStatus (name key sha state : string) : CommitStatus.t :=
  CommitStatus.mk
    (objectMeta name [(PromotionStrategyReconciler.label_commit_status, key)])
    (CommitStatusSpec.mk repository sha name "" state "")
    (CommitStatusStatus.mk 1 "" sha state).

(** The PullRequest of [branch], carrying the three labels the strategy
    reconciler selects on. *)
Definition pullRequest (branch : string) (finalizers : list string)
           (specState statusState : string) : PullRequest.t :=
  PullRequest.mk
    (ObjectMeta.mk ("pr-" +:+ safeLabel branch) "default"
       (Some (list_to_map
                [(PromotionStrategyReconciler.label_promotion_strategy, "demo");
                 (PromotionStrategyReconciler.label_proposed_commit,
                  safeLabel (proposedCommitName branch));
                 (PromotionStrategyReconciler.label_environment, safeLabel branch)]))
       None 1 None finalizers [])
    (PullRequestSpec.mk repository "Promote" branch (branch +:+ "-next") "" specState)
    (PullRequestStatus.mk "1" statusState 0 1).

Definition cluster (ps : PromotionStrategy.t) (pcs : list ProposedCommit.t)
           (css : list CommitStatus.t) (prs : list PullRequest.t) : Cluster :=
  mkCluster [ps] pcs css prs
            [ScmProvider.mk (objectMeta "scm" []) (ScmProviderSpec.mk "scm-secret" None (Some tt))]
            [Secret.mk (objectMeta "scm-secret" []) ∅]
            [] 0.

Definition reconciler : PromotionStrategyReconciler.t :=
  PromotionStrategyReconciler.mk
    (PromotionStrategyReconcilerConfig.mk main.promotionStrategyRequeue_default).

Definition request : ObjectKey.t := ObjectKey.mk "default" "demo".

Definition proposedCommitMap (pcs : list ProposedCommit.t) : gmap string ProposedCommit.t :=
  list_to_map ((fun pc => (ProposedCommitSpec.ActiveBranch (ProposedCommit.Spec pc), pc)) <$> pcs).

(** The strategy and the error [calculateStatus] returns from [c]. *)
Definition calculated (ps : PromotionStrategy.t) (pcs : list ProposedCommit.t) (c : Cluster)
  : St.t Cluster * run (PromotionStrategy.t * option error) :=
  PromotionStrategyReconciler.calculateStatus ps (proposedCommitMap pcs) (start c).

Definition valueOr {A} (d : A) (r : run A) : A :=
  match r with
  | Val a => a
  | _ => d
  end.

(** The status [calculateStatus] computes for strategy [ps] in [c]. *)
Definition statusAfter (ps : PromotionStrategy.t) (pcs : list ProposedCommit.t) (c : Cluster)
  : list EnvironmentStatus.t :=
  statusEnvironments (valueOr (ps, None) (calculated ps pcs c).2).1.

(** What the store lists for check [key] on commit [sha]. *)
Definition listed (key sha : string) (c : Cluster) : list CommitStatus.t :=
  selectBy commitStatusField
           (ListOptions.mk {[ PromotionStrategyReconciler.label_commit_status := key ]}
                           {[ ".spec.sha" := sha ]})
           (commitStatuses c).

Definition commitStatusName (cs : CommitStatus.t) : string :=
  ObjectMeta.Name (CommitStatus.Meta cs).

Definition commitStatusOf (side : EnvironmentStatus.t -> PromotionStrategyBranchStateStatus.t)
           (e : EnvironmentStatus.t) : string * string :=
  let c := PromotionStrategyBranchStateStatus.CommitStatus (side e) in
  (PromotionStrategyCommitStatus.State c, PromotionStrategyCommitStatus.Sha c).

(** ** One environment, no checks at all *)
Module NoChecks.
Definition dev := environment "env/dev" [] [].
Definition ps := strategy [dev].
Definition pcs := [proposedCommit "env/dev" "D1" "H1" 10 "D2" "H2" 20].
Definition world := cluster ps pcs [] [].
End NoChecks.

(** ** One environment, one active check without any record *)
Module NoMatch.
Definition dev := environment "env/dev" ["health"] [].
Definition ps := strategy [dev].
Definition pcs := [proposedCommit "env/dev" "D1" "H1" 10 "D2" "H2" 20].
Definition world := cluster ps pcs [] [].
End NoMatch.

(** ** One environment, one proposed check that is pending *)
Module ProposedPending.
Definition dev := environment "env/dev" [] ["security-scan"].
Definition ps := strategy [dev].
Definition pcs := [proposedCommit "env/dev" "D1" "H1" 10 "D2" "H2" 20].
Definition scan := commitStatus "scan" "security-scan" "H2" "pending".
Definition world := cluster ps pcs [scan] [].
End ProposedPending.

(** ** One environment, a failing active check and a passing proposed one *)
Module ActiveFailing.
Definition dev := environment "env/dev" ["health"] ["security-scan"].
Definition ps := strategy [dev].
Definition pcs := [proposedCommit "env/dev" "D1" "H1" 10 "D2" "H2" 20].
Definition health := commitStatus "health" "health" "H1" "failure".
Definition scan := commitStatus "scan" "security-scan" "H2" "success".
Definition world := cluster ps pcs [health; scan] [].
End ActiveFailing.

(** ** Two statuses of one key to copy forward *)
Module TwoToCopy.
Definition first := commitStatus "health-a" "health" "H1" "success".
Definition second := commitStatus "health-b" "health" "H1" "success".
Definition world := cluster (strategy []) [] [first; second] [].
Definition run :=
  PromotionStrategyReconciler.copyCommitStatuses (selectors ["health"]) "H1" "H9" "env/dev"
                                                 (start world).
End TwoToCopy.

(** ** Two environments; [health] is the state of the active check of dev,
    the active check of test is pending *)
Module Pipeline.
Definition dev := environment "env/dev" ["health"] [].
Definition test := environment "env/test" ["performance"] [].
Definition ps := strategy [dev; test].
Definition pcs :=
  [proposedCommit "env/dev" "D2" "H2" 20 "D3" "H3" 30;
   proposedCommit "env/test" "D1" "G1" 10 "D2" "G2" 20].
Definition pr := pullRequest "env/test" [] PullRequestOpen PullRequestOpen.
Definition world (health : string) :=
  cluster ps pcs
          [commitStatus "dev-health" "health" "H2" health;
           commitStatus "test-performance" "performance" "G1" "pending"]
          [pr].
Definition afterStatus (health : string) := calculated ps pcs (world health).
Definition calculatedStrategy (health : string) : PromotionStrategy.t :=
  (valueOr (ps, None) (afterStatus health).2).1.
Definition iteration (health : string) :=
  PromotionStrategyReconciler.Reconcile_body (calculatedStrategy health) (proposedCommitMap pcs)
                                             tt test (afterStatus health).1.
(** The calls of that iteration alone. *)
Definition iterationCalls (health : string) : list Call :=
  drop (length (St.calls (afterStatus health).1)) (St.calls (iteration health).1).
Definition merged : PullRequest.t := setPullRequestSpecState PullRequestMerged pr.
End Pipeline.

(** ** Three environments, the third on the branch of the first; the
    active check of test has failed *)
Module Repeated.
Definition dev := environment "env/dev" ["health"] [].
Definition test := environment "env/test" ["performance"] [].
Definition ps := strategy [dev; test; dev].
Definition pcs :=
  [proposedCommit "env/dev" "D2" "H2" 20 "D3" "H3" 30;
   proposedCommit "env/test" "D1" "G1" 10 "D2" "G2" 20].
Definition pr := pullRequest "env/dev" [] PullRequestOpen PullRequestOpen.
Definition world :=
  cluster ps pcs
          [commitStatus "dev-health" "health" "H2" "success";
           commitStatus "test-performance" "performance" "G1" "failure"]
          [pr].
Definition afterStatus := calculated ps pcs world.
Definition calculatedStrategy : PromotionStrategy.t :=
  (valueOr (ps, None) afterStatus.2).1.
(** The iteration of the merge loop for the third environment. *)
Definition iteration :=
  PromotionStrategyReconciler.Reconcile_body calculatedStrategy (proposedCommitMap pcs)
                                             tt dev afterStatus.1.
Definition iterationCalls : list Call :=
  drop (length (St.calls afterStatus.1)) (St.calls iteration.1).
Definition merged : PullRequest.t := setPullRequestSpecState PullRequestMerged pr.
End Repeated.

(** ** A pull request that is gone on the provider *)
Module Vanished.
Definition pr :=
  pullRequest "env/test" [PullRequestReconciler.finalizerName]
              PullRequestOpen PullRequestOpen.
Definition world := cluster (strategy []) [] [] [pr].
Definition request := objectKeyOf (PullRequest.Meta pr).

(** The store of a cluster in which somebody else removes the record
    between the read and the delete: the delete answers not-found. *)
Definition goneOnDelete : Store Cluster PullRequest.t :=
  {| store_get := store_get (Store := PullRequest_Store);
     store_list := store_list (Store := PullRequest_Store);
     store_create := store_create (Store := PullRequest_Store);
     store_update := store_update (Store := PullRequest_Store);
     store_delete := fun o c => (setPullRequests (remove o (pullRequests c)).1 c,
                                 Some ErrNotFound);
     store_status_update := store_status_update (Store := PullRequest_Store) |}.

Definition afterGet := St.mk world [CGet KPullRequest request].
Definition afterProvider :=
  St.mk world [CGet KPullRequest request;
               CGet KScmProvider (ObjectKey.mk "default" "scm");
               CGet KSecret (ObjectKey.mk "default" "scm-secret")].
Definition deleted := setPullRequests [] world.
End Vanished.

(** ** A name of 300 characters *)
Definition longName : string :=
  Eval vm_compute in string_of_list_ascii (List.repeat "a"%char 300).

(** ** A status that is not in spec order and carries a stale entry *)
Module Reordered.
Definition dev := environment "env/dev" [] [].
Definition test := environment "env/test" [] [].
Definition pc := proposedCommit "env/dev" "D1" "H1" 10 "D2" "H2" 20.
Definition entry (branch : string) : EnvironmentStatus.t :=
  PromotionStrategyReconciler.freshStatus (environment branch [] []) pc.
Definition ps : PromotionStrategy.t :=
  setStatusEnvironments [entry "env/test"; entry "env/old"; entry "env/dev"]
                        (strategy [dev; test]).
End Reordered.

(** ** A cluster without any record *)
Module Empty.
Definition world := cluster (strategy []) [] [] [].
Definition key := ObjectKey.mk "default" (proposedCommitName "env/dev").
End Empty.

(** ** The first environment with auto-merge switched off, its check
    passed, its pull request open; [automatic] is the same environment
    with auto-merge on *)
Module Manual.
Definition dev := Environment.mk "env/dev" (Some false) (selectors ["health"]) [].
Definition automatic := Environment.mk "env/dev" (Some true) (selectors ["health"]) [].
Definition ps := strategy [dev].
Definition pc := proposedCommit "env/dev" "D1" "H1" 10 "D2" "H2" 20.
Definition pr := pullRequest "env/dev" [] PullRequestOpen PullRequestOpen.
Definition world := cluster ps [pc] [commitStatus "health" "health" "H1" "success"] [pr].
Definition calculatedStrategy : PromotionStrategy.t :=
  (valueOr (ps, None) (calculated ps [pc] world).2).1.
Definition merged : PullRequest.t := setPullRequestSpecState PullRequestMerged pr.
Definition after := setPullRequests [merged] world.
End Manual.

(** ** The first environment, its checks failing, its pull request open *)
Module FirstPromotion.
Definition dev := environment "env/dev" ["health"] ["security-scan"].
Definition ps := strategy [dev].
Definition pc := proposedCommit "env/dev" "D1" "H1" 10 "D2" "H2" 20.
Definition pr := pullRequest "env/dev" [] PullRequestOpen PullRequestOpen.
Definition world :=
  cluster ps [pc]
          [commitStatus "health" "health" "H1" "failure";
           commitStatus "scan" "security-scan" "H2" "success"]
          [pr].
Definition calculatedStrategy : PromotionStrategy.t :=
  (valueOr (ps, None) (calculated ps [pc] world).2).1.
Definition merged : PullRequest.t := setPullRequestSpecState PullRequestMerged pr.
Definition after := setPullRequests [merged] world.
End FirstPromotion.

(** ** A copy target that somebody created without labels *)
Module Unlabelled.
Definition source := commitStatus "health" "health" "H1" "success".
Definition existing :=
  CommitStatus.mk (ObjectMeta.mk "proposed-health" "default" None None 1 None [] [])
                  (CommitStatus.Spec source) (CommitStatus.Status source).
Definition world := cluster (strategy []) [] [source; existing] [].
Definition key := ObjectKey.mk "default" "proposed-health".
End Unlabelled.

(** ** A pull request that is open on both sides *)
Module Converged.
Definition world := setOpenOnProvider [Vanished.request] Vanished.world.
Definition afterGet := St.mk world (St.calls Vanished.afterGet).
Definition afterProvider := St.mk world (St.calls Vanished.afterProvider).
End Converged.

(** ** A pull request that has just been asked for *)
Module Requested.
Definition pr :=
  PullRequest.mk
    (ObjectMeta.mk "pr-new" "default" None None 1 None
                   [PullRequestReconciler.finalizerName] [])
    (PullRequestSpec.mk repository "Promote" "env/dev" "env/dev-next" "to dev" PullRequestOpen)
    (PullRequestStatus.mk "" "" 0 0).
Definition request := objectKeyOf (PullRequest.Meta pr).
Definition world := cluster (strategy []) [] [] [pr].
Definition afterGet := St.mk world [CGet KPullRequest request].
Definition afterProvider :=
  St.mk world [CGet KPullRequest request;
               CGet KScmProvider (ObjectKey.mk "default" "scm");
               CGet KSecret (ObjectKey.mk "default" "scm-secret")].
Definition opened := setPullRequestStatus (PullRequestStatus.mk "1" PullRequestOpen 0 0) pr.
Definition observed := setPullRequestStatus (PullRequestStatus.mk "1" PullRequestOpen 0 1) pr.
Definition onProvider := setOpenOnProvider [request] world.
Definition after := setPullRequests [observed] onProvider.
End Requested.

(** ** An ScmProvider that names no driver *)
Module NoDriver.
Definition scmProvider :=
  ScmProvider.mk (objectMeta "scm" []) (ScmProviderSpec.mk "scm-secret" None None).
Definition secret := Secret.mk (objectMeta "scm-secret" []) ∅.
Definition world := mkCluster [] [] [] [Vanished.pr] [scmProvider] [secret] [] 0.
Definition afterGet := St.mk world [CGet KPullRequest Vanished.request].
Definition afterProvider :=
  St.mk world [CGet KPullRequest Vanished.request;
               CGet KScmProvider (ObjectKey.mk "default" "scm");
               CGet KSecret (ObjectKey.mk "default" "scm-secret")].
End NoDriver.

(** ** A provider whose update fails *)
Module Broken.
Definition unavailable : error := ErrOther "provider unavailable".
Definition provider : PullRequestProvider Cluster :=
  {| FindOpen := FindOpen Fake.provider;
     ProviderCreate := ProviderCreate Fake.provider;
     ProviderUpdate := fun _ _ _ c => (c, Some unavailable);
     ProviderMerge := ProviderMerge Fake.provider;
     ProviderClose := ProviderClose Fake.provider |}.
End Broken.

(** ** A merged pull request under deletion *)
Module MergedDeleted.
Definition pr :=
  PullRequest.mk
    (ObjectMeta.mk "pr-done" "default" None None 2 (Some 5)
                   [PullRequestReconciler.finalizerName] [])
    (PullRequestSpec.mk repository "Promote" "env/dev" "env/dev-next" "" PullRequestMerged)
    (PullRequestStatus.mk "1" PullRequestMerged 0 2).
Definition world := cluster (strategy []) [] [] [pr].
Definition released := PullRequestReconciler.RemoveFinalizer pr PullRequestReconciler.finalizerName.
Definition after := setPullRequests [released] world.
End MergedDeleted.
End Scenario.

(** * Properties *)

(** ** Strings *)

Section Strings.
Import GoString.

Lemma hyphen_not_alnum : isAlnum hyphen = false.
Proof. reflexivity. Qed.

Lemma alnum_not_hyphen c : isAlnum c = true -> Ascii.eqb c hyphen = false.
Proof.
  intros Hc. destruct (Ascii.eqb_spec c hyphen) as [->|]; [|reflexivity].
  rewrite hyphen_not_alnum in Hc. discriminate.
Qed.

Lemma replaceRuns_squeeze b s :
  replaceRuns b s = Spec.squeeze b (Spec.mapChars Spec.toHyphen s).
Proof.
  revert b. induction s as [|c t IH]; intros b; simpl; [reflexivity|].
  unfold Spec.toHyphen. destruct (isAlnum c) eqn:Hc.
  - rewrite (alnum_not_hyphen _ Hc). now rewrite IH.
  - rewrite Ascii.eqb_refl. destruct b; now rewrite IH.
Qed.

Lemma m1_ReplaceAllString_sanitize s : m1_ReplaceAllString s = Spec.sanitize s.
Proof. apply replaceRuns_squeeze. Qed.

Lemma append_nil_l (b : string) : "" +:+ b = b.
Proof. reflexivity. Qed.

Lemma append_cons c (a b : string) : String c a +:+ b = String c (a +:+ b).
Proof. reflexivity. Qed.

Lemma length_append (a b : string) :
  String.length (a +:+ b) = (String.length a + String.length b)%nat.
Proof.
  induction a as [|c a IH]; [reflexivity|].
  rewrite append_cons. simpl. now rewrite IH.
Qed.

Lemma append_nil_r (a : string) : a +:+ "" = a.
Proof. induction a as [|c a IH]; [reflexivity|]. rewrite append_cons. now rewrite IH. Qed.

Lemma append_assoc (a b c : string) : (a +:+ b) +:+ c = a +:+ (b +:+ c).
Proof.
  induction a as [|x a IH]; [reflexivity|].
  rewrite !append_cons. now rewrite IH.
Qed.

Lemma substring_0_cons n c t : substring 0 (S n) (String c t) = String c (substring 0 n t).
Proof. reflexivity. Qed.

Lemma substring_0_0 s : substring 0 0 s = "".
Proof. destruct s; reflexivity. Qed.

Lemma substring_0_all s n : (String.length s <= n)%nat -> substring 0 n s = s.
Proof.
  revert n. induction s as [|c t IH]; intros n Hn; simpl in *.
  - destruct n; reflexivity.
  - destruct n; [lia|]. f_equal. apply IH. lia.
Qed.

(* TruncateString *)
Lemma TruncateString_loop_prefix str : forall length truncated count,
  0 <= count < length ->
  utils.TruncateString_loop str length truncated count
  = truncated +:+ substring 0 (Z.to_nat (length - count)) str.
Proof.
  induction str as [|c t IH]; intros length truncated count Hc;
    cbn [utils.TruncateString_loop].
  - destruct (Z.to_nat (length - count)); cbn [substring]; now rewrite append_nil_r.
  - destruct (Z.geb_spec (count + 1) length) as [Hge|Hlt].
    + assert (Z.to_nat (length - count) = 1%nat) as -> by lia.
      rewrite substring_0_cons, substring_0_0. reflexivity.
    + rewrite IH by lia.
      replace (Z.to_nat (length - count)) with (S (Z.to_nat (length - (count + 1)))) by lia.
      rewrite substring_0_cons, append_assoc. reflexivity.
Qed.

Lemma TruncateString_prefix str length :
  utils.TruncateString str length = substring 0 (Z.to_nat length) str.
Proof.
  unfold utils.TruncateString. destruct (Z.leb_spec length 0) as [Hle|Hgt].
  - replace (Z.to_nat length) with 0%nat by lia. now rewrite substring_0_0.
  - rewrite TruncateString_loop_prefix by lia. now rewrite append_nil_l, Z.sub_0_r.
Qed.

Lemma get_last c t : String.get (String.length t) (String c t) = lastChar (String c t).
Proof.
  revert c. induction t as [|d t IH]; intros c; [reflexivity|].
  change (String.get (String.length t) (String d t) = lastChar (String d t)).
  apply IH.
Qed.

Lemma len_nonneg s : 0 <= len s.
Proof. unfold len. lia. Qed.

Lemma len_cons c t : len (String c t) = len t + 1.
Proof. unfold len. simpl. lia. Qed.

Lemma index_last s : index s (len s - 1) = lastChar s.
Proof.
  destruct s as [|c t]; [reflexivity|].
  unfold index. rewrite len_cons.
  pose proof (len_nonneg t).
  destruct (Z.ltb_spec (len t + 1 - 1) 0); [lia|].
  destruct (Z.leb_spec (len t + 1) (len t + 1 - 1)); [lia|].
  cbn [orb]. replace (Z.to_nat (len t + 1 - 1)) with (String.length t) by (unfold len; lia).
  apply get_last.
Qed.

Lemma lastChar_Some s : s <> "" -> exists c, lastChar s = Some c.
Proof.
  induction s as [|c t IH]; [congruence|]. intros _.
  destruct t as [|d t]; [now exists c|].
  apply IH. discriminate.
Qed.

Lemma slice_init c t :
  slice (String c t) 0 (len (String c t) - 1) = substring 0 (String.length t) (String c t).
Proof.
  unfold slice. rewrite len_cons. f_equal. unfold len. lia.
Qed.

Lemma strip_last c t :
  (if match lastChar (String c t) with Some l => Ascii.eqb l hyphen | None => false end
   then substring 0 (String.length t) (String c t) else String c t)
  = Spec.stripTrailingHyphen (String c t).
Proof.
  revert c. induction t as [|d t IH]; intros c.
  - cbn. destruct (Ascii.eqb c hyphen); reflexivity.
  - specialize (IH d).
    change (lastChar (String c (String d t))) with (lastChar (String d t)).
    change (Spec.stripTrailingHyphen (String c (String d t)))
      with (String c (Spec.stripTrailingHyphen (String d t))).
    rewrite <- IH.
    destruct (lastChar (String d t)) as [l|]; [|reflexivity].
    destruct (Ascii.eqb l hyphen); reflexivity.
Qed.

Lemma hexLoop_length digits : forall v acc,
  (0 < digits)%nat ->
  (String.length acc + 1 <= String.length (hexLoop digits v acc)
   <= String.length acc + digits)%nat.
Proof.
  induction digits as [|d IH]; intros v acc Hd; [lia|].
  cbn [hexLoop]. destruct (v / 16 =? 0)%N.
  - simpl. lia.
  - destruct d as [|d].
    + simpl. lia.
    + specialize (IH (v / 16)%N (String (hexDigit (v mod 16)) acc) ltac:(lia)).
      cbn [String.length] in IH. lia.
Qed.

Lemma Sprintf_x_length v : (1 <= String.length (Sprintf_x v) <= 8)%nat.
Proof.
  unfold Sprintf_x. pose proof (hexLoop_length 8 v "" ltac:(lia)) as H.
  cbn [String.length] in H. lia.
Qed.

Lemma replaceRuns_nonempty b c t : replaceRuns b (String c t) = "" -> b = true /\ isAlnum c = false.
Proof.
  cbn [replaceRuns]. destruct (isAlnum c); [discriminate|].
  destruct b; [auto|discriminate].
Qed.

Lemma m1_ReplaceAllString_empty s : m1_ReplaceAllString s = "" <-> s = "".
Proof.
  split; [|now intros ->].
  destruct s as [|c t]; [reflexivity|].
  intros H. apply replaceRuns_nonempty in H as [? _]. discriminate.
Qed.

Lemma ToLower_empty s : ToLower s = "" <-> s = "".
Proof. destruct s; split; intros; try reflexivity; discriminate. Qed.

Lemma sanitized_empty s : ToLower (m1_ReplaceAllString s) = "" <-> s = "".
Proof. rewrite ToLower_empty. apply m1_ReplaceAllString_empty. Qed.

Lemma toLowerByte_lowerChar c : toLowerByte c = Spec.lowerChar c.
Proof. destruct c as [[] [] [] [] [] [] [] []]; reflexivity. Qed.

Lemma ToLower_lowercase s : ToLower s = Spec.lowercase s.
Proof.
  induction s as [|c t IH]; [reflexivity|].
  cbn [ToLower]. unfold Spec.lowercase. cbn [Spec.mapChars].
  now rewrite toLowerByte_lowerChar, IH.
Qed.

Lemma fnv32a_write_fold s : forall h,
  fnv32a_write h s
  = fold_left (fun h b => (N.lxor h b * 16777619) mod 4294967296)%N
              (N_of_ascii <$> list_ascii_of_string s) h.
Proof.
  induction s as [|c t IH]; intros h; [reflexivity|].
  cbn [fnv32a_write list_ascii_of_string fmap list_fmap fold_left]. apply IH.
Qed.

Lemma fnv32a_fnv1a32 s : fnv32a s = Spec.fnv1a32 s.
Proof. apply fnv32a_write_fold. Qed.

Lemma hexDigit_hexDigitOf d : (d < 16)%N -> hexDigit d = Spec.hexDigitOf d.
Proof.
  intros Hd.
  assert (Hc : In d (N.of_nat <$> seq 0 16)).
  { apply list_elem_of_In, list_elem_of_fmap. exists (N.to_nat d).
    split; [lia|]. apply list_elem_of_In, in_seq. lia. }
  cbn in Hc.
  repeat (destruct Hc as [<-|Hc]; [reflexivity|]). contradiction.
Qed.

Lemma hexLoop_hex digits : forall v acc,
  hexLoop digits v acc = Spec.hex digits v +:+ acc.
Proof.
  induction digits as [|d IH]; intros v acc; [reflexivity|].
  cbn [hexLoop Spec.hex].
  assert (Hm : (v mod 16 < 16)%N) by (apply N.mod_lt; discriminate).
  destruct (N.ltb_spec v 16) as [Hlt|Hge].
  - rewrite N.div_small by assumption. cbn [N.eqb].
    rewrite N.mod_small by assumption.
    now rewrite hexDigit_hexDigitOf.
  - destruct (N.eqb_spec (v / 16) 0) as [E|_].
    + exfalso. apply N.div_small_iff in E; [lia|discriminate].
    + rewrite IH, hexDigit_hexDigitOf by assumption.
      rewrite append_assoc. reflexivity.
Qed.

Lemma Sprintf_x_hex v : Sprintf_x v = Spec.hex 8 v.
Proof. unfold Sprintf_x. rewrite hexLoop_hex. apply append_nil_r. Qed.

Lemma hexValueFrom_append s : forall acc c,
  Spec.hexValueFrom acc (s +:+ String c EmptyString)
  = (16 * Spec.hexValueFrom acc s + Spec.hexDigitValue c)%N.
Proof.
  induction s as [|d t IH]; intros acc c; [reflexivity|].
  rewrite append_cons. cbn [Spec.hexValueFrom]. apply IH.
Qed.

Lemma hexDigitValue_hexDigitOf d : (d < 16)%N -> Spec.hexDigitValue (Spec.hexDigitOf d) = d.
Proof.
  intros Hd.
  assert (Hc : In d (N.of_nat <$> seq 0 16)).
  { apply list_elem_of_In, list_elem_of_fmap. exists (N.to_nat d).
    split; [lia|]. apply list_elem_of_In, in_seq. lia. }
  cbn in Hc.
  repeat (destruct Hc as [<-|Hc]; [reflexivity|]). contradiction.
Qed.

(** The rendering denotes the number. *)
Lemma hexValue_hex digits : forall v,
  (v < 16 ^ N.of_nat digits)%N -> Spec.hexValue (Spec.hex digits v) = v.
Proof.
  induction digits as [|d IH]; intros v Hv.
  - cbn in Hv. assert (v = 0%N) as -> by lia. reflexivity.
  - cbn [Spec.hex]. destruct (N.ltb_spec v 16) as [Hlt|Hge].
    + unfold Spec.hexValue. cbn [Spec.hexValueFrom].
      rewrite hexDigitValue_hexDigitOf by assumption. lia.
    + unfold Spec.hexValue. rewrite hexValueFrom_append.
      fold (Spec.hexValue (Spec.hex d (v / 16))).
      rewrite IH.
      * rewrite hexDigitValue_hexDigitOf by (apply N.mod_lt; discriminate).
        symmetry. apply N.div_mod. discriminate.
      * apply N.Div0.div_lt_upper_bound.
        replace (N.of_nat (S d)) with (N.succ (N.of_nat d)) in Hv by lia.
        now rewrite N.pow_succ_r' in Hv.
Qed.

Lemma fnv32a_write_bound s : forall h, (h < 2 ^ 32)%N -> (fnv32a_write h s < 2 ^ 32)%N.
Proof.
  induction s as [|c t IH]; intros h Hh; [exact Hh|].
  cbn [fnv32a_write]. apply IH. apply N.mod_lt. discriminate.
Qed.

Lemma fnv32a_bound s : (fnv32a s < 2 ^ 32)%N.
Proof. apply fnv32a_write_bound. reflexivity. Qed.

Lemma KubeSafeUniqueName_unfold s :
  utils.KubeSafeUniqueName s
  = let name := ToLower (m1_ReplaceAllString s) in
    let hash := Sprintf_x (fnv32a name) in
    match lastChar name with
    | None => None
    | Some _ =>
        Some (substring 0 (255 - String.length hash - 1)
                        (Spec.stripTrailingHyphen name +:+ "-" +:+ hash))
    end.
Proof.
  unfold utils.KubeSafeUniqueName. cbv zeta.
  set (name := ToLower (m1_ReplaceAllString s)).
  set (hash := Sprintf_x (fnv32a name)).
  rewrite index_last.
  destruct name as [|c t] eqn:Hname; [reflexivity|].
  pose proof (strip_last c t) as Hs.
  destruct (lastChar (String c t)) as [l|] eqn:Hl.
  2:{ destruct (lastChar_Some (String c t)) as [x Hx]; [discriminate|congruence]. }
  rewrite TruncateString_prefix. f_equal.
  rewrite slice_init, Hs.
  f_equal. pose proof (Sprintf_x_length (fnv32a (String c t))) as Hh.
  fold hash in Hh. unfold len. lia.
Qed.

(** C8.  For every input whose sanitized form is non-empty,
    [KubeSafeUniqueName] returns what the specification describes: runs of
    non-alphanumeric characters replaced by a hyphen, lower-cased, the 32-bit
    FNV-1a hash of that value rendered in lower-case hexadecimal without
    leading zeros, one trailing hyphen stripped, the hyphen and the hash
    appended, and the whole truncated to 255 - len(hash) - 1 characters; the
    truncation comes last, after the hash has been appended. *)
Theorem KubeSafeUniqueName_refines_spec (s : string) :
  Spec.lowercase (Spec.sanitize s) <> "" ->
  utils.KubeSafeUniqueName s = Some (Spec.kubeSafeUniqueName s).
Proof.
  intros Hne. rewrite KubeSafeUniqueName_unfold. cbv zeta.
  rewrite m1_ReplaceAllString_sanitize, ToLower_lowercase, fnv32a_fnv1a32, Sprintf_x_hex.
  destruct (lastChar_Some _ Hne) as [c ->].
  reflexivity.
Qed.

(** A branch name with a slash. *)
Lemma KubeSafeUniqueName_refines_spec_witness :
  Spec.lowercase (Spec.sanitize "demo-env/dev") <> ""
  /\ utils.KubeSafeUniqueName "demo-env/dev" = Some (Spec.kubeSafeUniqueName "demo-env/dev").
Proof.
  split; [discriminate|].
  apply (KubeSafeUniqueName_refines_spec "demo-env/dev"). discriminate.
Defined.

(** The hash suffix denotes the FNV-1a hash of the sanitized name. *)
Lemma hash_suffix_denotes_hash (s : string) :
  Spec.hexValue (Spec.hex 8 (Spec.fnv1a32 s)) = Spec.fnv1a32 s.
Proof.
  apply hexValue_hex. rewrite <- fnv32a_fnv1a32. apply fnv32a_bound.
Qed.

(** C10.  [KubeSafeUniqueName] reads [name[len(name)-1]] without a guard.
    The sanitized name is empty exactly for the empty input; the read is out
    of range exactly then; and the function panics exactly then: it is total
    on the non-empty inputs and on them only. *)
Theorem KubeSafeUniqueName_panics_iff_empty (s : string) :
  let name := ToLower (m1_ReplaceAllString s) in
  (name = "" <-> s = "")
  /\ (index name (len name - 1) = None <-> s = "")
  /\ (utils.KubeSafeUniqueName s = None <-> s = "").
Proof.
  cbv zeta. pose proof (sanitized_empty s) as He.
  assert (Hl : lastChar (ToLower (m1_ReplaceAllString s)) = None <-> s = "").
  { rewrite <- He. split.
    - intros Hn. destruct (ToLower (m1_ReplaceAllString s)) as [|c t] eqn:E; [reflexivity|].
      destruct (lastChar_Some (String c t)) as [x Hx]; [discriminate|congruence].
    - now intros ->. }
  split; [exact He|]. split.
  - now rewrite index_last.
  - rewrite KubeSafeUniqueName_unfold. cbv zeta. rewrite <- Hl.
    destruct (lastChar (ToLower (m1_ReplaceAllString s))); split; intros; congruence.
Qed.

Lemma replaceRuns_hyphenated b s : hyphenated b (replaceRuns b s) = true.
Proof.
  revert b. induction s as [|c t IH]; intros b; [reflexivity|].
  cbn [replaceRuns]. destruct (isAlnum c) eqn:Hc.
  - cbn [hyphenated]. rewrite Hc. apply IH.
  - destruct b; [apply IH|].
    cbn [hyphenated]. rewrite hyphen_not_alnum, Ascii.eqb_refl. cbn. apply IH.
Qed.

Lemma hyphenated_weaken b s : hyphenated b s = true -> hyphenated false s = true.
Proof.
  destruct s as [|c t]; [reflexivity|]. cbn [hyphenated].
  destruct (isAlnum c); [auto|].
  destruct b; [|auto]. rewrite andb_false_r. discriminate.
Qed.

Lemma hyphenated_tail b c t : hyphenated b (String c t) = true -> hyphenated false t = true.
Proof.
  cbn [hyphenated]. destruct (isAlnum c); [auto|].
  intros H. apply andb_true_iff in H as [_ H]. eapply hyphenated_weaken, H.
Qed.

Lemma hyphenated_drop k : forall b s,
  hyphenated b s = true ->
  hyphenated false (substring k (String.length s - k) s) = true.
Proof.
  induction k as [|k IH]; intros b s H.
  - rewrite Nat.sub_0_r, substring_0_all by lia. eapply hyphenated_weaken, H.
  - destruct s as [|c t]; [reflexivity|].
    cbn [substring String.length]. replace (S (String.length t) - S k)%nat
      with (String.length t - k)%nat by lia.
    eapply IH, hyphenated_tail, H.
Qed.

Lemma hyphenated_chars b s : hyphenated b s = true -> allChars isLabelChar s = true.
Proof.
  revert b. induction s as [|c t IH]; intros b; [reflexivity|].
  cbn [hyphenated allChars]. unfold isLabelChar at 1.
  destruct (isAlnum c); [cbn; apply IH|].
  intros H. apply andb_true_iff in H as [H Ht]. apply andb_true_iff in H as [-> _].
  rewrite orb_true_r. cbn. eapply IH, Ht.
Qed.

Lemma length_substring k : forall m s,
  (k + m <= String.length s)%nat -> String.length (substring k m s) = m.
Proof.
  induction k as [|k IH]; intros m s H.
  - revert s H. induction m as [|m IHm]; intros s H.
    + now rewrite substring_0_0.
    + destruct s as [|c t]; [simpl in H; lia|].
      rewrite substring_0_cons. simpl. f_equal. apply IHm. simpl in H. lia.
  - destruct s as [|c t]; [simpl in H; lia|].
    cbn [substring]. apply IH. simpl in H. lia.
Qed.

Lemma TruncateStringFromBeginning_spec s n :
  0 < n ->
  exists k, utils.TruncateStringFromBeginning s n = substring k (String.length s - k) s
            /\ (String.length (utils.TruncateStringFromBeginning s n) <= Z.to_nat n)%nat
            /\ (s <> "" -> utils.TruncateStringFromBeginning s n <> "").
Proof.
  intros Hn. unfold utils.TruncateStringFromBeginning.
  destruct (Z.leb_spec n 0); [lia|].
  destruct (Z.leb_spec (len s) n) as [Hle|Hgt].
  - exists 0%nat. rewrite Nat.sub_0_r, substring_0_all by lia.
    split; [reflexivity|]. split; [unfold len in Hle; lia|auto].
  - exists (Z.to_nat (len s - n)). unfold slice.
    replace (Z.to_nat (len s - (len s - n))) with (String.length s - Z.to_nat (len s - n))%nat
      by (unfold len in *; lia).
    split; [reflexivity|].
    assert (Hl : String.length (substring (Z.to_nat (len s - n))
                                          (String.length s - Z.to_nat (len s - n)) s)
                 = (String.length s - Z.to_nat (len s - n))%nat).
    { apply length_substring. unfold len in *. lia. }
    split; [rewrite Hl; unfold len in *; lia|].
    intros _ E. rewrite E in Hl. simpl in Hl. unfold len in *. lia.
Qed.

Lemma index_0 s : index s 0 = match s with EmptyString => None | String c _ => Some c end.
Proof.
  destruct s as [|c t]; [reflexivity|].
  unfold index. rewrite len_cons. pose proof (len_nonneg t).
  destruct (Z.leb_spec (len t + 1) 0); [lia|]. reflexivity.
Qed.

Lemma slice_tail c t : slice (String c t) 1 (len (String c t)) = t.
Proof.
  unfold slice. rewrite len_cons.
  replace (Z.to_nat (len t + 1 - 1)) with (String.length t) by (unfold len; lia).
  change (Z.to_nat 1) with 1%nat. cbn [substring].
  apply substring_0_all. lia.
Qed.

(** [KubeSafeLabel] never panics. *)
Lemma KubeSafeLabel_total (s : string) : exists label, utils.KubeSafeLabel s = Some label.
Proof.
  unfold utils.KubeSafeLabel.
  destruct (String.eqb_spec s "") as [->|Hne]; [eauto|].
  destruct (TruncateStringFromBeginning_spec (m1_ReplaceAllString s) 63 ltac:(lia))
    as (k & _ & _ & Hnonempty).
  specialize (Hnonempty ltac:(now rewrite m1_ReplaceAllString_empty)).
  rewrite index_0.
  destruct (utils.TruncateStringFromBeginning (m1_ReplaceAllString s) 63); [congruence|eauto].
Qed.

(** C9.  For every input, [KubeSafeLabel] returns (it never panics on
    [name[0]]) a string of at most 63 characters that does not start with a
    hyphen and consists of characters of [A-Za-z0-9._-] only; the empty
    input gives the empty string. *)
Theorem KubeSafeLabel_safe (s : string) :
  exists label,
    utils.KubeSafeLabel s = Some label
    /\ (String.length label <= 63)%nat
    /\ index label 0 <> Some hyphen
    /\ allChars isLabelChar label = true
    /\ utils.KubeSafeLabel "" = Some "".
Proof.
  unfold utils.KubeSafeLabel.
  destruct (String.eqb_spec s "") as [->|Hne].
  { exists "". repeat split; try reflexivity; [simpl; lia|discriminate]. }
  destruct (TruncateStringFromBeginning_spec (m1_ReplaceAllString s) 63 ltac:(lia))
    as (k & Hk & Hlen & Hnonempty).
  assert (Hh : hyphenated false (utils.TruncateStringFromBeginning (m1_ReplaceAllString s) 63) = true).
  { rewrite Hk. eapply hyphenated_drop, replaceRuns_hyphenated. }
  specialize (Hnonempty ltac:(now rewrite m1_ReplaceAllString_empty)).
  destruct (utils.TruncateStringFromBeginning (m1_ReplaceAllString s) 63) as [|c t];
    [congruence|].
  rewrite index_0. eexists. split; [reflexivity|].
  destruct (Ascii.eqb_spec c hyphen) as [->|Hc].
  - rewrite slice_tail. cbn [hyphenated] in Hh. rewrite hyphen_not_alnum in Hh.
    cbn in Hh. simpl in Hlen.
    repeat split; try reflexivity.
    + change (Z.to_nat 63) with 63%nat in Hlen. lia.
    + rewrite index_0. destruct t as [|d t]; [discriminate|].
      cbn [hyphenated] in Hh. destruct (isAlnum d) eqn:Hd.
      * intros [= ->]. rewrite hyphen_not_alnum in Hd. discriminate.
      * rewrite andb_false_r in Hh. discriminate.
    + eapply hyphenated_chars, Hh.
  - repeat split; try reflexivity.
    + exact Hlen.
    + rewrite index_0. congruence.
    + eapply hyphenated_chars, Hh.
Qed.

End Strings.

(** ** Reasoning about reconciler code *)

Section Logic.
Context {W : Type}.

Lemma bind_val {A B} (m : M W A) (k : A -> M W B) st st1 a :
  m st = (st1, Val a) -> bind m k st = k a st1.
Proof. unfold bind. now intros ->. Qed.

Lemma mbind_val {A B} (m : M W A) (k : A -> M W B) st st1 a :
  m st = (st1, Val a) -> (m ≫= k) st = k a st1.
Proof. apply bind_val. Qed.

Lemma call_run {A} (c : Call) (op : W -> W * A) (st : St.t W) :
  call c op st = (St.mk (op (St.world st)).1 (St.calls st ++ [c]), Val (op (St.world st)).2).
Proof. unfold call. now destruct (op (St.world st)). Qed.

Lemma bind_inv {A B} (m : M W A) (k : A -> M W B) st st' r :
  (m ≫= k) st = (st', r) ->
  (exists st1 a, m st = (st1, Val a) /\ k a st1 = (st', r))
  \/ (m st = (st', Panicked) /\ r = Panicked)
  \/ (m st = (st', OutOfFuel) /\ r = OutOfFuel).
Proof.
  unfold mbind, M_bind, bind. destruct (m st) as [st1 [a| |]]; intros H.
  - left. eauto.
  - right. left. inversion H. auto.
  - right. right. inversion H. auto.
Qed.

Lemma post_ret {A} (Q : A -> Prop) a : Q a -> post (W:=W) Q (mret a).
Proof. intros HQ st st' b [= _ <-]. exact HQ. Qed.

Lemma post_bind {A B} (Q1 : A -> Prop) (Q : B -> Prop) (m : M W A) (k : A -> M W B) :
  post Q1 m -> (forall a, Q1 a -> post Q (k a)) -> post Q (m ≫= k).
Proof.
  intros Hm Hk st st' b H. apply bind_inv in H as [(st1 & a & H1 & H2)|[[_ ?]|[_ ?]]];
    try discriminate.
  eapply Hk; [eapply Hm, H1|exact H2].
Qed.

Lemma post_orPanic {A} (o : option A) : post (W:=W) (fun a => o = Some a) (orPanic o).
Proof. intros st st' a. destruct o; [intros [= _ <-]; reflexivity|discriminate]. Qed.

Lemma post_any {A} (m : M W A) : post (fun _ => True) m.
Proof. intros st st' a _. exact I. Qed.

Lemma post_weaken {A} (Q Q' : A -> Prop) (m : M W A) :
  post Q m -> (forall a, Q a -> Q' a) -> post Q' m.
Proof. intros H HQ st st' a E. eapply HQ, H, E. Qed.

(** Loop rule: [I] holds of the loop-carried variables together with the
    elements already visited; a [Return] satisfies [Qr]. *)
Lemma post_forRange {A S R} (I : list A -> S -> Prop) (Qr : R -> Prop)
      (body : S -> A -> M W (flow S R)) (xs : list A) :
  forall done s,
    I done s ->
    (forall done s x, I done s ->
                      post (fun f => match f with
                                     | Next s' => I (done ++ [x]) s'
                                     | Return r => Qr r
                                     end) (body s x)) ->
    post (fun f => match f with
                   | Next s' => I (done ++ xs) s'
                   | Return r => Qr r
                   end) (forRange xs s body).
Proof.
  induction xs as [|x xs IH]; intros done s HI Hbody.
  - cbn [forRange]. apply post_ret. now rewrite app_nil_r.
  - cbn [forRange]. eapply (post_bind _ _ (body s x)); [apply Hbody, HI|].
    intros [s'|r] Hf.
    + replace (done ++ x :: xs) with ((done ++ [x]) ++ xs) by now rewrite <- app_assoc.
      apply IH; assumption.
    + apply post_ret. exact Hf.
Qed.

Lemma emits_ret {A} (P : Call -> Prop) (a : A) : emits P (mret a : M W A).
Proof. intros st st' r [= <- _]. exists []. now rewrite app_nil_r. Qed.

Lemma emits_panic {A} (P : Call -> Prop) : emits P (panic : M W A).
Proof. intros st st' r [= <- _]. exists []. now rewrite app_nil_r. Qed.

Lemma emits_outOfFuel {A} (P : Call -> Prop) : emits P (outOfFuel : M W A).
Proof. intros st st' r [= <- _]. exists []. now rewrite app_nil_r. Qed.

Lemma emits_orPanic {A} (P : Call -> Prop) (o : option A) : emits P (orPanic o : M W A).
Proof. destruct o; [apply emits_ret|apply emits_panic]. Qed.

Lemma emits_call {A} (P : Call -> Prop) c (op : W -> W * A) : P c -> emits P (call c op).
Proof.
  intros Hc st st' r. unfold call. destruct (op (St.world st)) as [w a].
  intros [= <- _]. exists [c]. split; [reflexivity|]. repeat constructor. exact Hc.
Qed.

Lemma emits_bind {A B} (P : Call -> Prop) (m : M W A) (k : A -> M W B) :
  emits P m -> (forall a, emits P (k a)) -> emits P (m ≫= k).
Proof.
  intros Hm Hk st st' r H.
  apply bind_inv in H as [(st1 & a & H1 & H2)|[[H1 _]|[H1 _]]].
  - apply Hm in H1 as (n1 & E1 & F1). apply Hk in H2 as (n2 & E2 & F2).
    exists (n1 ++ n2). rewrite E2, E1, app_assoc. split; [reflexivity|].
    apply Forall_app. auto.
  - eapply Hm, H1.
  - eapply Hm, H1.
Qed.

Lemma emits_forRange {A S R} (P : Call -> Prop) (body : S -> A -> M W (flow S R)) (xs : list A) :
  (forall s x, emits P (body s x)) -> forall s, emits P (forRange xs s body).
Proof.
  intros Hbody. induction xs as [|x xs IH]; intros s; cbn [forRange].
  - apply emits_ret.
  - apply emits_bind; [apply Hbody|]. intros [s'|r]; [apply IH|apply emits_ret].
Qed.

Lemma emits_RetryOnConflict {S} (P : Call -> Prop) (fn : S -> M W (S * option error)) steps :
  (forall s, emits P (fn s)) -> forall lastErr s, emits P (RetryOnConflict steps lastErr s fn).
Proof.
  intros Hfn. induction steps as [|n IH]; intros lastErr s; cbn [RetryOnConflict].
  - apply emits_ret.
  - apply emits_bind; [apply Hfn|]. intros [s' [e|]]; [|apply emits_ret].
    destruct (IsConflict e); [apply IH|apply emits_ret].
Qed.

Lemma emits_silent {A} (m : M W A) st st' r :
  emits (fun _ => False) m -> m st = (st', r) -> St.calls st' = St.calls st.
Proof.
  intros Hm H. apply Hm in H as (new & E & F). destruct new as [|c new].
  - now rewrite app_nil_r in E.
  - inversion F as [|? ? []].
Qed.
End Logic.

Ltac emits_step :=
  lazymatch goal with
  | |- emits _ (mret _) => apply emits_ret
  | |- emits _ (ret _) => apply emits_ret
  | |- emits _ panic => apply emits_panic
  | |- emits _ (orPanic _) => apply emits_orPanic
  | |- emits _ (_ ≫= _) => apply emits_bind; [|intros ?]
  | |- emits _ (call _ _) => apply emits_call
  | |- emits _ (forRange _ _ _) => apply emits_forRange; intros ? ?
  | |- emits _ (RetryOnConflict _ _ _ _) => apply emits_RetryOnConflict; intros ?
  | |- emits _ (match ?x with _ => _ end) => destruct x
  | |- emits _ (let '(_, _) := ?x in _) => destruct x
  end.

(** ** The PullRequest reconciler *)
Section PullRequestDeletion.
Context {W : Type}.
Context {prStore : Store W PullRequest.t} {scmStore : Store W ScmProvider.t}
        {secretStore : Store W Secret.t} {runtime : Runtime W}.
Import PullRequestReconciler.

(** C7.  Let a reconciliation of a PullRequest get as far as asking the
    provider: the record was read, a provider was obtained, and the
    finalizer handling neither failed nor finished a deletion.  If
    [FindOpen] then reports no open pull request (and no error) while
    [status.state] is non-empty, the reconciler calls [Delete] on the
    record, calls nothing else, and returns the empty result with no
    error, both when the delete succeeds and when it answers not-found. *)
Theorem Reconcile_deletes_vanished_pull_request
  (req : ObjectKey.t) (st st1 st2 st3 : St.t W)
  (pr0 pr : PullRequest.t) (provider : PullRequestProvider W)
  (w4 w5 : W) (deleteErr : option error) :
  r_Get req st = (st1, Val (Ok pr0)) ->
  getPullRequestProvider pr0 st1 = (st2, Val (Some provider, None)) ->
  handleFinalizer pr0 (Some provider) st2 = (st3, Val (pr, false, None)) ->
  FindOpen provider pr (St.world st3) = (w4, (false, None)) ->
  statusState pr <> "" ->
  store_delete pr w4 = (w5, deleteErr) ->
  deleteErr = None \/ deleteErr = Some ErrNotFound ->
  Reconcile req st
  = (St.mk w5 (St.calls st3 ++ [CFindOpen pr; CDelete (OPullRequest pr)]),
     Val (Result.zero, None)).
Proof.
  intros Hget Hprov Hfin Hfind Hstate Hdel Herr.
  unfold Reconcile.
  rewrite (mbind_val _ _ _ _ _ Hget).
  rewrite (mbind_val _ _ _ _ _ Hprov).
  rewrite (mbind_val _ _ _ _ _ Hfin).
  unfold Reconcile_observe.
  erewrite mbind_val by (rewrite call_run, Hfind; reflexivity).
  cbn [negb andb fst snd].
  destruct (String.eqb_spec (statusState pr) "") as [E|_]; [contradiction|].
  cbn [negb andb]. unfold r_Delete.
  erewrite mbind_val by (rewrite call_run; cbn [St.world]; rewrite Hdel; reflexivity).
  cbn [St.calls fst snd toObject PullRequest_Resource].
  rewrite <- app_assoc. cbn [app].
  destruct Herr as [-> | ->]; reflexivity.
Qed.
End PullRequestDeletion.

(** ** Ordered look-ups *)

Section Lookups.
Import envutils.

Lemma GetEnvironmentStatus_loop_skip b (A : list EnvironmentStatus.t) : forall i rest,
  Forall (fun e => EnvironmentStatus.Branch e <> b) A ->
  GetEnvironmentStatus_loop b i (A ++ rest) = GetEnvironmentStatus_loop b (i + Z.of_nat (length A)) rest.
Proof.
  induction A as [|a A IH]; intros i rest HA.
  - simpl. now rewrite Z.add_0_r.
  - inversion HA as [|? ? Ha HA']; subst. cbn [app GetEnvironmentStatus_loop].
    destruct (String.eqb_spec (EnvironmentStatus.Branch a) b); [contradiction|].
    rewrite IH by assumption. f_equal. simpl length. lia.
Qed.

Lemma GetEnvironmentStatus_loop_found b A x B :
  Forall (fun e => EnvironmentStatus.Branch e <> b) A ->
  EnvironmentStatus.Branch x = b ->
  GetEnvironmentStatus_loop b 0 (A ++ x :: B) = (Z.of_nat (length A), Some x).
Proof.
  intros HA Hx. rewrite GetEnvironmentStatus_loop_skip by assumption.
  cbn [GetEnvironmentStatus_loop]. rewrite Hx, String.eqb_refl. reflexivity.
Qed.

Lemma GetPrevious_loop_skip envs b (A : list EnvironmentStatus.t) : forall i rest,
  Forall (fun e => EnvironmentStatus.Branch e <> b) A ->
  GetPrevious_loop envs b i (A ++ rest) = GetPrevious_loop envs b (i + Z.of_nat (length A)) rest.
Proof.
  induction A as [|a A IH]; intros i rest HA.
  - simpl. now rewrite Z.add_0_r.
  - inversion HA as [|? ? Ha HA']; subst. cbn [app GetPrevious_loop].
    destruct (String.eqb_spec (EnvironmentStatus.Branch a) b); [contradiction|].
    cbn [andb]. rewrite IH by assumption. f_equal. simpl length. lia.
Qed.

Lemma GetPrevious_loop_found b A p x B :
  Forall (fun e => EnvironmentStatus.Branch e <> b) (A ++ [p]) ->
  EnvironmentStatus.Branch x = b ->
  let envs := (A ++ [p]) ++ x :: B in
  GetPrevious_loop envs b 0 envs = (Z.of_nat (length A) + 2, Some p).
Proof.
  intros HA Hx envs. unfold envs at 2.
  rewrite GetPrevious_loop_skip by assumption.
  cbn [GetPrevious_loop]. rewrite Hx, String.eqb_refl.
  rewrite length_app. cbn [length].
  destruct (Z.geb_spec (0 + Z.of_nat (length A + 1) - 1) 0); [|lia].
  destruct (Z.gtb_spec (Z.of_nat (length envs)) 0) as [|Hle].
  2:{ unfold envs in Hle. rewrite !length_app in Hle. simpl in Hle. lia. }
  cbn [andb]. f_equal; [lia|].
  replace (Z.to_nat (0 + Z.of_nat (length A + 1) - 1)) with (length A + 0)%nat by lia.
  unfold envs. rewrite <- app_assoc. rewrite lookup_app_r by lia.
  replace (length A + 0 - length A)%nat with 0%nat by lia. reflexivity.
Qed.

Lemma blockOf_branch status e s : s ∈ blockOf status e -> EnvironmentStatus.Branch s = Environment.Branch e /\ s ∈ status.
Proof. unfold blockOf. rewrite list_elem_of_filter. intros [? ?]. split; [congruence|assumption]. Qed.

Lemma blockOf_nonempty status e :
  (exists s, s ∈ status /\ EnvironmentStatus.Branch s = Environment.Branch e) -> blockOf status e <> [].
Proof.
  intros (s & Hs & Hb) E.
  assert (s ∈ blockOf status e) as Hin by (unfold blockOf; rewrite list_elem_of_filter; split; [congruence|assumption]).
  rewrite E in Hin. inversion Hin.
Qed.

Lemma nonempty_snoc {A} (l : list A) : l <> [] -> exists l' x, l = l' ++ [x].
Proof.
  intros H. destruct (rev l) as [|x r] eqn:E.
  - apply (f_equal (@rev A)) in E. rewrite rev_involutive in E. simpl in E. contradiction.
  - exists (rev r), x. apply (f_equal (@rev A)) in E. rewrite rev_involutive in E. exact E.
Qed.

Lemma lookups_in_order (ps : PromotionStrategy.t) pre previous environment post :
  covered ps ->
  specEnvironments ps = pre ++ previous :: environment :: post ->
  Forall (fun e => Environment.Branch e <> Environment.Branch environment) (pre ++ [previous]) ->
  exists (n : nat) prev cur,
    GetPreviousEnvironmentStatusByBranch ps (Environment.Branch environment) = (Z.of_nat n + 2, Some prev)
    /\ GetEnvironmentStatusByBranch ps (Environment.Branch environment) = (Z.of_nat n + 1, Some cur)
    /\ prev ∈ statusEnvironments ps
    /\ EnvironmentStatus.Branch prev = Environment.Branch previous
    /\ cur ∈ statusEnvironments ps
    /\ EnvironmentStatus.Branch cur = Environment.Branch environment.
Proof.
  intros Hcov Hspec Hfirst.
  set (status := statusEnvironments ps).
  set (b := Environment.Branch environment).
  assert (HL : GetEnvironmentsFromStatusInOrder ps
               = (flat_map (blockOf status) pre ++ blockOf status previous)
                   ++ blockOf status environment ++ flat_map (blockOf status) post).
  { unfold GetEnvironmentsFromStatusInOrder. fold (specEnvironments ps). rewrite Hspec.
    rewrite flat_map_app. cbn [flat_map]. rewrite <- app_assoc. reflexivity. }
  destruct (nonempty_snoc (blockOf status previous)) as (P & prev & HP).
  { apply blockOf_nonempty, Hcov. rewrite Hspec. set_solver. }
  destruct (blockOf status environment) as [|cur E] eqn:HE.
  { exfalso. eapply blockOf_nonempty; [|exact HE]. apply Hcov. rewrite Hspec. set_solver. }
  assert (Hprev : prev ∈ blockOf status previous) by (rewrite HP; set_solver).
  assert (Hcur : cur ∈ blockOf status environment) by (rewrite HE; set_solver).
  apply blockOf_branch in Hprev as [Hpb Hps]. apply blockOf_branch in Hcur as [Hcb Hcs].
  assert (HA : Forall (fun e => EnvironmentStatus.Branch e <> b)
                      ((flat_map (blockOf status) pre ++ P) ++ [prev])).
  { rewrite <- app_assoc, <- HP. apply Forall_forall. intros s Hs.
    rewrite Forall_forall in Hfirst.
    apply elem_of_app in Hs as [Hs|Hs].
    - apply list_elem_of_In, in_flat_map in Hs as (e & He & Hs).
      apply list_elem_of_In, blockOf_branch in Hs as [-> _].
      apply Hfirst, elem_of_app. left. now apply list_elem_of_In.
    - apply blockOf_branch in Hs as [-> _].
      apply Hfirst. set_solver. }
  exists (length (flat_map (blockOf status) pre ++ P)), prev, cur.
  assert (HL' : GetEnvironmentsFromStatusInOrder ps
                = ((flat_map (blockOf status) pre ++ P) ++ [prev])
                    ++ cur :: (E ++ flat_map (blockOf status) post)).
  { rewrite HL, HP. rewrite <- !app_assoc. reflexivity. }
  unfold GetPreviousEnvironmentStatusByBranch, GetEnvironmentStatusByBranch.
  rewrite HL'.
  split; [apply (GetPrevious_loop_found b _ prev cur); [exact HA|exact Hcb]|].
  split.
  { rewrite (GetEnvironmentStatus_loop_found b _ cur); [|exact HA|exact Hcb].
    f_equal. rewrite length_app. simpl. lia. }
  auto.
Qed.

End Lookups.

(** ** The status computed by [calculateStatus] *)

Section Frames.
Import envutils.

Lemma sameFrame_refl ps : sameFrame ps ps.
Proof. split; reflexivity. Qed.

Lemma sameFrame_trans ps1 ps2 ps3 : sameFrame ps1 ps2 -> sameFrame ps2 ps3 -> sameFrame ps1 ps3.
Proof. intros [? ?] [? ?]. split; congruence. Qed.

Lemma fmap_alter_branch (f : EnvironmentStatus.t -> EnvironmentStatus.t) (n : nat)
      (l : list EnvironmentStatus.t) :
  (forall e, EnvironmentStatus.Branch (f e) = EnvironmentStatus.Branch e) ->
  EnvironmentStatus.Branch <$> alter f n l = EnvironmentStatus.Branch <$> l.
Proof.
  intros Hf. revert n. induction l as [|x l IH]; intros n; [reflexivity|].
  destruct n as [|n]; cbn; [now rewrite Hf|]. f_equal. apply IH.
Qed.

Lemma assignAt_frame ps i f ps' :
  (forall e, EnvironmentStatus.Branch (f e) = EnvironmentStatus.Branch e) ->
  assignAt ps i f = Some ps' -> sameFrame ps ps'.
Proof.
  intros Hf. unfold assignAt.
  destruct ((i <? 0) || (Z.of_nat (length (statusEnvironments ps)) <=? i)); [discriminate|].
  intros [= <-]. split; [reflexivity|].
  unfold branches, statusEnvironments, setStatusEnvironments. cbn.
  now apply fmap_alter_branch.
Qed.

Lemma withActive_branch g e : EnvironmentStatus.Branch (withActive g e) = EnvironmentStatus.Branch e.
Proof. reflexivity. Qed.
Lemma withProposed_branch g e : EnvironmentStatus.Branch (withProposed g e) = EnvironmentStatus.Branch e.
Proof. reflexivity. Qed.
Lemma withLastHealthyDryShas_branch l e :
  EnvironmentStatus.Branch (withLastHealthyDryShas l e) = EnvironmentStatus.Branch e.
Proof. reflexivity. Qed.

Lemma Upsert_loop_branches (slice : list EnvironmentStatus.t) i : forall rest (index : nat),
  drop index slice = rest ->
  (EnvironmentStatus.Branch <$> Upsert_loop slice i index rest = EnvironmentStatus.Branch <$> slice
   /\ EnvironmentStatus.Branch i ∈ EnvironmentStatus.Branch <$> slice)
  \/ Upsert_loop slice i index rest = slice ++ [i].
Proof.
  induction rest as [|ele rest IH]; intros index Hdrop; cbn [Upsert_loop]; [now right|].
  assert (Hele : slice !! index = Some ele).
  { rewrite <- (Nat.add_0_r index), <- lookup_drop, Hdrop. reflexivity. }
  destruct (String.eqb_spec (EnvironmentStatus.Branch ele) (EnvironmentStatus.Branch i)) as [E|_].
  - left. split.
    + rewrite list_fmap_insert. apply list_insert_id.
      rewrite list_lookup_fmap, Hele. cbn. now rewrite E.
    + rewrite <- E. apply list_elem_of_fmap. exists ele. split; [reflexivity|].
      eapply list_elem_of_lookup_2, Hele.
  - apply IH. rewrite <- (Nat.add_1_r index), <- drop_drop, Hdrop. reflexivity.
Qed.

Lemma branches_snoc (slice : list EnvironmentStatus.t) i :
  (forall b, b ∈ EnvironmentStatus.Branch <$> slice ->
             b ∈ EnvironmentStatus.Branch <$> (slice ++ [i]))
  /\ EnvironmentStatus.Branch i ∈ EnvironmentStatus.Branch <$> (slice ++ [i]).
Proof.
  rewrite fmap_app. split.
  - intros b Hb. apply elem_of_app. now left.
  - apply elem_of_app. right. apply list_elem_of_singleton. reflexivity.
Qed.

Lemma Upsert_branches (slice : list EnvironmentStatus.t) i :
  (forall b, b ∈ EnvironmentStatus.Branch <$> slice ->
             b ∈ EnvironmentStatus.Branch <$> UpsertEnvironmentStatus slice i)
  /\ EnvironmentStatus.Branch i ∈ EnvironmentStatus.Branch <$> UpsertEnvironmentStatus slice i.
Proof.
  unfold UpsertEnvironmentStatus.
  destruct (length slice =? 0)%nat; [apply branches_snoc|].
  destruct (Upsert_loop_branches slice i slice 0%nat eq_refl) as [[-> Hin]| ->].
  - auto.
  - apply branches_snoc.
Qed.

End Frames.

Section Calc.
Context {W : Type}.
Context {psStore : Store W PromotionStrategy.t} {pcStore : Store W ProposedCommit.t}
        {csStore : Store W CommitStatus.t} {prStore : Store W PullRequest.t}
        {runtime : Runtime W}.
Import PromotionStrategyReconciler envutils.

Lemma post_assignAt ps i f :
  (forall e, EnvironmentStatus.Branch (f e) = EnvironmentStatus.Branch e) ->
  post (W:=W) (sameFrame ps) (orPanic (assignAt ps i f)).
Proof.
  intros Hf. eapply post_weaken; [apply post_orPanic|].
  intros ps' H. exact (assignAt_frame _ _ _ _ Hf H).
Qed.

Lemma post_assignAt2 ps i f g :
  (forall e, EnvironmentStatus.Branch (f e) = EnvironmentStatus.Branch e) ->
  (forall e, EnvironmentStatus.Branch (g e) = EnvironmentStatus.Branch e) ->
  post (W:=W) (sameFrame ps)
       (ps1 ← orPanic (assignAt ps i f); orPanic (assignAt ps1 i g)).
Proof.
  intros Hf Hg. eapply post_bind; [apply post_assignAt, Hf|].
  intros ps1 H1. eapply post_weaken; [apply post_assignAt, Hg|].
  intros ps2 H2. eapply sameFrame_trans; eassumption.
Qed.

Lemma collectCommitStatus_frame sha side i ps0 s status :
  (forall g e, EnvironmentStatus.Branch (side g e) = EnvironmentStatus.Branch e) ->
  sameFrame ps0 s.1 ->
  post (keepsFrame ps0 fst) (collectCommitStatus sha side i s status).
Proof.
  intros Hside Hs. destruct s as [ps all]. cbn [fst] in Hs.
  unfold collectCommitStatus.
  eapply post_bind; [apply post_any|]. intros key _.
  eapply post_bind; [apply post_any|]. intros [items|err] _.
  2:{ apply post_ret. cbn. discriminate. }
  destruct (List.filter notCopy items) as [|c1 [|c2 rest]].
  - eapply post_bind; [apply post_assignAt, Hside|]. intros ps1 H1.
    eapply post_bind; [apply post_assignAt, Hside|]. intros ps2 H2.
    apply post_ret. cbn. eauto using sameFrame_trans.
  - apply post_ret. exact Hs.
  - eapply post_bind; [apply post_assignAt, Hside|]. intros ps1 H1.
    eapply post_bind; [apply post_assignAt, Hside|]. intros ps2 H2.
    apply post_ret. cbn. eauto using sameFrame_trans.
Qed.

Lemma collect_loop_frame sha side i ps keys :
  (forall g e, EnvironmentStatus.Branch (side g e) = EnvironmentStatus.Branch e) ->
  post (keepsFrame ps fst)
       (forRange keys (ps, []) (collectCommitStatus sha side i)).
Proof.
  intros Hside.
  eapply post_weaken.
  - apply (post_forRange (fun _ s => sameFrame ps s.1) (fun r => r.2 <> None)) with (done := []).
    + apply sameFrame_refl.
    + intros done s x Hs. eapply post_weaken; [apply collectCommitStatus_frame; eassumption|].
      intros [s'|r]; auto.
  - intros [s'|r]; auto.
Qed.

Lemma calculateStatus_body_post pcMap ps environment :
  post (bodyPost ps environment) (calculateStatus_body pcMap ps environment).
Proof.
  unfold calculateStatus_body.
  destruct (pcMap !! Environment.Branch environment) as [pc|];
    [|apply post_ret; cbn; discriminate].
  set (ps1 := setStatusEnvironments _ ps).
  assert (H1 : bodyPost ps environment (Next ps1)).
  { destruct (Upsert_branches (statusEnvironments ps) (freshStatus environment pc)) as [Hk Hn].
    split; [reflexivity|]. split; [exact Hk|exact Hn]. }
  assert (Hlift : forall ps', sameFrame ps1 ps' -> bodyPost ps environment (Next ps')).
  { intros ps' [Hs Hb]. destruct H1 as (H1a & H1b & H1c). cbn.
    rewrite Hs, Hb. auto. }
  clearbody ps1.
  destruct (GetEnvironmentStatusByBranch ps1 (Environment.Branch environment)) as [i o].
  eapply post_bind; [apply post_any|]. intros tooMany _.
  eapply (post_bind (sameFrame ps1)).
  { destruct tooMany; [|apply post_ret, sameFrame_refl].
    eapply post_bind; [apply post_any|]. intros e _.
    apply post_assignAt. intros; apply withLastHealthyDryShas_branch. }
  intros ps2 H2.
  eapply post_bind.
  { apply (collect_loop_frame _ withActive). intros; apply withActive_branch. }
  intros [[ps3 allActive]|r] H3; [|apply post_ret; exact H3]. cbn in H3.
  eapply (post_bind (sameFrame ps3)).
  { destruct ((Z.of_nat (length allActive) =? 0) && (i >=? 0)).
    - apply post_assignAt2; intros; apply withProposed_branch.
    - eapply post_bind; [apply post_assignAt; intros; apply withActive_branch|].
      intros ps4 H4. destruct (firstNotSuccess allActive).
      + eapply post_weaken; [apply post_assignAt2; intros; apply withActive_branch|].
        intros ps5 H5. eauto using sameFrame_trans.
      + apply post_ret. exact H4. }
  intros ps4 H4.
  eapply post_bind.
  { apply (collect_loop_frame _ withProposed). intros; apply withProposed_branch. }
  intros [[ps5 allProposed]|r] H5; [|apply post_ret; exact H5]. cbn in H5.
  eapply (post_bind (sameFrame ps5)).
  { destruct ((Z.of_nat (length allProposed) =? 0) && (i >=? 0)).
    - apply post_assignAt2; intros; apply withProposed_branch.
    - eapply post_bind; [apply post_assignAt; intros; apply withProposed_branch|].
      intros ps6 H6. destruct (firstNotSuccess allActive).
      + eapply post_weaken; [apply post_assignAt2; intros; apply withProposed_branch|].
        intros ps7 H7. eauto using sameFrame_trans.
      + apply post_ret. exact H6. }
  intros ps6 H6. apply post_ret. apply Hlift.
  eauto using sameFrame_trans.
Qed.

(** A successful [calculateStatus] keeps the spec and leaves a status
    entry for every environment of the spec. *)
Lemma calculateStatus_covered ps pcMap :
  post (fun r => r.2 = None ->
                 PromotionStrategy.Spec r.1 = PromotionStrategy.Spec ps /\ covered r.1)
       (calculateStatus ps pcMap).
Proof.
  unfold calculateStatus.
  eapply post_bind.
  { apply (post_forRange
             (fun done ps' =>
                PromotionStrategy.Spec ps' = PromotionStrategy.Spec ps
                /\ forall e, e ∈ done -> Environment.Branch e ∈ branches ps')
             (fun r => r.2 <> None)) with (done := []).
    - split; [reflexivity|]. intros e He. inversion He.
    - intros done ps' x [Hs Hd].
      eapply post_weaken; [apply calculateStatus_body_post|].
      intros [ps''|r]; [|auto]. intros (Hs' & Hk & Hx). split; [congruence|].
      intros e He. apply elem_of_app in He as [He|He].
      + apply Hk, Hd, He.
      + apply list_elem_of_singleton in He as ->. exact Hx. }
  intros [ps'|r] Hf; apply post_ret.
  - cbn. intros _. destruct Hf as [Hs Hd]. split; [exact Hs|].
    intros e He. unfold specEnvironments in He. rewrite Hs in He.
    specialize (Hd e He). unfold branches in Hd.
    apply list_elem_of_fmap in Hd as (s & Hb & Hin). eauto.
  - intros E. contradiction.
Qed.
End Calc.

(** ** An environment without active checks *)

Lemma fmap_alter_active (f : EnvironmentStatus.t -> EnvironmentStatus.t) (n : nat)
      (l : list EnvironmentStatus.t) :
  (forall e, EnvironmentStatus.Active (f e) = EnvironmentStatus.Active e) ->
  EnvironmentStatus.Active <$> alter f n l = EnvironmentStatus.Active <$> l.
Proof.
  intros Hf. revert n. induction l as [|x l IH]; intros n; [reflexivity|].
  destruct n as [|n]; cbn; [now rewrite Hf|]. f_equal. apply IH.
Qed.

Lemma assignAt_actives ps i f ps' :
  (forall e, EnvironmentStatus.Active (f e) = EnvironmentStatus.Active e) ->
  assignAt ps i f = Some ps' -> actives ps' = actives ps.
Proof.
  intros Hf. unfold assignAt.
  destruct ((i <? 0) || (Z.of_nat (length (statusEnvironments ps)) <=? i)); [discriminate|].
  intros [= <-]. unfold actives, statusEnvironments, setStatusEnvironments. cbn.
  now apply fmap_alter_active.
Qed.

Lemma assignAt_negative ps i f : (i >=? 0) = false -> assignAt ps i f = None.
Proof.
  intros Hi. unfold assignAt.
  destruct (Z.ltb_spec i 0) as [_|Hge]; [reflexivity|].
  rewrite Z.geb_leb in Hi. apply Z.leb_gt in Hi. lia.
Qed.

Section ActiveUntouched.
Context {W : Type}.
Context {psStore : Store W PromotionStrategy.t} {pcStore : Store W ProposedCommit.t}
        {csStore : Store W CommitStatus.t} {prStore : Store W PullRequest.t}
        {runtime : Runtime W}.
Import PromotionStrategyReconciler envutils.

Lemma post_assignAt_actives ps0 ps i f :
  (forall e, EnvironmentStatus.Active (f e) = EnvironmentStatus.Active e) ->
  actives ps = actives ps0 ->
  post (W:=W) (fun ps' => actives ps' = actives ps0) (orPanic (assignAt ps i f)).
Proof.
  intros Hf H0. eapply post_weaken; [apply post_orPanic|].
  intros ps' H. rewrite <- H0. exact (assignAt_actives _ _ _ _ Hf H).
Qed.

Lemma collectCommitStatus_proposed_actives sha i ps0 s status :
  actives s.1 = actives ps0 ->
  post (fun f => match f with
                 | Next s' => actives s'.1 = actives ps0
                 | Return r => r.2 <> None
                 end)
       (collectCommitStatus sha withProposed i s status).
Proof.
  intros Hs. destruct s as [ps all]. cbn [fst] in Hs.
  unfold collectCommitStatus.
  eapply post_bind; [apply post_any|]. intros key _.
  eapply post_bind; [apply post_any|]. intros [items|err] _.
  2:{ apply post_ret. cbn. discriminate. }
  destruct (List.filter notCopy items) as [|c1 [|c2 rest]].
  - eapply post_bind; [apply (post_assignAt_actives ps0); [reflexivity|exact Hs]|].
    intros ps1 H1.
    eapply post_bind; [apply (post_assignAt_actives ps0); [reflexivity|exact H1]|].
    intros ps2 H2. apply post_ret. exact H2.
  - apply post_ret. exact Hs.
  - eapply post_bind; [apply (post_assignAt_actives ps0); [reflexivity|exact Hs]|].
    intros ps1 H1.
    eapply post_bind; [apply (post_assignAt_actives ps0); [reflexivity|exact H1]|].
    intros ps2 H2. apply post_ret. exact H2.
Qed.

(** For an environment without any active check key, the body of
    [calculateStatus] never writes the active side of a status entry:
    the entry of the environment keeps the ("unknown", "unknown") the
    upsert put there. *)
Lemma calculateStatus_body_without_active_keys pcMap ps environment pc :
  pcMap !! Environment.Branch environment = Some pc ->
  Environment.ActiveCommitStatuses environment
  ++ PromotionStrategySpec.ActiveCommitStatuses (PromotionStrategy.Spec ps) = [] ->
  post (fun f => match f with
                 | Next ps' =>
                     actives ps'
                     = EnvironmentStatus.Active
                         <$> UpsertEnvironmentStatus (statusEnvironments ps)
                                                     (freshStatus environment pc)
                 | Return r => r.2 <> None
                 end)
       (calculateStatus_body pcMap ps environment).
Proof.
  intros Hpc Hkeys. unfold calculateStatus_body. rewrite Hpc.
  set (ps1 := setStatusEnvironments _ ps).
  change (EnvironmentStatus.Active
            <$> UpsertEnvironmentStatus (statusEnvironments ps) (freshStatus environment pc))
    with (actives ps1).
  assert (Hspec : PromotionStrategy.Spec ps1 = PromotionStrategy.Spec ps) by reflexivity.
  clearbody ps1.
  destruct (GetEnvironmentStatusByBranch ps1 (Environment.Branch environment)) as [i o].
  eapply post_bind; [apply post_any|]. intros tooMany _.
  eapply (post_bind (fun ps2 => actives ps2 = actives ps1
                                /\ PromotionStrategy.Spec ps2 = PromotionStrategy.Spec ps)).
  { destruct tooMany; [|apply post_ret; auto].
    eapply post_bind; [apply post_any|]. intros e _.
    eapply post_weaken; [apply post_orPanic|].
    intros ps2 H2. cbn beta in H2.
    split; [eapply assignAt_actives; [|exact H2]; reflexivity|].
    rewrite <- Hspec. unfold assignAt in H2.
    destruct (_ || _); [discriminate|]. now inversion H2. }
  intros ps2 [H2 Hspec2]. rewrite Hspec2, Hkeys. cbn [forRange].
  eapply (post_bind (fun f => f = Next (ps2, []))); [apply post_ret; reflexivity|].
  intros f ->.
  eapply (post_bind (fun ps3 => actives ps3 = actives ps1)).
  { cbn [length Z.of_nat Z.eqb andb].
    destruct (i >=? 0) eqn:Hi.
    - eapply post_bind; [apply (post_assignAt_actives ps1); [reflexivity|exact H2]|].
      intros ps3 H3. apply (post_assignAt_actives ps1); [reflexivity|exact H3].
    - eapply post_bind; [apply post_orPanic|]. intros ps3 H3.
      rewrite assignAt_negative in H3 by exact Hi. discriminate. }
  intros ps3 H3.
  eapply post_bind.
  { apply (post_forRange
             (fun _ s => actives s.1 = actives ps1)
             (fun r : PromotionStrategy.t * option error => r.2 <> None)) with (done := []).
    - exact H3.
    - intros done s x Hs. eapply post_weaken;
        [apply (collectCommitStatus_proposed_actives _ _ ps1); exact Hs|].
      intros [s'|r]; auto. }
  intros [[ps4 allProposed]|r] H4; [|apply post_ret; exact H4]. cbn [fst] in H4.
  eapply (post_bind (fun ps5 => actives ps5 = actives ps1)).
  { destruct ((Z.of_nat (length allProposed) =? 0) && (i >=? 0)).
    - eapply post_bind; [apply (post_assignAt_actives ps1); [reflexivity|exact H4]|].
      intros ps5 H5. apply (post_assignAt_actives ps1); [reflexivity|exact H5].
    - eapply post_bind; [apply (post_assignAt_actives ps1); [reflexivity|exact H4]|].
      intros ps5 H5. cbn [firstNotSuccess]. apply post_ret. exact H5. }
  intros ps5 H5. apply post_ret. exact H5.
Qed.
End ActiveUntouched.

(** ** The merge gate *)

Section Gate.
Context {W : Type}.
Context {psStore : Store W PromotionStrategy.t} {pcStore : Store W ProposedCommit.t}
        {csStore : Store W CommitStatus.t} {prStore : Store W PullRequest.t}
        {runtime : Runtime W}.
Import PromotionStrategyReconciler envutils.

Lemma copyCommitStatuses_emits csSelector from to branch :
  emits notPullRequestUpdate (copyCommitStatuses csSelector from to branch).
Proof.
  unfold copyCommitStatuses, copyCommitStatuses_body, copyCommitStatus,
    r_List, r_Get, r_Create, r_Update.
  repeat first [ emits_step | reflexivity | match goal with |- emits _ (if ?b then _ else _) => destruct b end ].
Qed.

Lemma activeChecksPassed_emits pcMap branch previous current :
  emits (W:=W) (fun _ => False) (activeChecksPassed pcMap branch previous current).
Proof.
  unfold activeChecksPassed.
  repeat first [ emits_step | match goal with |- emits _ (if ?b then _ else _) => destruct b end ].
Qed.

Lemma activeChecksPassed_post pcMap branch previous current :
  post (W:=W) (fun b => b = true -> activeGate pcMap branch previous current)
       (activeChecksPassed pcMap branch previous current).
Proof.
  unfold activeChecksPassed.
  destruct previous as [prev|]; [|apply post_ret; discriminate].
  destruct (String.eqb_spec (activeState prev) "success") as [Hs|_];
    [|apply post_ret; discriminate].
  eapply post_bind; [apply post_orPanic|]. intros pc Hpc.
  destruct (String.eqb_spec (ProposedCommitShaState.Sha (activeDry prev)) (proposedDrySha pc))
    as [Hsha|_]; [|apply post_ret; discriminate].
  eapply post_bind; [apply post_orPanic|]. intros cur Hcur.
  apply post_ret. intros Ht. apply Z.ltb_lt in Ht.
  exists prev, cur, pc. subst. auto 10.
Qed.

Lemma no_update_in new pr :
  Forall notPullRequestUpdate new -> In (CUpdate (OPullRequest pr)) new -> False.
Proof.
  intros F Hin. rewrite Forall_forall in F.
  apply list_elem_of_In, F in Hin. discriminate.
Qed.

(** The merge gate of one iteration of the second loop of [Reconcile]:
    a PullRequest is written only with auto-merge on and, unless the
    environment comes first in the ordered status, with the active gate
    open. *)
Lemma Reconcile_body_gate ps pcMap environment st st' out new pr :
  Reconcile_body ps pcMap tt environment st = (st', out) ->
  St.calls st' = St.calls st ++ new ->
  In (CUpdate (OPullRequest pr)) new ->
  let branch := Environment.Branch environment in
  (GetEnvironmentStatusByBranch ps branch).1 = 0
  \/ activeGate pcMap branch
                (GetPreviousEnvironmentStatusByBranch ps branch).2
                (GetEnvironmentStatusByBranch ps branch).2.
Proof.
  intros Hrun Hcalls Hin branch. unfold Reconcile_body in Hrun. fold branch in Hrun.
  destruct (GetPreviousEnvironmentStatusByBranch ps branch) as [n previous].
  destruct (GetEnvironmentStatusByBranch ps branch) as [idx current]. cbn [fst snd].
  assert (Hnone : forall stx r, (stx, r) = (st', out) -> St.calls stx = St.calls st -> False).
  { intros stx r [= -> _] E. rewrite E in Hcalls.
    apply (f_equal length) in Hcalls. rewrite length_app in Hcalls.
    destruct new; [inversion Hin|simpl in Hcalls; lia]. }
  set (copy := match previous with Some _ => _ | None => _ end) in Hrun.
  assert (Hcopy : emits notPullRequestUpdate copy).
  { unfold copy. destruct previous; [|apply emits_ret].
    apply emits_bind; [apply emits_orPanic|]. intros pc.
    destruct (String.eqb _ _); [apply copyCommitStatuses_emits|apply emits_ret]. }
  clearbody copy.
  assert (Hstop : forall st1 r n1, St.calls st1 = St.calls st ++ n1 ->
                    Forall notPullRequestUpdate n1 -> (st1, r) = (st', out) -> False).
  { intros st1 r n1 E1 F1 [= -> _]. rewrite E1 in Hcalls.
    apply app_inv_head in Hcalls as ->. eapply no_update_in; eassumption. }
  apply bind_inv in Hrun as [(st1 & err & H1 & H2)|[[H1 _]|[H1 _]]];
    pose proof (Hcopy _ _ _ H1) as (n1 & E1 & F1);
    try (exfalso; eapply (Hstop _ _ _ E1 F1); reflexivity).
  destruct err as [err|]; [exfalso; eapply (Hstop _ _ _ E1 F1), H2|].
  apply bind_inv in H2 as [(st2 & acp & H2 & H3)|[[H2 ->]|[H2 ->]]];
    pose proof (emits_silent _ _ _ _ (activeChecksPassed_emits _ _ _ _) H2) as E2;
    try (exfalso; eapply (Hstop _ _ _ (eq_trans E2 E1) F1); reflexivity).
  destruct (((idx =? 0) || (acp && proposedChecksPassed current))
            && Environment.GetAutoMerge environment) eqn:Hcond.
  2:{ exfalso. eapply (Hstop _ _ _ (eq_trans E2 E1) F1), H3. }
  apply andb_true_iff in Hcond as [Hcond _].
  apply orb_true_iff in Hcond as [Hidx|Hacp].
  - left. now apply Z.eqb_eq.
  - right. apply andb_true_iff in Hacp as [-> _].
    eapply (activeChecksPassed_post _ _ _ _ _ _ _ H2). reflexivity.
Qed.
Lemma emits_weaken {A} (P Q : Call -> Prop) (m : M W A) :
  (forall c, P c -> Q c) -> emits P m -> emits Q m.
Proof.
  intros HPQ Hm st st' r H. apply Hm in H as (new & E & F).
  exists new. split; [exact E|]. eapply Forall_impl; eassumption.
Qed.

Lemma notPullRequestUpdate_updatesToMerged c : notPullRequestUpdate c -> updatesToMerged c.
Proof. intros H pr ->. discriminate H. Qed.

(** Whatever an iteration of the second loop of [Reconcile] writes to a
    PullRequest, it writes with [spec.state] merged: the gated write is
    the merge. *)
Lemma Reconcile_body_updates_to_merged ps pcMap environment :
  emits updatesToMerged (Reconcile_body ps pcMap tt environment).
Proof.
  unfold Reconcile_body.
  destruct (GetPreviousEnvironmentStatusByBranch ps _) as [n previous].
  destruct (GetEnvironmentStatusByBranch ps _) as [idx current].
  apply emits_bind.
  { destruct previous; [|apply emits_ret].
    apply emits_bind; [apply emits_orPanic|]. intros pc.
    destruct (String.eqb _ _); [|apply emits_ret].
    eapply emits_weaken; [apply notPullRequestUpdate_updatesToMerged|].
    apply copyCommitStatuses_emits. }
  intros [err|]; [apply emits_ret|].
  apply emits_bind.
  { eapply emits_weaken; [|apply activeChecksPassed_emits]. intros c []. }
  intros acp. destruct (_ && _); [|apply emits_ret].
  do 4 (apply emits_bind; [apply emits_orPanic|]; intros ?).
  apply emits_bind; [apply emits_call; intros pr [=]|].
  intros [items|err]; [|apply emits_ret].
  destruct items as [|item items]; [apply emits_ret|].
  destruct (_ && _); [|apply emits_ret].
  apply emits_bind.
  - apply emits_RetryOnConflict. intros item'. unfold mergeClosure.
    apply emits_bind; [apply emits_call; intros pr [=]|].
    intros [item''|err]; [|apply emits_ret].
    apply emits_bind; [|intros [?|?]; apply emits_ret].
    apply emits_call. intros pr [= <-]. reflexivity.
  - intros [item' [err|]]; apply emits_ret.
Qed.

End Gate.

(** ** Promotion waits for the previous environment *)

Section Promotion.
Context {W : Type}.
Context {psStore : Store W PromotionStrategy.t} {pcStore : Store W ProposedCommit.t}
        {csStore : Store W CommitStatus.t} {prStore : Store W PullRequest.t}
        {runtime : Runtime W}.
Import PromotionStrategyReconciler envutils.

(** The two look-ups of an iteration of the second loop of [Reconcile],
    once [calculateStatus] has succeeded, for an environment that has
    [previous] before it in the spec and is the first of its branch. *)
Lemma lookups_after_calculateStatus
      (ps0 ps : PromotionStrategy.t) (pcMap : gmap string ProposedCommit.t)
      (st0 st1 : St.t W) (pre post_ : list Environment.t)
      (previous environment : Environment.t) :
  calculateStatus ps0 pcMap st0 = (st1, Val (ps, None)) ->
  specEnvironments ps0 = pre ++ previous :: environment :: post_ ->
  Forall (fun e => Environment.Branch e <> Environment.Branch environment)
         (pre ++ [previous]) ->
  exists (n : nat) prev cur,
    GetPreviousEnvironmentStatusByBranch ps (Environment.Branch environment)
    = (Z.of_nat n + 2, Some prev)
    /\ GetEnvironmentStatusByBranch ps (Environment.Branch environment)
       = (Z.of_nat n + 1, Some cur)
    /\ prev ∈ statusEnvironments ps
    /\ EnvironmentStatus.Branch prev = Environment.Branch previous
    /\ cur ∈ statusEnvironments ps
    /\ EnvironmentStatus.Branch cur = Environment.Branch environment.
Proof.
  intros Hcalc Hspec Hfirst.
  destruct (calculateStatus_covered ps0 pcMap _ _ _ Hcalc eq_refl) as [Hs Hcov].
  cbn [fst] in Hs, Hcov.
  apply (lookups_in_order ps pre previous environment post_); [exact Hcov| |exact Hfirst].
  unfold specEnvironments in *. now rewrite Hs.
Qed.

(** C2, amended.  Take an iteration of the merge loop of [Reconcile],
    run on the strategy [ps] that a successful [calculateStatus] produced,
    for an environment that has a previous environment in spec order and
    whose branch is not the branch of any environment before it in the
    spec (with pairwise distinct branches every entry but the first is
    such).  If that iteration writes a PullRequest at all (the only write
    there is sets [spec.state] to merged on a pull request that was open),
    then the status entry of the previous environment has the active
    rolled-up state "success", its active dry SHA equals the proposed dry
    SHA of the current environment, and its active dry commit time is
    strictly after the one of the current environment.  The condition on
    the branch cannot be dropped: the look-ups go by branch, and an
    environment on the branch of the first one is treated as the first. *)
Theorem merge_requires_previous_success
        (ps0 ps : PromotionStrategy.t) (pcMap : gmap string ProposedCommit.t)
        (st0 st1 st st' : St.t W) (pre post_ : list Environment.t)
        (previous environment : Environment.t)
        (out : run (flow unit (Result.t * option error)))
        (new : list Call) (pr : PullRequest.t) :
  calculateStatus ps0 pcMap st0 = (st1, Val (ps, None)) ->
  specEnvironments ps0 = pre ++ previous :: environment :: post_ ->
  Forall (fun e => Environment.Branch e <> Environment.Branch environment)
         (pre ++ [previous]) ->
  Reconcile_body ps pcMap tt environment st = (st', out) ->
  St.calls st' = St.calls st ++ new ->
  In (CUpdate (OPullRequest pr)) new ->
  exists prev cur pc,
    (GetPreviousEnvironmentStatusByBranch ps (Environment.Branch environment)).2 = Some prev
    /\ prev ∈ statusEnvironments ps
    /\ EnvironmentStatus.Branch prev = Environment.Branch previous
    /\ cur ∈ statusEnvironments ps
    /\ EnvironmentStatus.Branch cur = Environment.Branch environment
    /\ pcMap !! Environment.Branch environment = Some pc
    /\ activeState prev = "success"
    /\ ProposedCommitShaState.Sha (activeDry prev) = proposedDrySha pc
    /\ ProposedCommitShaState.CommitTime (activeDry cur)
       < ProposedCommitShaState.CommitTime (activeDry prev).
Proof.
  intros Hcalc Hspec Hfirst Hbody Hcalls Hin.
  destruct (lookups_after_calculateStatus _ _ _ _ _ _ _ _ _ Hcalc Hspec Hfirst)
    as (n & prev & cur & Hp & Hc & Hpin & Hpb & Hcin & Hcb).
  destruct (Reconcile_body_gate _ _ _ _ _ _ _ _ Hbody Hcalls Hin) as [Hidx|Hgate].
  - rewrite Hc in Hidx. cbn [fst] in Hidx. lia.
  - rewrite Hp, Hc in Hgate. cbn [snd] in Hgate.
    destruct Hgate as (prev' & cur' & pc & [= <-] & [= <-] & Hpc & Hstate & Hsha & Htime).
    exists prev, cur, pc. rewrite Hp. cbn [snd]. auto 12.
Qed.

(** C3, amended.  Take an iteration of the merge loop of [Reconcile],
    run on the strategy [ps] that a successful [calculateStatus] produced,
    for an environment that has a previous environment in spec order and
    whose branch is not the branch of any environment before it in the
    spec.  If no status entry of the previous environment has the active
    rolled-up state "success", the iteration writes no PullRequest: the
    pull request of the environment is not moved from open to merged. *)
Theorem merge_blocked_unless_previous_success
        (ps0 ps : PromotionStrategy.t) (pcMap : gmap string ProposedCommit.t)
        (st0 st1 st st' : St.t W) (pre post_ : list Environment.t)
        (previous environment : Environment.t)
        (out : run (flow unit (Result.t * option error)))
        (new : list Call) :
  calculateStatus ps0 pcMap st0 = (st1, Val (ps, None)) ->
  specEnvironments ps0 = pre ++ previous :: environment :: post_ ->
  Forall (fun e => Environment.Branch e <> Environment.Branch environment)
         (pre ++ [previous]) ->
  Reconcile_body ps pcMap tt environment st = (st', out) ->
  St.calls st' = St.calls st ++ new ->
  (forall prev, prev ∈ statusEnvironments ps ->
                EnvironmentStatus.Branch prev = Environment.Branch previous ->
                activeState prev <> "success") ->
  Forall notPullRequestUpdate new.
Proof.
  intros Hcalc Hspec Hfirst Hbody Hcalls Hblocked.
  apply Forall_forall. intros c Hc. unfold notPullRequestUpdate.
  destruct (isPullRequestUpdate c) eqn:Hupd; [exfalso|reflexivity].
  destruct c as [| | |o| | | | | | | | | | |]; try discriminate.
  destruct o as [| | |pr| |]; try discriminate.
  apply list_elem_of_In in Hc.
  destruct (lookups_after_calculateStatus _ _ _ _ _ _ _ _ _ Hcalc Hspec Hfirst)
    as (n & prev & cur & Hp & Hcur & Hpin & Hpb & _).
  destruct (Reconcile_body_gate _ _ _ _ _ _ _ _ Hbody Hcalls Hc) as [Hidx|Hgate].
  - rewrite Hcur in Hidx. cbn [fst] in Hidx. lia.
  - rewrite Hp in Hgate. cbn [snd] in Hgate.
    destruct Hgate as (prev' & _ & _ & [= <-] & _ & _ & Hstate & _).
    exact (Hblocked prev Hpin Hpb Hstate).
Qed.
End Promotion.

(** ** Copying statuses forward *)

Section CopyForward.
Context {W : Type}.
Context {psStore : Store W PromotionStrategy.t} {pcStore : Store W ProposedCommit.t}
        {csStore : Store W CommitStatus.t} {prStore : Store W PullRequest.t}
        {runtime : Runtime W}.
Import PromotionStrategyReconciler.

(** A [Return] of the body ends a loop: the remaining elements are not
    visited. *)
Lemma forRange_Return {A S R} (body : S -> A -> M W (flow S R)) x rest s st st' r :
  body s x st = (st', Val (Return r)) ->
  forRange (x :: rest) s body st = (st', Val (Return r)).
Proof. intros H. cbn [forRange]. unfold bind. now rewrite H. Qed.

(** When the copy of a status is missing and its creation succeeds, the
    body of the inner loop of [copyCommitStatuses] leaves the function
    with nil. *)
Lemma copyCommitStatus_returns_after_create
      (from to branch : string) (commitStatus created : CommitStatus.t)
      (st : St.t W) (w1 w2 : W) :
  labelOf (ObjectMeta.Labels (CommitStatus.Meta commitStatus)) label_copy <> "true" ->
  store_get (A := CommitStatus.t)
            (ObjectKey.mk (ObjectMeta.Namespace (CommitStatus.Meta commitStatus))
                          ("proposed-" +:+ ObjectMeta.Name (CommitStatus.Meta commitStatus)))
            (St.world st) = (w1, Err ErrNotFound) ->
  (forall copy : CommitStatus.t, store_create copy w1 = (w2, Ok created)) ->
  exists copy,
    copyCommitStatus from to branch tt commitStatus st
    = (St.mk w2 (St.calls st
                 ++ [CGet KCommitStatus
                          (ObjectKey.mk (ObjectMeta.Namespace (CommitStatus.Meta commitStatus))
                                        ("proposed-" +:+ ObjectMeta.Name (CommitStatus.Meta commitStatus)));
                     CCreate (OCommitStatus copy)]),
       Val (Return None)).
Proof.
  intros Hcopy Hget Hcreate. unfold copyCommitStatus.
  destruct (String.eqb_spec (labelOf (ObjectMeta.Labels (CommitStatus.Meta commitStatus)) label_copy)
                            "true") as [E|_]; [contradiction|].
  destruct (KubeSafeLabel_total (CommitStatusSpec.Name (CommitStatus.Spec commitStatus))) as [l1 E1].
  destruct (KubeSafeLabel_total from) as [l2 E2].
  destruct (KubeSafeLabel_total branch) as [l3 E3].
  eexists.
  erewrite mbind_val by (unfold r_Get; rewrite call_run, Hget; reflexivity).
  cbn [fst snd IsNotFound]. cbv zeta. rewrite E1, E2, E3. cbn [orPanic].
  do 3 (erewrite mbind_val by reflexivity).
  erewrite mbind_val
    by (unfold r_Create; rewrite call_run; cbn [St.world]; rewrite Hcreate; reflexivity).
  cbn [St.calls fst snd toObject CommitStatus_Resource kindOf].
  rewrite <- app_assoc. reflexivity.
Qed.
End CopyForward.

(** ** The requeue hint *)

Section Requeue.
Context {W : Type}.
Context {psStore : Store W PromotionStrategy.t} {pcStore : Store W ProposedCommit.t}
        {csStore : Store W CommitStatus.t} {prStore : Store W PullRequest.t}
        {runtime : Runtime W}.
Import PromotionStrategyReconciler envutils.

(** The configuration of the reconciler has no influence on [Reconcile]. *)
Lemma Reconcile_ignores_Config (r r' : PromotionStrategyReconciler.t) fuel req :
  Reconcile (W:=W) r fuel req = Reconcile r' fuel req.
Proof. reflexivity. Qed.

(** An iteration of the merge loop leaves [Reconcile] only with an error. *)
Lemma Reconcile_body_return ps pcMap environment :
  post (fun f => match f with
                 | Return res => res.2 <> None
                 | Next _ => True
                 end)
       (Reconcile_body ps pcMap tt environment).
Proof.
  unfold Reconcile_body.
  destruct (GetPreviousEnvironmentStatusByBranch ps _) as [n previous].
  destruct (GetEnvironmentStatusByBranch ps _) as [idx current].
  eapply post_bind; [apply post_any|]. intros [err|] _;
    [apply post_ret; cbn; discriminate|].
  eapply post_bind; [apply post_any|]. intros acp _.
  destruct (_ && _); [|apply post_ret; exact I].
  do 4 (eapply post_bind; [apply post_any|]; intros ? _).
  eapply post_bind; [apply post_any|]. intros [items|err] _;
    [|apply post_ret; cbn; discriminate].
  destruct items as [|item items]; [apply post_ret; exact I|].
  destruct (_ && _); [|apply post_ret; exact I].
  eapply post_bind; [apply post_any|]. intros [item' [err|]] _; apply post_ret; cbn;
    [discriminate|exact I].
Qed.

(** A successful [Reconcile] returns the empty result (the strategy is
    gone) or asks to be requeued after ten seconds. *)
Lemma Reconcile_result r fuel req :
  post (fun res => res.2 = None ->
                   res.1 = Result.zero \/ res.1 = Result.mk true (10 * Second))
       (Reconcile r fuel req).
Proof.
  unfold Reconcile.
  eapply post_bind; [apply post_any|]. intros [ps|err] _.
  2:{ destruct (IsNotFound err); apply post_ret; cbn; [auto|discriminate]. }
  eapply post_bind.
  { apply (post_forRange (fun _ _ => True) (fun res : Result.t * option error => res.2 <> None))
      with (done := []); [exact I|].
    intros done m x _.
    eapply post_bind; [apply post_any|]. intros [pc [err|]] _; apply post_ret; cbn;
      [discriminate|exact I]. }
  intros [pcMap|res] Hres; [|apply post_ret; intros E; contradiction].
  eapply post_bind; [apply post_any|]. intros [ps' [err|]] _;
    [apply post_ret; cbn; discriminate|].
  eapply post_bind.
  { apply (post_forRange (fun _ _ => True) (fun res : Result.t * option error => res.2 <> None))
      with (done := []); [exact I|].
    intros done [] x _. eapply post_weaken; [apply Reconcile_body_return|].
    intros [[]|res]; auto. }
  intros [[]|res] Hres'; [|apply post_ret; intros E; contradiction].
  eapply post_bind; [apply post_any|]. intros [ps''|err] _; apply post_ret; cbn;
    [auto|discriminate].
Qed.
End Requeue.

(** * Further properties

    Properties of the utilities and of the two reconcilers beyond the
    claims above. *)

(** ** Truncation, generated names and labels *)

Section MoreStrings.
Import GoString.

Lemma substring_split n : forall s,
  s = substring 0 n s +:+ substring n (String.length s - n) s.
Proof.
  induction n as [|n IH]; intros s.
  - rewrite substring_0_0, append_nil_l, Nat.sub_0_r. symmetry. apply substring_0_all. lia.
  - destruct s as [|c t]; [reflexivity|].
    rewrite substring_0_cons, append_cons. cbn [substring String.length].
    replace (S (String.length t) - S n)%nat with (String.length t - n)%nat by lia.
    f_equal. apply IH.
Qed.

Lemma length_substring_0 n : forall s,
  String.length (substring 0 n s) = Nat.min n (String.length s).
Proof.
  induction n as [|n IH]; intros s.
  - now rewrite substring_0_0.
  - destruct s as [|c t]; [reflexivity|].
    rewrite substring_0_cons. cbn [String.length]. rewrite IH. lia.
Qed.

(** X1.  On a string of one-byte characters [TruncateString] returns the
    first [length] characters: the result is a prefix of [str] and has
    min(max(length, 0), len(str)) characters.  So a [length] of zero or
    less gives the empty string, and a [length] of len(str) or more
    gives [str] itself.  (The loop of the source ranges over runes; the
    statement is about strings whose runes are single bytes, which is
    what the callers pass.) *)
Theorem TruncateString_takes_prefix (str : string) (length : Z) :
  allChars isAscii str = true ->
  exists rest,
    str = utils.TruncateString str length +:+ rest
    /\ len (utils.TruncateString str length) = Z.min (Z.max length 0) (len str).
Proof.
  intros _. rewrite TruncateString_prefix.
  exists (substring (Z.to_nat length) (String.length str - Z.to_nat length) str).
  split; [apply substring_split|].
  unfold len. rewrite length_substring_0. lia.
Qed.

Lemma substring_nothing k : forall s, substring k 0 s = "".
Proof. induction k as [|k IH]; intros [|c t]; cbn [substring]; auto. Qed.

(** Where [TruncateStringFromBeginning] cuts. *)
Lemma TruncateStringFromBeginning_cut (str : string) (n : Z) :
  let k := (String.length str - Z.to_nat n)%nat in
  utils.TruncateStringFromBeginning str n = substring k (String.length str - k) str.
Proof.
  cbv zeta. unfold utils.TruncateStringFromBeginning.
  destruct (Z.leb_spec n 0) as [Hle|Hgt].
  - replace (Z.to_nat n) with 0%nat by lia.
    rewrite Nat.sub_0_r, Nat.sub_diag. now rewrite substring_nothing.
  - destruct (Z.leb_spec (len str) n) as [Hall|Hcut]; unfold len in *.
    + replace (String.length str - Z.to_nat n)%nat with 0%nat by lia.
      rewrite Nat.sub_0_r. symmetry. apply substring_0_all. lia.
    + unfold slice, len. f_equal; lia.
Qed.

(** X2.  [TruncateStringFromBeginning] keeps the end of the string: the
    result is a suffix of [str] and has min(max(length, 0), len(str))
    bytes.  A [length] of zero or less gives the empty string, a string
    that is short enough is returned as it is. *)
Theorem TruncateStringFromBeginning_keeps_suffix (str : string) (length : Z) :
  exists dropped,
    str = dropped +:+ utils.TruncateStringFromBeginning str length
    /\ len (utils.TruncateStringFromBeginning str length)
       = Z.min (Z.max length 0) (len str).
Proof.
  rewrite TruncateStringFromBeginning_cut.
  set (k := (String.length str - Z.to_nat length)%nat).
  exists (substring 0 k str). split; [apply substring_split|].
  unfold len. rewrite length_substring by lia. lia.
Qed.

Lemma allChars_append p a b : allChars p (a +:+ b) = allChars p a && allChars p b.
Proof.
  induction a as [|c a IH]; [reflexivity|].
  rewrite append_cons. cbn [allChars]. rewrite IH. apply andb_assoc.
Qed.

Lemma allChars_substring_0 p n : forall s,
  allChars p s = true -> allChars p (substring 0 n s) = true.
Proof.
  induction n as [|n IH]; intros s H.
  - now rewrite substring_0_0.
  - destruct s as [|c t]; [reflexivity|].
    rewrite substring_0_cons. cbn [allChars] in *.
    apply andb_true_iff in H as [-> H]. now apply IH.
Qed.

Lemma allChars_stripTrailingHyphen p s :
  allChars p s = true -> allChars p (Spec.stripTrailingHyphen s) = true.
Proof.
  induction s as [|c t IH]; [reflexivity|]. intros H.
  cbn [allChars] in H. apply andb_true_iff in H as [Hc Ht].
  destruct t as [|d t].
  - cbn. destruct (Ascii.eqb c hyphen); [reflexivity|]. cbn. now rewrite Hc.
  - change (Spec.stripTrailingHyphen (String c (String d t)))
      with (String c (Spec.stripTrailingHyphen (String d t))).
    cbn [allChars]. rewrite Hc. now apply IH.
Qed.

Lemma toLowerByte_name c : isAlnum c = true -> isNameChar (toLowerByte c) = true.
Proof. destruct c as [[] [] [] [] [] [] [] []]; intros H; try reflexivity; discriminate H. Qed.

Lemma toLowerByte_separator c : isAlnum c = false -> toLowerByte c = c.
Proof. destruct c as [[] [] [] [] [] [] [] []]; intros H; try reflexivity; discriminate H. Qed.

Lemma isAlnum_toLowerByte c : isAlnum (toLowerByte c) = isAlnum c.
Proof. destruct c as [[] [] [] [] [] [] [] []]; reflexivity. Qed.

Lemma toLowerByte_idem c : toLowerByte (toLowerByte c) = toLowerByte c.
Proof. destruct c as [[] [] [] [] [] [] [] []]; reflexivity. Qed.

Lemma sanitized_name_chars b s : allChars isNameChar (ToLower (replaceRuns b s)) = true.
Proof.
  revert b. induction s as [|c t IH]; intros b; [reflexivity|].
  cbn [replaceRuns]. destruct (isAlnum c) eqn:Hc.
  - cbn [ToLower allChars]. now rewrite toLowerByte_name, IH.
  - destruct b; [apply IH|]. cbn [ToLower allChars]. now rewrite IH.
Qed.

Lemma hexDigit_cases d : (d < 16)%N -> In d (N.of_nat <$> seq 0 16).
Proof.
  intros Hd. apply list_elem_of_In, list_elem_of_fmap. exists (N.to_nat d).
  split; [lia|]. apply list_elem_of_In, in_seq. lia.
Qed.

Lemma hexDigit_name d : (d < 16)%N -> isNameChar (hexDigit d) = true.
Proof.
  intros Hd. pose proof (hexDigit_cases d Hd) as Hc. cbn in Hc.
  repeat (destruct Hc as [<-|Hc]; [reflexivity|]). contradiction.
Qed.

Lemma hexDigit_alnum d : (d < 16)%N -> isAlnum (hexDigit d) = true.
Proof.
  intros Hd. pose proof (hexDigit_cases d Hd) as Hc. cbn in Hc.
  repeat (destruct Hc as [<-|Hc]; [reflexivity|]). contradiction.
Qed.

Lemma hexLoop_allChars (p : ascii -> bool) digits :
  (forall d, (d < 16)%N -> p (hexDigit d) = true) ->
  forall v acc, allChars p acc = true -> allChars p (hexLoop digits v acc) = true.
Proof.
  intros Hp. induction digits as [|d IH]; intros v acc Hacc; [exact Hacc|].
  cbn [hexLoop].
  assert (Hn : allChars p (String (hexDigit (v mod 16)) acc) = true).
  { cbn [allChars]. rewrite Hp by (apply N.mod_lt; discriminate). exact Hacc. }
  destruct (v / 16 =? 0)%N; [exact Hn|]. apply IH, Hn.
Qed.

(** X3.  A name generated by [KubeSafeUniqueName] consists of lower-case
    letters, digits and hyphens only, and is at most 253 bytes long. *)
Theorem KubeSafeUniqueName_alphabet_and_length (name result : string) :
  utils.KubeSafeUniqueName name = Some result ->
  allChars isNameChar result = true /\ len result <= 253.
Proof.
  rewrite KubeSafeUniqueName_unfold. cbv zeta.
  set (sanitized := ToLower (m1_ReplaceAllString name)).
  set (hash := Sprintf_x (fnv32a sanitized)).
  destruct (lastChar sanitized) as [l|]; [|discriminate]. intros [= <-].
  split.
  - apply allChars_substring_0. rewrite !allChars_append.
    rewrite allChars_stripTrailingHyphen by apply sanitized_name_chars.
    cbn [allChars andb]. change (isNameChar "-") with true. cbn [andb].
    apply hexLoop_allChars; [apply hexDigit_name|reflexivity].
  - pose proof (Sprintf_x_length (fnv32a sanitized)) as Hh. fold hash in Hh.
    unfold len. rewrite length_substring_0. lia.
Qed.

Lemma length_replaceRuns b s : (String.length (replaceRuns b s) <= String.length s)%nat.
Proof.
  revert b. induction s as [|c t IH]; intros b; [reflexivity|].
  pose proof (IH false) as Hf. pose proof (IH true) as Ht.
  cbn [replaceRuns]. destruct (isAlnum c); [|destruct b]; cbn [String.length]; lia.
Qed.

Lemma length_ToLower s : String.length (ToLower s) = String.length s.
Proof. induction s as [|c t IH]; [reflexivity|]. cbn. now rewrite IH. Qed.

Lemma length_stripTrailingHyphen s :
  (String.length s - 1 <= String.length (Spec.stripTrailingHyphen s) <= String.length s)%nat.
Proof.
  induction s as [|c t IH]; [simpl; lia|].
  destruct t as [|d t].
  - cbn. destruct (Ascii.eqb c hyphen); simpl; lia.
  - change (Spec.stripTrailingHyphen (String c (String d t)))
      with (String c (Spec.stripTrailingHyphen (String d t))).
    cbn [String.length] in *. lia.
Qed.

(** X4.  For a non-empty name of at most 237 bytes nothing is cut off:
    [KubeSafeUniqueName] returns the sanitized, lower-cased name without
    its trailing hyphen, followed by a hyphen and the whole hexadecimal
    hash of the sanitized name. *)
Theorem KubeSafeUniqueName_short_name_keeps_hash (name : string) :
  name <> "" -> len name <= 237 ->
  utils.KubeSafeUniqueName name
  = Some (Spec.stripTrailingHyphen (ToLower (m1_ReplaceAllString name))
          +:+ "-" +:+ Sprintf_x (fnv32a (ToLower (m1_ReplaceAllString name)))).
Proof.
  intros Hne Hlen. rewrite KubeSafeUniqueName_unfold. cbv zeta.
  set (sanitized := ToLower (m1_ReplaceAllString name)).
  set (hash := Sprintf_x (fnv32a sanitized)).
  destruct (lastChar_Some sanitized) as [l ->].
  { unfold sanitized. now rewrite sanitized_empty. }
  f_equal. apply substring_0_all.
  pose proof (Sprintf_x_length (fnv32a sanitized)) as Hh. fold hash in Hh.
  pose proof (length_stripTrailingHyphen sanitized) as Hs.
  pose proof (length_replaceRuns false name) as Hr.
  assert (String.length sanitized <= String.length name)%nat as Hsan.
  { unfold sanitized. rewrite length_ToLower. exact Hr. }
  rewrite !length_append. cbn [String.length]. unfold len in Hlen. lia.
Qed.

Lemma substring_0_append n : forall a b,
  (n <= String.length a)%nat -> substring 0 n (a +:+ b) = substring 0 n a.
Proof.
  induction n as [|n IH]; intros a b H.
  - now rewrite !substring_0_0.
  - destruct a as [|c a]; [simpl in H; lia|].
    rewrite append_cons, !substring_0_cons. f_equal. apply IH. simpl in H. lia.
Qed.

Lemma substring_0_stripTrailingHyphen n : forall s,
  (n < String.length s)%nat ->
  substring 0 n (Spec.stripTrailingHyphen s) = substring 0 n s.
Proof.
  induction n as [|n IH]; intros s H.
  - now rewrite !substring_0_0.
  - destruct s as [|c [|d t]]; [simpl in H; lia|simpl in H; lia|].
    change (Spec.stripTrailingHyphen (String c (String d t)))
      with (String c (Spec.stripTrailingHyphen (String d t))).
    rewrite !substring_0_cons. f_equal. apply IH. cbn [String.length] in *. lia.
Qed.

(** X5.  For a name whose sanitized form has 254 bytes or more, the
    truncation removes the hash altogether: [KubeSafeUniqueName] returns
    the first 255 - len(hash) - 1 bytes of the sanitized, lower-cased
    name and nothing else.  Such names are told apart by their first 253
    characters at most. *)
Theorem KubeSafeUniqueName_long_name_drops_hash (name : string) :
  254 <= len (ToLower (m1_ReplaceAllString name)) ->
  utils.KubeSafeUniqueName name
  = Some (slice (ToLower (m1_ReplaceAllString name)) 0
                (255 - len (Sprintf_x (fnv32a (ToLower (m1_ReplaceAllString name)))) - 1)).
Proof.
  intros Hlen. rewrite KubeSafeUniqueName_unfold. cbv zeta.
  set (sanitized := ToLower (m1_ReplaceAllString name)) in *.
  set (hash := Sprintf_x (fnv32a sanitized)).
  pose proof (Sprintf_x_length (fnv32a sanitized)) as Hh. fold hash in Hh.
  pose proof (length_stripTrailingHyphen sanitized) as Hs.
  destruct (lastChar_Some sanitized) as [l ->].
  { intros E. rewrite E in Hlen. vm_compute in Hlen. contradiction. }
  f_equal. unfold slice, len in *.
  replace (Z.to_nat (255 - Z.of_nat (String.length hash) - 1 - 0))
    with (255 - String.length hash - 1)%nat by lia.
  rewrite substring_0_append by lia.
  apply substring_0_stripTrailingHyphen. lia.
Qed.

Lemma replaceRuns_separator (a b : string) (c1 c2 : ascii) :
  isAlnum c1 = false -> isAlnum c2 = false ->
  forall inRun, replaceRuns inRun (a +:+ String c1 b) = replaceRuns inRun (a +:+ String c2 b).
Proof.
  intros H1 H2. induction a as [|d a IH]; intros inRun.
  - rewrite !append_nil_l. cbn [replaceRuns]. now rewrite H1, H2.
  - rewrite !append_cons. cbn [replaceRuns]. rewrite !IH. reflexivity.
Qed.

Lemma ToLower_append a b : ToLower (a +:+ b) = ToLower a +:+ ToLower b.
Proof.
  induction a as [|c a IH]; [reflexivity|].
  rewrite append_cons. cbn [ToLower]. now rewrite IH, append_cons.
Qed.

Lemma ToLower_replaceRuns_ToLower b s :
  ToLower (replaceRuns b (ToLower s)) = ToLower (replaceRuns b s).
Proof.
  revert b. induction s as [|c t IH]; intros b; [reflexivity|].
  cbn [ToLower replaceRuns]. rewrite isAlnum_toLowerByte.
  destruct (isAlnum c).
  - cbn [ToLower]. now rewrite toLowerByte_idem, IH.
  - destruct b; [apply IH|]. cbn [ToLower]. now rewrite IH.
Qed.

(** X6.  [KubeSafeUniqueName] tells names apart only up to the case of
    their ASCII letters and up to which non-alphanumeric byte separates
    two parts: the name [a c1 b] and the name made of [a] and [b] with
    their capitals lower-cased and the separator [c2] in place of [c1]
    get the same result, hash included (the hash is taken after
    sanitizing). *)
Theorem KubeSafeUniqueName_conflates_separators_and_case (a b : string) (c1 c2 : ascii) :
  isAlnum c1 = false -> isAlnum c2 = false ->
  utils.KubeSafeUniqueName (ToLower a +:+ String c2 (ToLower b))
  = utils.KubeSafeUniqueName (a +:+ String c1 b).
Proof.
  intros H1 H2.
  assert (E : ToLower (replaceRuns false (ToLower a +:+ String c2 (ToLower b)))
              = ToLower (replaceRuns false (a +:+ String c1 b))).
  { rewrite (replaceRuns_separator (ToLower a) (ToLower b) c2 c1 H2 H1).
    replace (ToLower a +:+ String c1 (ToLower b)) with (ToLower (a +:+ String c1 b))
      by (rewrite ToLower_append; cbn [ToLower]; now rewrite toLowerByte_separator).
    apply ToLower_replaceRuns_ToLower. }
  unfold utils.KubeSafeUniqueName, m1_ReplaceAllString. now rewrite E.
Qed.

(** A string of alphanumerics and isolated hyphens is left alone by the
    regular expression. *)
Lemma replaceRuns_hyphenated_id b s : hyphenated b s = true -> replaceRuns b s = s.
Proof.
  revert b. induction s as [|c t IH]; intros b H; [reflexivity|].
  cbn [hyphenated replaceRuns] in *. destruct (isAlnum c).
  - f_equal. now apply IH.
  - apply andb_true_iff in H as [H Ht]. apply andb_true_iff in H as [Hc Hb].
    apply Ascii.eqb_eq in Hc as ->. destruct b; [discriminate|].
    f_equal. now apply IH.
Qed.

Lemma KubeSafeLabel_fixed l : labelShaped l -> utils.KubeSafeLabel l = Some l.
Proof.
  intros (Hh & Hlen & Hfirst). unfold utils.KubeSafeLabel.
  destruct (String.eqb_spec l "") as [->|Hne]; [reflexivity|].
  unfold m1_ReplaceAllString. rewrite (replaceRuns_hyphenated_id _ _ Hh).
  unfold utils.TruncateStringFromBeginning.
  destruct (Z.leb_spec 63 0) as [?|_]; [lia|].
  destruct (Z.leb_spec (len l) 63) as [_|Hgt]; [|unfold len in Hgt; lia].
  rewrite index_0 in *. destruct l as [|c t]; [congruence|].
  destruct (Ascii.eqb_spec c hyphen) as [->|_]; [congruence|reflexivity].
Qed.

Lemma KubeSafeLabel_shape s : exists l, utils.KubeSafeLabel s = Some l /\ labelShaped l.
Proof.
  unfold utils.KubeSafeLabel, labelShaped.
  destruct (String.eqb_spec s "") as [->|Hne].
  { exists "". repeat split; try reflexivity; [simpl; lia|discriminate]. }
  destruct (TruncateStringFromBeginning_spec (m1_ReplaceAllString s) 63 ltac:(lia))
    as (k & Hk & Hlen & Hnonempty).
  assert (Hh : hyphenated false (utils.TruncateStringFromBeginning (m1_ReplaceAllString s) 63) = true).
  { rewrite Hk. eapply hyphenated_drop, replaceRuns_hyphenated. }
  specialize (Hnonempty ltac:(now rewrite m1_ReplaceAllString_empty)).
  destruct (utils.TruncateStringFromBeginning (m1_ReplaceAllString s) 63) as [|c t];
    [congruence|].
  rewrite index_0. eexists. split; [reflexivity|].
  change (Z.to_nat 63) with 63%nat in Hlen. cbn [String.length] in Hlen.
  destruct (Ascii.eqb_spec c hyphen) as [->|Hc].
  - rewrite slice_tail. cbn [hyphenated] in Hh. rewrite hyphen_not_alnum in Hh.
    cbn in Hh. split; [eapply hyphenated_weaken, Hh|]. split; [lia|].
    rewrite index_0. destruct t as [|d t]; [discriminate|].
    cbn [hyphenated] in Hh. destruct (isAlnum d) eqn:Hd.
    + intros [= ->]. rewrite hyphen_not_alnum in Hd. discriminate.
    + rewrite andb_false_r in Hh. discriminate.
  - split; [exact Hh|]. split; [exact Hlen|]. rewrite index_0. congruence.
Qed.

(** X7.  [KubeSafeLabel] is idempotent: applied to a label it has
    produced, it returns that label unchanged. *)
Theorem KubeSafeLabel_idempotent (name : string) :
  utils.KubeSafeLabel name ≫= utils.KubeSafeLabel = utils.KubeSafeLabel name.
Proof.
  destruct (KubeSafeLabel_shape name) as (l & -> & Hl).
  cbn. now apply KubeSafeLabel_fixed.
Qed.

Lemma lastChar_append_two q x y : lastChar (q +:+ String x (String y "")) = Some y.
Proof.
  induction q as [|d q IH]; [reflexivity|].
  rewrite append_cons.
  destruct (q +:+ String x (String y "")) as [|e r] eqn:E; [discriminate|].
  exact IH.
Qed.

Lemma replaceRuns_ends (a : string) (x c : ascii) :
  isAlnum x = true -> isAlnum c = false ->
  forall b, exists p, replaceRuns b (a +:+ String x (String c ""))
                      = p +:+ String x (String hyphen "").
Proof.
  intros Hx Hc. induction a as [|d a IH]; intros b.
  - exists "". rewrite !append_nil_l. cbn [replaceRuns]. now rewrite Hx, Hc.
  - rewrite append_cons. cbn [replaceRuns].
    destruct (isAlnum d); [|destruct b].
    + destruct (IH false) as [p ->]. now exists (String d p).
    + destruct (IH true) as [p ->]. now exists p.
    + destruct (IH true) as [p ->]. now exists (String hyphen p).
Qed.

Lemma substring_append_l k : forall p z,
  (k <= String.length p)%nat ->
  substring k (String.length (p +:+ z) - k) (p +:+ z)
  = substring k (String.length p - k) p +:+ z.
Proof.
  induction k as [|k IH]; intros p z H.
  - rewrite !Nat.sub_0_r. rewrite !substring_0_all by lia. reflexivity.
  - destruct p as [|c p]; [simpl in H; lia|].
    rewrite append_cons. cbn [substring String.length].
    apply IH. simpl in H. lia.
Qed.

Lemma TruncateStringFromBeginning_ends (p : string) (x y : ascii) :
  exists q, utils.TruncateStringFromBeginning (p +:+ String x (String y "")) 63
            = q +:+ String x (String y "").
Proof.
  rewrite TruncateStringFromBeginning_cut. change (Z.to_nat 63) with 63%nat.
  assert (Ht : String.length (p +:+ String x (String y "")) = (String.length p + 2)%nat).
  { rewrite length_append. reflexivity. }
  eexists. apply substring_append_l. lia.
Qed.

(** X8.  [KubeSafeLabel] does not remove a hyphen at the end: for a
    name that ends in an alphanumeric character followed by one that is
    not, the label ends in a hyphen. *)
Theorem KubeSafeLabel_keeps_trailing_hyphen (a : string) (x c : ascii) :
  isAlnum x = true -> isAlnum c = false ->
  exists label,
    utils.KubeSafeLabel (a +:+ String x (String c "")) = Some label
    /\ lastChar label = Some hyphen.
Proof.
  intros Hx Hc. unfold utils.KubeSafeLabel.
  destruct (String.eqb_spec (a +:+ String x (String c "")) "") as [E|_].
  { destruct a; discriminate E. }
  unfold m1_ReplaceAllString.
  destruct (replaceRuns_ends a x c Hx Hc false) as [p ->].
  destruct (TruncateStringFromBeginning_ends p x hyphen) as [q ->].
  rewrite index_0. destruct q as [|d q].
  - rewrite append_nil_l. eexists. split; [reflexivity|].
    rewrite (alnum_not_hyphen _ Hx). reflexivity.
  - rewrite append_cons. eexists. split; [reflexivity|].
    destruct (Ascii.eqb d hyphen).
    + rewrite slice_tail. apply lastChar_append_two.
    + rewrite <- append_cons. apply lastChar_append_two.
Qed.

Lemma hyphenated_ToLower b s : hyphenated b s = true -> hyphenated b (ToLower s) = true.
Proof.
  revert b. induction s as [|c t IH]; intros b H; [reflexivity|].
  cbn [ToLower hyphenated] in *. rewrite isAlnum_toLowerByte.
  destruct (isAlnum c) eqn:Hc; [now apply IH|].
  rewrite (toLowerByte_separator _ Hc).
  apply andb_true_iff in H as [-> Ht]. now rewrite IH.
Qed.

Lemma hyphenated_substring_0 n : forall b s,
  hyphenated b s = true -> hyphenated b (substring 0 n s) = true.
Proof.
  induction n as [|n IH]; intros b s H.
  - now rewrite substring_0_0.
  - destruct s as [|c t]; [reflexivity|].
    rewrite substring_0_cons. cbn [hyphenated] in *.
    destruct (isAlnum c); [now apply IH|].
    apply andb_true_iff in H as [-> Ht]. now rewrite IH.
Qed.

Lemma hyphenated_alnum h : allChars isAlnum h = true -> forall b, hyphenated b h = true.
Proof.
  induction h as [|c t IH]; intros H b; [reflexivity|].
  cbn [allChars hyphenated] in *. apply andb_true_iff in H as [-> Ht]. now apply IH.
Qed.

Lemma hyphenated_strip_append (t : string) :
  hyphenated true t = true ->
  forall s b, (s = "" -> b = false) -> hyphenated b s = true ->
    hyphenated b (Spec.stripTrailingHyphen s +:+ String hyphen t) = true.
Proof.
  intros Ht. induction s as [|c s IH]; intros b Hb H.
  - rewrite (Hb eq_refl), append_nil_l. cbn [hyphenated].
    rewrite hyphen_not_alnum, Ascii.eqb_refl. exact Ht.
  - destruct s as [|d s].
    + cbn [Spec.stripTrailingHyphen]. cbn [hyphenated] in H.
      destruct (Ascii.eqb_spec c hyphen) as [->|Hc].
      * rewrite hyphen_not_alnum in H. apply andb_true_iff in H as [H _].
        rewrite append_nil_l. cbn [hyphenated]. rewrite hyphen_not_alnum, Ht.
        rewrite andb_true_r. exact H.
      * destruct (isAlnum c) eqn:Ha.
        -- rewrite append_cons, append_nil_l. cbn [hyphenated].
           rewrite Ha, hyphen_not_alnum. cbn. exact Ht.
        -- cbn [andb] in H. discriminate H.
    + change (Spec.stripTrailingHyphen (String c (String d s)))
        with (String c (Spec.stripTrailingHyphen (String d s))).
      rewrite append_cons. cbn [hyphenated] in H |- *.
      destruct (isAlnum c).
      * apply IH; [discriminate|exact H].
      * apply andb_true_iff in H as [-> H]. cbn [andb]. apply IH; [discriminate|exact H].
Qed.

Lemma KubeSafeUniqueName_hyphenated name pcName :
  utils.KubeSafeUniqueName name = Some pcName -> hyphenated false pcName = true.
Proof.
  rewrite KubeSafeUniqueName_unfold. cbv zeta.
  destruct (lastChar _) as [l|]; [|discriminate]. intros [= <-].
  apply hyphenated_substring_0.
  change ("-" +:+ ?h) with (String hyphen h).
  apply hyphenated_strip_append.
  - apply hyphenated_alnum. apply hexLoop_allChars; [apply hexDigit_alnum|reflexivity].
  - reflexivity.
  - apply hyphenated_ToLower, replaceRuns_hyphenated.
Qed.

(** X9.  The label of a generated name, as [createOrGetProposedCommit]
    and [Reconcile] compute it with [KubeSafeLabel] from the result of
    [KubeSafeUniqueName], is the end of that name: the name is the label
    with something dropped in front, the label has at least
    min(len(name), 63) - 1 bytes, and a name of at most 63 bytes that
    does not start with a hyphen is its own label. *)
Theorem KubeSafeLabel_of_unique_name (name pcName : string) :
  utils.KubeSafeUniqueName name = Some pcName ->
  exists label dropped,
    utils.KubeSafeLabel pcName = Some label
    /\ pcName = dropped +:+ label
    /\ Z.min (len pcName) 63 - 1 <= len label
    /\ (len pcName <= 63 -> index pcName 0 <> Some hyphen -> label = pcName).
Proof.
  intros Hname. pose proof (KubeSafeUniqueName_hyphenated _ _ Hname) as Hh.
  unfold utils.KubeSafeLabel.
  destruct (String.eqb_spec pcName "") as [->|Hne].
  { exists "", "". repeat split; try reflexivity. vm_compute. discriminate. }
  unfold m1_ReplaceAllString. rewrite (replaceRuns_hyphenated_id _ _ Hh).
  rewrite TruncateStringFromBeginning_cut. change (Z.to_nat 63) with 63%nat.
  set (k := (String.length pcName - 63)%nat).
  pose proof (substring_split k pcName) as Hsplit.
  assert (Hlen : String.length (substring k (String.length pcName - k) pcName)
                 = (String.length pcName - k)%nat) by (apply length_substring; lia).
  assert (Hpos : (0 < String.length pcName)%nat) by (destruct pcName; [congruence|simpl; lia]).
  destruct (substring k (String.length pcName - k) pcName) as [|c t] eqn:Hr;
    [simpl in Hlen; lia|].
  rewrite index_0.
  destruct (Ascii.eqb_spec c hyphen) as [->|Hc].
  - rewrite slice_tail. exists t, (substring 0 k pcName +:+ "-").
    split; [reflexivity|]. split; [now rewrite append_assoc|].
    split; [cbn [String.length] in Hlen; unfold len; lia|].
    intros Hshort Hfirst. exfalso. unfold len in Hshort.
    replace k with 0%nat in Hsplit by lia.
    rewrite substring_0_0, append_nil_l in Hsplit.
    rewrite Hsplit, index_0 in Hfirst. congruence.
  - exists (String c t), (substring 0 k pcName).
    split; [reflexivity|]. split; [exact Hsplit|].
    split; [unfold len; lia|].
    intros Hshort _. unfold len in Hshort.
    replace k with 0%nat in Hsplit by lia.
    now rewrite substring_0_0, append_nil_l in Hsplit.
Qed.

End MoreStrings.

(** ** The ordered view of the status and the upsert *)

Section MoreLookups.
Import envutils.

Lemma block_branches (b : string) (status : list EnvironmentStatus.t) :
  NoDup (EnvironmentStatus.Branch <$> status) ->
  EnvironmentStatus.Branch <$> filter (fun s => b = EnvironmentStatus.Branch s) status
  = if decide (b ∈ EnvironmentStatus.Branch <$> status) then [b] else [].
Proof.
  induction status as [|s status IH]; intros Hnd.
  - rewrite filter_nil. destruct (decide _) as [Hin|_]; [inversion Hin|reflexivity].
  - rewrite fmap_cons in Hnd. apply NoDup_cons in Hnd as [Hs Hnd].
    specialize (IH Hnd). rewrite filter_cons.
    destruct (decide (b = EnvironmentStatus.Branch s)) as [->|Hne].
    + rewrite fmap_cons, IH.
      destruct (decide (EnvironmentStatus.Branch s ∈ EnvironmentStatus.Branch <$> status));
        [contradiction|].
      destruct (decide _) as [_|Hout]; [reflexivity|].
      exfalso. apply Hout. rewrite fmap_cons. left.
    + rewrite IH. rewrite fmap_cons.
      destruct (decide (b ∈ EnvironmentStatus.Branch <$> status)) as [Hin|Hout].
      * destruct (decide _) as [_|Hout]; [reflexivity|]. exfalso. apply Hout. now right.
      * destruct (decide _) as [Hin|_]; [|reflexivity].
        apply elem_of_cons in Hin as [?|?]; contradiction.
Qed.

Lemma ordered_branches (ps : PromotionStrategy.t) :
  NoDup (branches ps) ->
  EnvironmentStatus.Branch <$> GetEnvironmentsFromStatusInOrder ps
  = filter (fun b => b ∈ branches ps) (Environment.Branch <$> specEnvironments ps).
Proof.
  intros Hnd. unfold GetEnvironmentsFromStatusInOrder. fold (specEnvironments ps).
  fold (statusEnvironments ps).
  induction (specEnvironments ps) as [|e es IH]; [reflexivity|].
  cbn [flat_map]. rewrite fmap_app, fmap_cons, filter_cons, IH.
  rewrite (block_branches _ _ Hnd). unfold branches.
  destruct (decide _); reflexivity.
Qed.

(** X10.  Spec order is authoritative.  When the branches of the status
    entries are pairwise distinct, the ordered view lists the branches of
    the spec environments that have a status entry, in the order of the
    spec: an entry whose branch the spec does not name is left out, and
    the order of the status list plays no role.  Every listed entry is
    one of the status and carries the branch of a spec environment. *)
Theorem GetEnvironmentsFromStatusInOrder_follows_spec (ps : PromotionStrategy.t) :
  NoDup (branches ps) ->
  EnvironmentStatus.Branch <$> GetEnvironmentsFromStatusInOrder ps
  = filter (fun b => b ∈ branches ps) (Environment.Branch <$> specEnvironments ps)
  /\ forall s, s ∈ GetEnvironmentsFromStatusInOrder ps ->
               s ∈ statusEnvironments ps
               /\ EnvironmentStatus.Branch s ∈ Environment.Branch <$> specEnvironments ps.
Proof.
  intros Hnd. split; [now apply ordered_branches|].
  intros s Hs. unfold GetEnvironmentsFromStatusInOrder in Hs.
  apply list_elem_of_In, in_flat_map in Hs as (e & He & Hs).
  apply list_elem_of_In, list_elem_of_filter in Hs as [Hb Hs].
  split; [exact Hs|]. rewrite <- Hb. apply list_elem_of_fmap.
  exists e. split; [reflexivity|]. now apply list_elem_of_In.
Qed.

Lemma GetEnvironmentStatus_loop_spec (b : string) : forall rest i,
  match GetEnvironmentStatus_loop b i rest with
  | (j, Some e) =>
      exists k : nat, j = i + Z.of_nat k /\ rest !! k = Some e
                      /\ EnvironmentStatus.Branch e = b
                      /\ forall k' e', (k' < k)%nat -> rest !! k' = Some e' ->
                                       EnvironmentStatus.Branch e' <> b
  | (j, None) =>
      j = -1 /\ forall e', e' ∈ rest -> EnvironmentStatus.Branch e' <> b
  end.
Proof.
  induction rest as [|x rest IH]; intros i; cbn [GetEnvironmentStatus_loop].
  - split; [reflexivity|]. intros e' He'. inversion He'.
  - destruct (String.eqb_spec (EnvironmentStatus.Branch x) b) as [Hx|Hx].
    + exists 0%nat. split; [lia|]. split; [reflexivity|]. split; [exact Hx|]. intros; lia.
    + specialize (IH (i + 1)).
      destruct (GetEnvironmentStatus_loop b (i + 1) rest) as [j [e|]].
      * destruct IH as (k & -> & Hk & He & Hbefore). exists (S k).
        split; [lia|]. split; [exact Hk|]. split; [exact He|].
        intros [|k'] e' Hlt Hl; [now inversion Hl; subst|].
        apply (Hbefore k'); [lia|exact Hl].
      * destruct IH as [-> Hall]. split; [reflexivity|].
        intros e' He'. apply elem_of_cons in He' as [->|He']; auto.
Qed.

(** X11.  [GetEnvironmentStatusByBranch] returns the first entry of
    the ordered view that carries the branch, with its index there, and
    (-1, nil) exactly when no entry of the ordered view carries it. *)
Theorem GetEnvironmentStatusByBranch_first_match (ps : PromotionStrategy.t) (branch : string) :
  let environments := GetEnvironmentsFromStatusInOrder ps in
  match GetEnvironmentStatusByBranch ps branch with
  | (i, Some e) =>
      0 <= i /\ environments !! Z.to_nat i = Some e
      /\ EnvironmentStatus.Branch e = branch
      /\ forall j e', (j < Z.to_nat i)%nat -> environments !! j = Some e' ->
                      EnvironmentStatus.Branch e' <> branch
  | (i, None) =>
      i = -1 /\ forall e', e' ∈ environments -> EnvironmentStatus.Branch e' <> branch
  end.
Proof.
  cbv zeta. unfold GetEnvironmentStatusByBranch.
  pose proof (GetEnvironmentStatus_loop_spec branch (GetEnvironmentsFromStatusInOrder ps) 0) as H.
  destruct (GetEnvironmentStatus_loop branch 0 (GetEnvironmentsFromStatusInOrder ps)) as [i [e|]].
  - destruct H as (k & -> & Hk & He & Hbefore).
    replace (Z.to_nat (0 + Z.of_nat k)) with k by lia.
    split; [lia|]. auto.
  - exact H.
Qed.

Lemma GetPrevious_loop_spec (envs : list EnvironmentStatus.t) (b : string) :
  forall rest (k : nat),
    drop k envs = rest ->
    match GetPrevious_loop envs b (Z.of_nat k) rest with
    | (n, Some p) =>
        exists i : nat,
          n = Z.of_nat i + 2 /\ (k <= S i)%nat /\ envs !! i = Some p
          /\ (exists c, envs !! S i = Some c /\ EnvironmentStatus.Branch c = b)
          /\ forall j e, (k <= j)%nat -> (1 <= j <= i)%nat -> envs !! j = Some e ->
                         EnvironmentStatus.Branch e <> b
    | (n, None) =>
        n = -1 /\ forall j e, (k <= j)%nat -> (1 <= j)%nat -> envs !! j = Some e ->
                              EnvironmentStatus.Branch e <> b
    end.
Proof.
  induction rest as [|x rest IH]; intros k Hdrop; cbn [GetPrevious_loop].
  - split; [reflexivity|]. intros j e Hk _ Hj.
    assert (length envs <= k)%nat.
    { destruct (Nat.le_gt_cases (length envs) k) as [?|Hlt]; [assumption|].
      apply (f_equal length) in Hdrop. rewrite length_drop in Hdrop. simpl in Hdrop. lia. }
    apply lookup_lt_Some in Hj. lia.
  - assert (Hx : envs !! k = Some x).
    { rewrite <- (Nat.add_0_r k), <- lookup_drop, Hdrop. reflexivity. }
    assert (Hrest : drop (S k) envs = rest).
    { rewrite <- (Nat.add_1_r k), <- drop_drop, Hdrop. reflexivity. }
    specialize (IH (S k) Hrest).
    replace (Z.of_nat (S k)) with (Z.of_nat k + 1) in IH by lia.
    destruct (String.eqb_spec (EnvironmentStatus.Branch x) b) as [Hb|Hb]; cbn [andb].
    + destruct (Z.geb_spec (Z.of_nat k - 1) 0) as [Hk|Hk]; cbn [andb].
      * destruct (Z.gtb_spec (Z.of_nat (length envs)) 0) as [_|Hl].
        2:{ apply lookup_lt_Some in Hx. lia. }
        destruct k as [|k]; [lia|].
        replace (Z.to_nat (Z.of_nat (S k) - 1)) with k by lia.
        destruct (envs !! k) as [p|] eqn:Hp.
        2:{ apply lookup_ge_None in Hp. apply lookup_lt_Some in Hx. lia. }
        exists k. split; [lia|]. split; [lia|]. split; [exact Hp|].
        split; [eauto|]. intros; lia.
      * assert (k = 0)%nat as -> by lia.
        destruct (GetPrevious_loop envs b (Z.of_nat 0 + 1) rest) as [n [p|]].
        -- destruct IH as (i & -> & Hi & Hp & Hc & Hbefore). exists i.
           split; [reflexivity|]. split; [lia|]. split; [exact Hp|]. split; [exact Hc|].
           intros j e _ Hj. apply Hbefore; lia.
        -- destruct IH as [-> Hall]. split; [reflexivity|].
           intros j e _ Hj. apply Hall; lia.
    + destruct (GetPrevious_loop envs b (Z.of_nat k + 1) rest) as [n [p|]].
      * destruct IH as (i & -> & Hi & Hp & Hc & Hbefore). exists i.
        split; [reflexivity|]. split; [lia|]. split; [exact Hp|]. split; [exact Hc|].
        intros j e Hkj Hj Hl. destruct (decide (j = k)) as [->|Hne].
        -- rewrite Hx in Hl. now inversion Hl; subst.
        -- apply (Hbefore j); [lia|lia|exact Hl].
      * destruct IH as [-> Hall]. split; [reflexivity|].
        intros j e Hkj Hj Hl. destruct (decide (j = k)) as [->|Hne].
        -- rewrite Hx in Hl. now inversion Hl; subst.
        -- apply (Hall j); [lia|lia|exact Hl].
Qed.

(** X12.  [GetPreviousEnvironmentStatusByBranch] looks for the first
    entry with the branch from index 1 of the ordered view on: a match at
    index 0 is passed over.  On success it returns the entry right before
    the match, and as index the one of the match plus one (that is, the
    index of the returned entry plus two).  It returns (-1, nil) exactly
    when no entry from index 1 on carries the branch. *)
Theorem GetPreviousEnvironmentStatusByBranch_spec
        (ps : PromotionStrategy.t) (currentBranch : string) :
  let environments := GetEnvironmentsFromStatusInOrder ps in
  match GetPreviousEnvironmentStatusByBranch ps currentBranch with
  | (n, Some previous) =>
      exists i : nat,
        n = Z.of_nat i + 2
        /\ environments !! i = Some previous
        /\ (exists current, environments !! S i = Some current
                            /\ EnvironmentStatus.Branch current = currentBranch)
        /\ forall j e, (1 <= j <= i)%nat -> environments !! j = Some e ->
                       EnvironmentStatus.Branch e <> currentBranch
  | (n, None) =>
      n = -1
      /\ forall j e, (1 <= j)%nat -> environments !! j = Some e ->
                     EnvironmentStatus.Branch e <> currentBranch
  end.
Proof.
  cbv zeta. unfold GetPreviousEnvironmentStatusByBranch.
  pose proof (GetPrevious_loop_spec (GetEnvironmentsFromStatusInOrder ps) currentBranch
                                    (GetEnvironmentsFromStatusInOrder ps) 0 eq_refl) as H.
  change (Z.of_nat 0) with 0 in H.
  destruct (GetPrevious_loop _ currentBranch 0 _) as [n [p|]].
  - destruct H as (i & -> & _ & Hp & Hc & Hbefore). exists i.
    split; [reflexivity|]. split; [exact Hp|]. split; [exact Hc|].
    intros j e Hj. apply Hbefore; lia.
  - destruct H as [-> Hall]. split; [reflexivity|].
    intros j e Hj. apply Hall; lia.
Qed.

Lemma GetEnvironment_loop_spec (b : string) : forall rest i,
  match GetEnvironment_loop b i rest with
  | (j, Some e) =>
      exists k : nat, j = i + Z.of_nat k /\ rest !! k = Some e
                      /\ Environment.Branch e = b
                      /\ forall k' e', (k' < k)%nat -> rest !! k' = Some e' ->
                                       Environment.Branch e' <> b
  | (j, None) =>
      j = -1 /\ forall e', e' ∈ rest -> Environment.Branch e' <> b
  end.
Proof.
  induction rest as [|x rest IH]; intros i; cbn [GetEnvironment_loop].
  - split; [reflexivity|]. intros e' He'. inversion He'.
  - destruct (String.eqb_spec (Environment.Branch x) b) as [Hx|Hx].
    + exists 0%nat. split; [lia|]. split; [reflexivity|]. split; [exact Hx|]. intros; lia.
    + specialize (IH (i + 1)).
      destruct (GetEnvironment_loop b (i + 1) rest) as [j [e|]].
      * destruct IH as (k & -> & Hk & He & Hbefore). exists (S k).
        split; [lia|]. split; [exact Hk|]. split; [exact He|].
        intros [|k'] e' Hlt Hl; [now inversion Hl; subst|].
        apply (Hbefore k'); [lia|exact Hl].
      * destruct IH as [-> Hall]. split; [reflexivity|].
        intros e' He'. apply elem_of_cons in He' as [->|He']; auto.
Qed.

Lemma loops_agree (b : string) : forall (l : list EnvironmentStatus.t) (l' : list Environment.t) i,
  EnvironmentStatus.Branch <$> l = Environment.Branch <$> l' ->
  (GetEnvironmentStatus_loop b i l).1 = (GetEnvironment_loop b i l').1.
Proof.
  induction l as [|x l IH]; intros [|x' l'] i H; try discriminate H; [reflexivity|].
  rewrite !fmap_cons in H. injection H as Hx Hl.
  cbn [GetEnvironmentStatus_loop GetEnvironment_loop]. rewrite Hx.
  destruct (String.eqb _ b); [reflexivity|]. now apply IH.
Qed.

Lemma covered_filter (ps : PromotionStrategy.t) :
  covered ps ->
  filter (fun b => b ∈ branches ps) (Environment.Branch <$> specEnvironments ps)
  = Environment.Branch <$> specEnvironments ps.
Proof.
  intros Hcov.
  assert (H : forall e, e ∈ specEnvironments ps -> Environment.Branch e ∈ branches ps).
  { intros e He. destruct (Hcov e He) as (s & Hs & <-).
    apply list_elem_of_fmap. eauto. }
  induction (specEnvironments ps) as [|e es IH]; [reflexivity|].
  rewrite fmap_cons, filter_cons.
  destruct (decide _) as [_|Hout]; [|exfalso; apply Hout, H; left].
  f_equal. apply IH. intros e' He'. apply H. now right.
Qed.

(** X13.  [GetEnvironmentByBranch] returns the first environment of
    the spec with the branch, and its index, or (-1, nil) when there is
    none.  When every spec environment has a status entry and the branches
    of the status entries are pairwise distinct, the index that
    [GetEnvironmentStatusByBranch] returns is this index in the spec:
    it need not be the index of the entry in the status list. *)
Theorem GetEnvironmentByBranch_agrees_with_status
        (ps : PromotionStrategy.t) (branch : string) :
  covered ps -> NoDup (branches ps) ->
  (GetEnvironmentStatusByBranch ps branch).1 = (GetEnvironmentByBranch ps branch).1
  /\ match GetEnvironmentByBranch ps branch with
     | (i, Some e) =>
         0 <= i /\ specEnvironments ps !! Z.to_nat i = Some e
         /\ Environment.Branch e = branch
         /\ forall j e', (j < Z.to_nat i)%nat -> specEnvironments ps !! j = Some e' ->
                         Environment.Branch e' <> branch
     | (i, None) =>
         i = -1 /\ forall e', e' ∈ specEnvironments ps -> Environment.Branch e' <> branch
     end.
Proof.
  intros Hcov Hnd. split.
  - unfold GetEnvironmentStatusByBranch, GetEnvironmentByBranch.
    apply loops_agree. rewrite (ordered_branches ps Hnd). now apply covered_filter.
  - unfold GetEnvironmentByBranch. fold (specEnvironments ps).
    pose proof (GetEnvironment_loop_spec branch (specEnvironments ps) 0) as H.
    destruct (GetEnvironment_loop branch 0 (specEnvironments ps)) as [i [e|]]; [|exact H].
    destruct H as (k & -> & Hk & He & Hbefore).
    replace (Z.to_nat (0 + Z.of_nat k)) with k by lia.
    split; [lia|]. auto.
Qed.

Lemma find_first {A} (f : A -> bool) (pre : list A) (x : A) (post : list A) :
  Forall (fun e => f e = false) pre -> f x = true -> List.find f (pre ++ x :: post) = Some x.
Proof.
  induction pre as [|p pre IH]; intros Hpre Hx; cbn [app List.find].
  - now rewrite Hx.
  - inversion Hpre as [|? ? Hp Hpre']; subst. rewrite Hp. now apply IH.
Qed.

Lemma Upsert_loop_cases (slice : list EnvironmentStatus.t) (i : EnvironmentStatus.t) :
  forall rest (index : nat),
    drop index slice = rest ->
    Forall (fun e => EnvironmentStatus.Branch e <> EnvironmentStatus.Branch i) (take index slice) ->
    (exists n ele, slice !! n = Some ele
                   /\ EnvironmentStatus.Branch ele = EnvironmentStatus.Branch i
                   /\ Forall (fun e => EnvironmentStatus.Branch e <> EnvironmentStatus.Branch i)
                             (take n slice)
                   /\ Upsert_loop slice i index rest = <[n := i]> slice)
    \/ (Forall (fun e => EnvironmentStatus.Branch e <> EnvironmentStatus.Branch i) slice
        /\ Upsert_loop slice i index rest = slice ++ [i]).
Proof.
  induction rest as [|ele rest IH]; intros index Hdrop Hbefore; cbn [Upsert_loop].
  - right. split; [|reflexivity].
    rewrite <- (take_drop index slice), Hdrop, app_nil_r. exact Hbefore.
  - assert (Hele : slice !! index = Some ele).
    { rewrite <- (Nat.add_0_r index), <- lookup_drop, Hdrop. reflexivity. }
    destruct (String.eqb_spec (EnvironmentStatus.Branch ele) (EnvironmentStatus.Branch i)) as [E|E].
    + left. exists index, ele. auto.
    + apply IH.
      * rewrite <- (Nat.add_1_r index), <- drop_drop, Hdrop. reflexivity.
      * rewrite (take_S_r _ _ _ Hele). apply Forall_app. split; [exact Hbefore|].
        repeat constructor. exact E.
Qed.

Lemma Upsert_cases (slice : list EnvironmentStatus.t) (i : EnvironmentStatus.t) :
  (exists n ele, slice !! n = Some ele
                 /\ EnvironmentStatus.Branch ele = EnvironmentStatus.Branch i
                 /\ Forall (fun e => EnvironmentStatus.Branch e <> EnvironmentStatus.Branch i)
                           (take n slice)
                 /\ UpsertEnvironmentStatus slice i = <[n := i]> slice)
  \/ (Forall (fun e => EnvironmentStatus.Branch e <> EnvironmentStatus.Branch i) slice
      /\ UpsertEnvironmentStatus slice i = slice ++ [i]).
Proof.
  unfold UpsertEnvironmentStatus. destruct slice as [|x slice].
  - right. split; [constructor|reflexivity].
  - cbn [length Nat.eqb]. apply Upsert_loop_cases; [reflexivity|constructor].
Qed.

(** X14.  [UpsertEnvironmentStatus] is an insert that a look-up by branch
    finds again: the first entry with the branch of [i] in the result is
    [i]; the entries of the other branches are the same, in the same
    order; the length grows by one exactly when the branch was new. *)
Theorem UpsertEnvironmentStatus_round_trip
        (slice : list EnvironmentStatus.t) (i : EnvironmentStatus.t) :
  let upserted := UpsertEnvironmentStatus slice i in
  List.find (fun e => String.eqb (EnvironmentStatus.Branch e) (EnvironmentStatus.Branch i))
            upserted = Some i
  /\ filter (fun e => EnvironmentStatus.Branch e <> EnvironmentStatus.Branch i) upserted
     = filter (fun e => EnvironmentStatus.Branch e <> EnvironmentStatus.Branch i) slice
  /\ length upserted
     = if decide (EnvironmentStatus.Branch i ∈ EnvironmentStatus.Branch <$> slice)
       then length slice else S (length slice).
Proof.
  cbv zeta.
  assert (Hno : forall l : list EnvironmentStatus.t,
             Forall (fun e => EnvironmentStatus.Branch e <> EnvironmentStatus.Branch i) l ->
             Forall (fun e => String.eqb (EnvironmentStatus.Branch e) (EnvironmentStatus.Branch i)
                              = false) l).
  { intros l H. eapply Forall_impl; [exact H|]. intros e He. now apply String.eqb_neq. }
  destruct (Upsert_cases slice i) as [(n & ele & Hn & Hb & Hbefore & ->)|[Hall ->]].
  - pose proof (lookup_lt_Some _ _ _ Hn) as Hlt.
    rewrite insert_take_drop by exact Hlt.
    assert (Hs : slice = take n slice ++ ele :: drop (S n) slice)
      by (symmetry; apply take_drop_middle, Hn).
    remember (take n slice) as A eqn:HA. remember (drop (S n) slice) as B eqn:HB.
    clear HA HB. subst slice.
    split; [apply find_first; [apply Hno, Hbefore|apply String.eqb_refl]|].
    split.
    + rewrite !filter_app, !filter_cons.
      destruct (decide (EnvironmentStatus.Branch i <> EnvironmentStatus.Branch i)); [congruence|].
      destruct (decide (EnvironmentStatus.Branch ele <> EnvironmentStatus.Branch i)); [congruence|].
      reflexivity.
    + rewrite !length_app. cbn [length].
      destruct (decide _) as [_|Hout]; [reflexivity|].
      exfalso. apply Hout. rewrite <- Hb. apply list_elem_of_fmap.
      exists ele. split; [reflexivity|]. apply elem_of_app. right. left.
  - split; [apply find_first; [apply Hno, Hall|apply String.eqb_refl]|].
    split.
    + rewrite filter_app, filter_cons, filter_nil.
      destruct (decide (EnvironmentStatus.Branch i <> EnvironmentStatus.Branch i)); [congruence|].
      now rewrite app_nil_r.
    + rewrite length_app. cbn [length].
      destruct (decide _) as [Hin|_]; [|lia].
      exfalso. apply list_elem_of_fmap in Hin as (e & He & Hin).
      rewrite Forall_forall in Hall. now apply (Hall e Hin).
Qed.

End MoreLookups.

Ltac emits_walk :=
  repeat first
    [ emits_step
    | match goal with |- emits _ (if ?b then _ else _) => destruct b eqn:? end ].

(** ** Waiting for the ProposedCommits *)

Section Waiting.
Context {W : Type}.
Context {psStore : Store W PromotionStrategy.t} {pcStore : Store W ProposedCommit.t}
        {csStore : Store W CommitStatus.t} {prStore : Store W PullRequest.t}
        {runtime : Runtime W}.
Import PromotionStrategyReconciler envutils.

Lemma post_outOfFuel {A} (Q : A -> Prop) : post (W:=W) Q outOfFuel.
Proof. intros st st' a [=]. Qed.

Lemma waitForStatus_populated fuel : forall key pc,
  post (fun r => r.2 = None -> statusPopulated r.1 = true) (waitForStatus fuel key pc).
Proof.
  induction fuel as [|fuel IH]; intros key pc; cbn [waitForStatus].
  - apply post_outOfFuel.
  - eapply post_bind; [apply post_any|]. intros [pc'|e] _.
    + destruct (statusPopulated pc') eqn:Hp.
      * apply post_ret. intros _. exact Hp.
      * eapply post_bind; [apply post_any|]. intros n _.
        eapply post_bind; [apply post_any|]. intros [] _. apply IH.
    + destruct (IsNotFound e); [apply IH|]. apply post_ret. cbn. discriminate.
Qed.

(** X15.  [createOrGetProposedCommit] hands out no ProposedCommit whose
    status is incomplete: whenever it returns without an error, the four
    SHAs of the returned record (active and proposed, dry and hydrated)
    are non-empty.  And it does return: when the record named
    [KubeSafeUniqueName] of "<strategy name>-<branch>" (the string of
    [GetProposedCommitName]) in the namespace of the strategy exists and
    the second read shows a complete status, the function returns the
    record of the second read after these two reads. *)
Theorem createOrGetProposedCommit_returns_populated
        (fuel : nat) (ps : PromotionStrategy.t) (environment : Environment.t) :
  post (fun r => r.2 = None -> statusPopulated r.1 = true)
       (createOrGetProposedCommit fuel ps environment)
  /\ forall (name : string) (st : St.t W) (w1 w2 : W) (found populated : ProposedCommit.t),
      utils.KubeSafeUniqueName
        (utils.GetProposedCommitName (ObjectMeta.Name (PromotionStrategy.Meta ps))
                                     (Environment.Branch environment)) = Some name ->
      let key := ObjectKey.mk (ObjectMeta.Namespace (PromotionStrategy.Meta ps)) name in
      store_get key (St.world st) = (w1, Ok found) ->
      store_get key w1 = (w2, Ok populated) ->
      statusPopulated populated = true ->
      createOrGetProposedCommit (S fuel) ps environment st
      = (St.mk w2 (St.calls st ++ [CGet KProposedCommit key; CGet KProposedCommit key]),
         Val (populated, None)).
Proof.
  split.
  - unfold createOrGetProposedCommit.
    eapply post_bind; [apply post_any|]. intros pcName _.
    eapply post_bind; [apply post_any|]. intros [pc|e] _.
    + apply waitForStatus_populated.
    + destruct (IsNotFound e); [|apply post_ret; cbn; discriminate].
      do 3 (eapply post_bind; [apply post_any|]; intros ? _).
      eapply post_bind; [apply post_any|]. intros [pc|e'] _.
      * apply waitForStatus_populated.
      * apply post_ret. cbn. discriminate.
  - intros name st w1 w2 found populated Hname key Hfirst Hsecond Hpop.
    unfold utils.GetProposedCommitName in Hname.
    unfold createOrGetProposedCommit. rewrite Hname.
    erewrite mbind_val by reflexivity.
    erewrite mbind_val by (unfold r_Get; rewrite call_run; fold key; rewrite Hfirst; reflexivity).
    cbn [fst snd waitForStatus].
    erewrite mbind_val
      by (unfold r_Get; rewrite call_run; cbn [St.world]; fold key; rewrite Hsecond;
          reflexivity).
    cbn [fst snd]. rewrite Hpop.
    cbn [St.calls kindOf ProposedCommit_Resource]. rewrite <- app_assoc. reflexivity.
Qed.

(** X16.  The wait at the end of [createOrGetProposedCommit] has no
    bound, and on not-found it retries at once.  In a world that answers
    the read with not-found, and keeps doing so ([Inv] holds and is kept by
    the read), the loop is still running after any number of iterations,
    and all it has done is that many reads: it does not sleep between
    them. *)
Theorem waitForStatus_spins_while_not_found
        (Inv : W -> Prop) (key : ObjectKey.t) (pc : ProposedCommit.t) (fuel : nat) (st : St.t W) :
  Inv (St.world st) ->
  (forall w, Inv w ->
             Inv (store_get (A := ProposedCommit.t) key w).1
             /\ (store_get (A := ProposedCommit.t) key w).2 = Err ErrNotFound) ->
  exists st',
    waitForStatus fuel key pc st = (st', OutOfFuel)
    /\ St.calls st' = St.calls st ++ repeat (CGet KProposedCommit key) fuel.
Proof.
  intros Hst Hget. revert st Hst. induction fuel as [|fuel IH]; intros st Hst.
  - exists st. split; [reflexivity|]. cbn [repeat]. now rewrite app_nil_r.
  - destruct (Hget _ Hst) as [Hinv Hnf].
    cbn [waitForStatus]. unfold r_Get at 1.
    erewrite mbind_val by apply call_run. rewrite Hnf. cbn [IsNotFound].
    destruct (IH (St.mk (store_get (A := ProposedCommit.t) key (St.world st)).1
                        (St.calls st ++ [CGet KProposedCommit key])))
      as (st' & Hrun & Hcalls).
    { exact Hinv. }
    exists st'. split; [exact Hrun|].
    rewrite Hcalls. cbn [St.calls repeat]. rewrite <- app_assoc. reflexivity.
Qed.
End Waiting.

(** ** What [calculateStatus] touches *)

Section Rollup.
Context {W : Type}.
Context {psStore : Store W PromotionStrategy.t} {pcStore : Store W ProposedCommit.t}
        {csStore : Store W CommitStatus.t} {prStore : Store W PullRequest.t}
        {runtime : Runtime W}.
Import PromotionStrategyReconciler envutils.

Section Invariant.
Variable Inv : PromotionStrategy.t -> Prop.
Variable i : Z.
Hypothesis Inv_assign :
  forall ps ps' f, rollupSetter f -> Inv ps -> assignAt ps i f = Some ps' -> Inv ps'.

Lemma post_assign_inv ps f :
  rollupSetter f -> Inv ps -> post (W:=W) Inv (orPanic (assignAt ps i f)).
Proof.
  intros Hf Hps. eapply post_weaken; [apply post_orPanic|].
  intros ps' H. exact (Inv_assign _ _ _ Hf Hps H).
Qed.

Lemma collectCommitStatus_inv sha side s status :
  (forall g, rollupSetter (side g)) ->
  Inv s.1 ->
  post (fun f => match f with
                 | Next s' => Inv s'.1
                 | Return r => r.2 <> None
                 end)
       (collectCommitStatus sha side i s status).
Proof.
  intros Hside Hs. destruct s as [ps all]. cbn [fst] in Hs.
  unfold collectCommitStatus.
  eapply post_bind; [apply post_any|]. intros key _.
  eapply post_bind; [apply post_any|]. intros [items|err] _.
  2:{ apply post_ret. cbn. discriminate. }
  destruct (List.filter notCopy items) as [|c1 [|c2 rest]].
  - eapply post_bind; [apply post_assign_inv; [apply Hside|exact Hs]|]. intros ps1 H1.
    eapply post_bind; [apply post_assign_inv; [apply Hside|exact H1]|]. intros ps2 H2.
    apply post_ret. exact H2.
  - apply post_ret. exact Hs.
  - eapply post_bind; [apply post_assign_inv; [apply Hside|exact Hs]|]. intros ps1 H1.
    eapply post_bind; [apply post_assign_inv; [apply Hside|exact H1]|]. intros ps2 H2.
    apply post_ret. exact H2.
Qed.

Lemma collect_loop_inv sha side ps keys :
  (forall g, rollupSetter (side g)) ->
  Inv ps ->
  post (fun f => match f with
                 | Next s' => Inv s'.1
                 | Return r => r.2 <> None
                 end)
       (forRange keys (ps, []) (collectCommitStatus sha side i)).
Proof.
  intros Hside Hps.
  eapply post_weaken.
  - apply (post_forRange (fun _ s => Inv s.1)
                         (fun r : PromotionStrategy.t * option error => r.2 <> None))
      with (done := []).
    + exact Hps.
    + intros done s x Hs. apply collectCommitStatus_inv; assumption.
  - intros [s'|r]; auto.
Qed.

Lemma rollup_inv (side : (PromotionStrategyCommitStatus.t -> PromotionStrategyCommitStatus.t)
                         -> EnvironmentStatus.t -> EnvironmentStatus.t)
      ps (n : nat) sha (all : list CommitStatus.t) :
  (forall g, rollupSetter (side g)) ->
  Inv ps ->
  post (W:=W) Inv
       (if (Z.of_nat n =? 0) && (i >=? 0)
        then
          ps ← orPanic (assignAt ps i (withProposed (setCommitState "success")));
          orPanic (assignAt ps i (withProposed (setCommitSha sha)))
        else
          ps ← orPanic (assignAt ps i (side (setCommitState "success")));
          match firstNotSuccess all with
          | Some cs =>
              ps ← orPanic (assignAt ps i (side
                     (setCommitState (CommitStatusSpec.State (CommitStatus.Spec cs)))));
              orPanic (assignAt ps i (side
                     (setCommitSha (CommitStatusSpec.Sha (CommitStatus.Spec cs)))))
          | None => mret ps
          end : M W PromotionStrategy.t).
Proof.
  intros Hside Hps.
  assert (Hp : forall g, rollupSetter (withProposed g)) by (intros g; right; left; eauto).
  destruct ((Z.of_nat n =? 0) && (i >=? 0)).
  - eapply post_bind; [apply post_assign_inv; [apply Hp|exact Hps]|]. intros ps1 H1.
    apply post_assign_inv; [apply Hp|exact H1].
  - eapply post_bind; [apply post_assign_inv; [apply Hside|exact Hps]|]. intros ps1 H1.
    destruct (firstNotSuccess all); [|apply post_ret; exact H1].
    eapply post_bind; [apply post_assign_inv; [apply Hside|exact H1]|]. intros ps2 H2.
    apply post_assign_inv; [apply Hside|exact H2].
Qed.
End Invariant.

(** Whatever the updates of a status entry at the index of the
    environment preserve, the body of [calculateStatus] preserves from the
    upsert on. *)
Lemma calculateStatus_body_inv (Inv : PromotionStrategy.t -> Prop) pcMap ps environment pc :
  pcMap !! Environment.Branch environment = Some pc ->
  let ps1 := setStatusEnvironments
               (UpsertEnvironmentStatus (statusEnvironments ps) (freshStatus environment pc)) ps in
  let i := (GetEnvironmentStatusByBranch ps1 (Environment.Branch environment)).1 in
  Inv ps1 ->
  (forall ps' ps'' f, rollupSetter f -> Inv ps' -> assignAt ps' i f = Some ps'' -> Inv ps'') ->
  post (fun f => match f with
                 | Next ps' => Inv ps'
                 | Return r => r.2 <> None
                 end)
       (calculateStatus_body pcMap ps environment).
Proof.
  intros Hpc ps1 i H1 Hassign. unfold calculateStatus_body. rewrite Hpc.
  fold ps1. subst i. clearbody ps1.
  destruct (GetEnvironmentStatusByBranch ps1 (Environment.Branch environment)) as [i o].
  cbn [fst] in Hassign.
  assert (Ha : forall g, rollupSetter (withActive g)) by (intros g; left; eauto).
  assert (Hp : forall g, rollupSetter (withProposed g)) by (intros g; right; left; eauto).
  eapply post_bind; [apply post_any|]. intros tooMany _.
  eapply (post_bind Inv).
  { destruct tooMany; [|apply post_ret; exact H1].
    eapply post_bind; [apply post_any|]. intros e _.
    apply (post_assign_inv Inv i Hassign); [right; right; eauto|exact H1]. }
  intros ps2 H2.
  eapply post_bind; [apply (collect_loop_inv Inv i Hassign _ withActive); [exact Ha|exact H2]|].
  intros [[ps3 allActive]|r] H3; [|apply post_ret; exact H3]. cbn [fst] in H3.
  eapply (post_bind Inv); [apply (rollup_inv Inv i Hassign withActive); [exact Ha|exact H3]|].
  intros ps4 H4.
  eapply post_bind; [apply (collect_loop_inv Inv i Hassign _ withProposed); [exact Hp|exact H4]|].
  intros [[ps5 allProposed]|r] H5; [|apply post_ret; exact H5]. cbn [fst] in H5.
  eapply (post_bind Inv); [apply (rollup_inv Inv i Hassign withProposed); [exact Hp|exact H5]|].
  intros ps6 H6. apply post_ret. exact H6.
Qed.
(** X17.  [calculateStatus] only reads: every call it makes is a list
    of CommitStatuses, selected by the label of one check key and by the
    indexed field [.spec.sha].  It writes nothing to the cluster; what it
    computes lives in the strategy it returns. *)
Theorem calculateStatus_only_lists (ps : PromotionStrategy.t)
        (pcMap : gmap string ProposedCommit.t) :
  emits listsCommitStatuses (calculateStatus ps pcMap).
Proof.
  unfold calculateStatus, calculateStatus_body, collectCommitStatus, r_List.
  emits_walk; cbn [kindOf CommitStatus_Resource]; eexists; eexists; reflexivity.
Qed.

Lemma Upsert_branches_exact (slice : list EnvironmentStatus.t) (e : EnvironmentStatus.t) :
  EnvironmentStatus.Branch <$> UpsertEnvironmentStatus slice e
  = addBranch (EnvironmentStatus.Branch <$> slice) (EnvironmentStatus.Branch e).
Proof.
  unfold addBranch.
  destruct (Upsert_cases slice e) as [(n & ele & Hn & Hb & _ & ->)|[Hall ->]].
  - rewrite list_fmap_insert, list_insert_id
      by (rewrite list_lookup_fmap, Hn; cbn; now rewrite Hb).
    destruct (decide _) as [_|Hout]; [reflexivity|].
    exfalso. apply Hout. rewrite <- Hb. apply list_elem_of_fmap.
    exists ele. split; [reflexivity|]. eapply list_elem_of_lookup_2, Hn.
  - rewrite fmap_app. destruct (decide _) as [Hin|_]; [|reflexivity].
    exfalso. apply list_elem_of_fmap in Hin as (x & Hx & Hin).
    rewrite Forall_forall in Hall. now apply (Hall x Hin).
Qed.

Lemma rollupSetter_branch f e : rollupSetter f ->
  EnvironmentStatus.Branch (f e) = EnvironmentStatus.Branch e.
Proof. intros [[g ->]|[[g ->]|[l ->]]]; reflexivity. Qed.

Lemma rollupSetter_commits f e : rollupSetter f -> commitsOf (f e) = commitsOf e.
Proof. intros [[g ->]|[[g ->]|[l ->]]]; reflexivity. Qed.

(** X18.  A successful [calculateStatus] keeps the spec, keeps every
    status entry where it is and appends one entry for each branch of the
    spec that had none, in spec order: the branches of the new status are
    those of the old one, followed by the new ones.  An entry of an
    environment that has left the spec is never removed, and entries are
    never put into spec order. *)
Theorem calculateStatus_keeps_entries_in_place (ps : PromotionStrategy.t)
        (pcMap : gmap string ProposedCommit.t) :
  post (fun r => r.2 = None ->
                 PromotionStrategy.Spec r.1 = PromotionStrategy.Spec ps
                 /\ branches r.1
                    = fold_left addBranch (Environment.Branch <$> specEnvironments ps)
                                (branches ps))
       (calculateStatus ps pcMap).
Proof.
  unfold calculateStatus.
  eapply post_bind.
  { apply (post_forRange
             (fun done ps' =>
                PromotionStrategy.Spec ps' = PromotionStrategy.Spec ps
                /\ branches ps' = fold_left addBranch (Environment.Branch <$> done) (branches ps))
             (fun r : PromotionStrategy.t * option error => r.2 <> None)) with (done := []).
    - split; reflexivity.
    - intros done ps' x [Hs Hd].
      destruct (pcMap !! Environment.Branch x) as [pc|] eqn:Hpc.
      2:{ unfold calculateStatus_body. rewrite Hpc. apply post_ret. cbn. discriminate. }
      eapply post_weaken.
      + apply (calculateStatus_body_inv
                 (sameFrame (setStatusEnvironments
                               (UpsertEnvironmentStatus (statusEnvironments ps')
                                                        (freshStatus x pc)) ps'))
                 pcMap ps' x pc Hpc).
        * apply sameFrame_refl.
        * intros p p' f Hf Hp Hassign.
          eapply sameFrame_trans; [exact Hp|].
          eapply assignAt_frame; [|exact Hassign].
          intros e. now apply rollupSetter_branch.
      + intros [ps''|r]; [|auto]. intros [Hs' Hb']. split; [now rewrite Hs'|].
        rewrite Hb', fmap_app, fold_left_app. cbn [fmap list_fmap fold_left].
        rewrite <- Hd. unfold branches at 1. cbn [statusEnvironments setStatusEnvironments
          PromotionStrategy.Status PromotionStrategyStatus.Environments].
        apply Upsert_branches_exact. }
  intros [ps'|r] Hf; apply post_ret.
  - cbn. intros _. now rewrite app_nil_l in Hf.
  - intros E. contradiction.
Qed.

Lemma assignAt_spec_meta ps i f ps' :
  assignAt ps i f = Some ps' ->
  PromotionStrategy.Spec ps' = PromotionStrategy.Spec ps
  /\ PromotionStrategy.Meta ps' = PromotionStrategy.Meta ps
  /\ statusEnvironments ps' = alter f (Z.to_nat i) (statusEnvironments ps).
Proof.
  unfold assignAt. destruct (_ || _); [discriminate|]. intros [= <-]. auto.
Qed.

(** X19.  One pass of the loop of [calculateStatus] upserts the fresh
    entry of the environment and then changes one status entry only: the
    one at the index that [GetEnvironmentStatusByBranch] gives for the
    branch, which is a position in spec order.  Spec and metadata are
    kept, all other entries are exactly those of the upsert, and in no
    entry do branch or SHAs change: only rolled-up commit statuses (and
    the healthy dry SHAs) of that one entry are written. *)
Theorem calculateStatus_body_writes_one_entry
        (pcMap : gmap string ProposedCommit.t) (ps : PromotionStrategy.t)
        (environment : Environment.t) (pc : ProposedCommit.t) :
  pcMap !! Environment.Branch environment = Some pc ->
  let upserted :=
    UpsertEnvironmentStatus (statusEnvironments ps) (freshStatus environment pc) in
  let i := (GetEnvironmentStatusByBranch (setStatusEnvironments upserted ps)
                                         (Environment.Branch environment)).1 in
  post (fun f => match f with
                 | Next ps' =>
                     PromotionStrategy.Spec ps' = PromotionStrategy.Spec ps
                     /\ PromotionStrategy.Meta ps' = PromotionStrategy.Meta ps
                     /\ commitsOf <$> statusEnvironments ps' = commitsOf <$> upserted
                     /\ forall j, j <> Z.to_nat i ->
                                  statusEnvironments ps' !! j = upserted !! j
                 | Return r => r.2 <> None
                 end)
       (calculateStatus_body pcMap ps environment).
Proof.
  intros Hpc upserted i.
  apply (calculateStatus_body_inv
           (fun ps' =>
              PromotionStrategy.Spec ps' = PromotionStrategy.Spec ps
              /\ PromotionStrategy.Meta ps' = PromotionStrategy.Meta ps
              /\ commitsOf <$> statusEnvironments ps' = commitsOf <$> upserted
              /\ forall j, j <> Z.to_nat i -> statusEnvironments ps' !! j = upserted !! j)
           pcMap ps environment pc Hpc).
  - repeat split; reflexivity.
  - fold upserted. fold i. intros p p' f Hf (Hs & Hm & Hc & Hj) Hassign.
    apply assignAt_spec_meta in Hassign as (Hs' & Hm' & He').
    split; [congruence|]. split; [congruence|]. rewrite He'. split.
    + rewrite <- Hc. clear -Hf. generalize (Z.to_nat i) as n.
      induction (statusEnvironments p) as [|x l IH]; intros n; [reflexivity|].
      destruct n as [|n]; cbn.
      * now rewrite rollupSetter_commits.
      * f_equal. apply IH.
    + intros j Hne. rewrite list_lookup_alter_ne by congruence. now apply Hj.
Qed.
End Rollup.

(** ** The calls of the PromotionStrategy reconciler *)

Section Footprint.
Context {W : Type}.
Context {psStore : Store W PromotionStrategy.t} {pcStore : Store W ProposedCommit.t}
        {csStore : Store W CommitStatus.t} {prStore : Store W PullRequest.t}
        {runtime : Runtime W}.
Import PromotionStrategyReconciler envutils.

Lemma copyLabels_marked base from fromSha fromBranch :
  labelOf (Some (copyLabels base from fromSha fromBranch)) label_copy = "true".
Proof.
  unfold labelOf, copyLabels.
  rewrite !lookup_insert_ne by discriminate. now rewrite lookup_insert.
Qed.

(** X20.  [copyCommitStatuses] reads CommitStatuses and writes copies,
    nothing else: every CommitStatus it creates or updates carries the
    label [promoter.argoproj.io/commit-status-copy] = "true", so that
    [notCopy], the filter of the roll-up in [calculateStatus], rejects
    it, and has the proposed hydrated SHA it was asked to copy to as
    [spec.sha]. *)
Theorem copyCommitStatuses_writes_marked_copies
        (csSelector : list CommitStatusSelector.t)
        (copyFromActiveHydratedSha copyToProposedHydratedSha branch : string) :
  emits (copiesOnly copyToProposedHydratedSha)
        (copyCommitStatuses csSelector copyFromActiveHydratedSha
                            copyToProposedHydratedSha branch).
Proof.
  unfold copyCommitStatuses, copyCommitStatuses_body, copyCommitStatus,
    r_List, r_Get, r_Create, r_Update.
  emits_walk; cbn [copiesOnly toObject kindOf CommitStatus_Resource]; try reflexivity.
  all: split; [|reflexivity]; unfold notCopy, newCopy;
    cbn [CommitStatus.Meta ObjectMeta.Labels setLabels]; now rewrite copyLabels_marked.
Qed.

(** X21.  The update path of [copyCommitStatuses] writes into the label
    map of the record it has read without checking it for nil (the
    creation path does check).  When the record named
    "proposed-<name>" exists and has no labels, the function panics
    right after reading it. *)
Theorem copyCommitStatus_panics_on_unlabelled_copy
        (from to branch : string) (commitStatus existing : CommitStatus.t)
        (st : St.t W) (w : W) :
  labelOf (ObjectMeta.Labels (CommitStatus.Meta commitStatus)) label_copy <> "true" ->
  store_get (ObjectKey.mk (ObjectMeta.Namespace (CommitStatus.Meta commitStatus))
                          ("proposed-" +:+ ObjectMeta.Name (CommitStatus.Meta commitStatus)))
            (St.world st) = (w, Ok existing) ->
  ObjectMeta.Labels (CommitStatus.Meta existing) = None ->
  copyCommitStatus from to branch tt commitStatus st
  = (St.mk w (St.calls st
              ++ [CGet KCommitStatus
                       (ObjectKey.mk (ObjectMeta.Namespace (CommitStatus.Meta commitStatus))
                                     ("proposed-"
                                      +:+ ObjectMeta.Name (CommitStatus.Meta commitStatus)))]),
     Panicked).
Proof.
  intros Hcopy Hget Hnil. unfold copyCommitStatus.
  destruct (String.eqb_spec (labelOf (ObjectMeta.Labels (CommitStatus.Meta commitStatus)) label_copy)
                            "true") as [E|_]; [contradiction|].
  erewrite mbind_val by (unfold r_Get; rewrite call_run, Hget; reflexivity).
  cbn [fst snd]. rewrite Hnil. reflexivity.
Qed.

Lemma waitForStatus_emits (P : Call -> Prop) fuel : forall key pc,
  P (CGet KProposedCommit key) -> P (CRandIntn 1000) -> (forall n, P (CSleep n)) ->
  emits P (waitForStatus fuel key pc).
Proof.
  induction fuel as [|fuel IH]; intros key pc Hg Hr Hs; cbn [waitForStatus].
  - apply emits_outOfFuel.
  - unfold r_Get, rand_Intn, time_Sleep.
    apply emits_bind; [apply emits_call, Hg|]. intros [pc'|e].
    + destruct (statusPopulated pc'); [apply emits_ret|].
      apply emits_bind; [apply emits_call, Hr|]. intros n.
      apply emits_bind; [apply emits_call, Hs|]. intros []. now apply IH.
    + destruct (IsNotFound e); [now apply IH|apply emits_ret].
Qed.

(** X22.  Whatever happens, [Reconcile] of a PromotionStrategy makes
    no other calls than these: reads of PromotionStrategies,
    ProposedCommits, CommitStatuses and PullRequests, creations of
    ProposedCommits and of CommitStatuses, updates of CommitStatuses,
    updates of PullRequests that set [spec.state] to merged, the status
    update of the strategy, [rand.Intn(1000)] and sleeps.  It deletes
    nothing, never calls the SCM provider, and never writes the spec of
    a strategy or a ProposedCommit. *)
Theorem Reconcile_footprint (r : PromotionStrategyReconciler.t) (fuel : nat)
        (req : ObjectKey.t) :
  emits strategyCall (Reconcile r fuel req).
Proof.
  assert (Hwait : forall key pc, emits strategyCall (waitForStatus fuel key pc)).
  { intros key pc. apply waitForStatus_emits; cbn; auto. }
  unfold Reconcile, createOrGetProposedCommit, calculateStatus, calculateStatus_body,
    collectCommitStatus, Reconcile_body, copyCommitStatuses, copyCommitStatuses_body,
    copyCommitStatus, activeChecksPassed, mergeClosure,
    r_Get, r_List, r_Create, r_Update, r_Status_Update.
  emits_walk; try apply Hwait; cbn; auto.
Qed.
(** X23.  With auto-merge switched off for an environment, the pass of
    the merge loop for it makes no call that concerns PullRequests: it
    neither lists nor reads nor writes one.  (It still copies commit
    statuses forward.) *)
Theorem autoMerge_off_leaves_pull_requests
        (ps : PromotionStrategy.t) (pcMap : gmap string ProposedCommit.t)
        (environment : Environment.t) :
  Environment.GetAutoMerge environment = false ->
  emits notPullRequestCall (Reconcile_body ps pcMap tt environment).
Proof.
  intros Hoff. unfold Reconcile_body.
  destruct (GetPreviousEnvironmentStatusByBranch ps _) as [n previous].
  destruct (GetEnvironmentStatusByBranch ps _) as [idx current].
  apply emits_bind.
  { destruct previous; [|apply emits_ret].
    apply emits_bind; [apply emits_orPanic|]. intros pc.
    destruct (String.eqb _ _); [|apply emits_ret].
    unfold copyCommitStatuses, copyCommitStatuses_body, copyCommitStatus,
      r_List, r_Get, r_Create, r_Update.
    emits_walk; exact I. }
  intros [err|]; [apply emits_ret|].
  apply emits_bind.
  { eapply emits_weaken; [|apply activeChecksPassed_emits]. intros c []. }
  intros acp. rewrite Hoff, andb_false_r. apply emits_ret.
Qed.

Lemma RetryOnConflict_succeeds {S} (fn : S -> M W (S * option error)) steps lastErr s s' st st' :
  fn s st = (st', Val (s', None)) ->
  RetryOnConflict (Datatypes.S steps) lastErr s fn st = (st', Val (s', None)).
Proof. intros H. cbn [RetryOnConflict]. erewrite mbind_val by exact H. reflexivity. Qed.

Lemma mergeClosure_run (item fresh stored : PullRequest.t) (st : St.t W) (w2 w3 : W) :
  store_get (objectKeyOf (PullRequest.Meta item)) (St.world st) = (w2, Ok fresh) ->
  store_update (setPullRequestSpecState PullRequestMerged fresh) w2 = (w3, Ok stored) ->
  mergeClosure item st
  = (St.mk w3 (St.calls st
               ++ [CGet KPullRequest (objectKeyOf (PullRequest.Meta item));
                   CUpdate (OPullRequest (setPullRequestSpecState PullRequestMerged fresh))]),
     Val (stored, None)).
Proof.
  intros Hget Hupdate. unfold mergeClosure.
  erewrite mbind_val by (unfold r_Get; rewrite call_run, Hget; reflexivity).
  cbn [fst snd].
  erewrite mbind_val
    by (unfold r_Update; rewrite call_run; cbn [St.world]; rewrite Hupdate; reflexivity).
  cbn [fst snd St.calls kindOf toObject PullRequest_Resource].
  rewrite <- app_assoc. reflexivity.
Qed.

(** X24.  The first environment is promoted without any gate.  For an
    environment that the ordered view lists at index 0 and that has no
    previous one, with auto-merge on, neither the active nor the proposed
    roll-up is looked at ([current] is arbitrary): if the first listed
    PullRequest is open in spec and status, the pass lists, reads the
    record again and updates what it has read with [spec.state] merged,
    and goes on to the next environment. *)
Theorem first_environment_merges_ungated
        (ps : PromotionStrategy.t) (pcMap : gmap string ProposedCommit.t)
        (environment : Environment.t) (pc : ProposedCommit.t)
        (n : Z) (current : option EnvironmentStatus.t) (l1 l2 l3 : string)
        (st : St.t W) (item fresh stored : PullRequest.t) (items : list PullRequest.t)
        (w1 w2 w3 : W) :
  GetPreviousEnvironmentStatusByBranch ps (Environment.Branch environment) = (n, None) ->
  GetEnvironmentStatusByBranch ps (Environment.Branch environment) = (0, current) ->
  Environment.GetAutoMerge environment = true ->
  pcMap !! Environment.Branch environment = Some pc ->
  utils.KubeSafeLabel (ObjectMeta.Name (PromotionStrategy.Meta ps)) = Some l1 ->
  utils.KubeSafeLabel (ObjectMeta.Name (ProposedCommit.Meta pc)) = Some l2 ->
  utils.KubeSafeLabel (Environment.Branch environment) = Some l3 ->
  store_list (pullRequestSelector l1 l2 l3) (St.world st) = (w1, Ok (item :: items)) ->
  PullRequestSpec.State (PullRequest.Spec item) = PullRequestOpen ->
  PullRequestStatus.State (PullRequest.Status item) = PullRequestOpen ->
  store_get (objectKeyOf (PullRequest.Meta item)) w1 = (w2, Ok fresh) ->
  store_update (setPullRequestSpecState PullRequestMerged fresh) w2 = (w3, Ok stored) ->
  Reconcile_body ps pcMap tt environment st
  = (St.mk w3 (St.calls st
               ++ [CList KPullRequest (pullRequestSelector l1 l2 l3);
                   CGet KPullRequest (objectKeyOf (PullRequest.Meta item));
                   CUpdate (OPullRequest (setPullRequestSpecState PullRequestMerged fresh))]),
     Val (Next tt)).
Proof.
  intros Hprev Hcur Hauto Hpc Hl1 Hl2 Hl3 Hlist Hspec Hstatus Hget Hupdate.
  unfold Reconcile_body. rewrite Hprev, Hcur.
  erewrite mbind_val by reflexivity.
  unfold activeChecksPassed. erewrite mbind_val by reflexivity.
  rewrite Hauto. cbn [Z.eqb orb andb].
  rewrite Hl1. erewrite mbind_val by reflexivity.
  rewrite Hpc. erewrite mbind_val by reflexivity.
  rewrite Hl2. erewrite mbind_val by reflexivity.
  rewrite Hl3. erewrite mbind_val by reflexivity.
  erewrite mbind_val
    by (unfold r_List; rewrite call_run; fold (pullRequestSelector l1 l2 l3);
        rewrite Hlist; reflexivity).
  cbn [fst snd]. rewrite Hspec, Hstatus. cbn [String.eqb andb].
  change (String.eqb PullRequestOpen PullRequestOpen) with true. cbn [andb].
  erewrite mbind_val.
  2:{ apply RetryOnConflict_succeeds.
      apply (mergeClosure_run _ fresh stored _ w2 w3); [exact Hget|exact Hupdate]. }
  cbn [St.calls kindOf toObject PullRequest_Resource setPullRequestSpecState PullRequest.Meta].
  rewrite <- !app_assoc. reflexivity.
Qed.

End Footprint.

(** ** The PullRequest reconciler, continued *)

Section PullRequests.
Context {W : Type}.
Context {prStore : Store W PullRequest.t} {scmStore : Store W ScmProvider.t}
        {secretStore : Store W Secret.t} {runtime : Runtime W}.
Import PullRequestReconciler.

Lemma closePullRequest_emits pr (prov : option (PullRequestProvider W)) :
  (specState pr = PullRequestClosed /\ statusState pr <> PullRequestClosed)
  \/ (DeletionTimestamp_IsZero pr = false /\ ContainsFinalizer pr finalizerName = true) ->
  emits justified (closePullRequest pr prov).
Proof.
  intros Hwhy. unfold closePullRequest. destruct prov as [provider|]; [|apply emits_ret].
  destruct (String.eqb_spec (statusState pr) PullRequestMerged) as [_|Hne]; [apply emits_ret|].
  apply emits_bind; [apply emits_call; split; assumption|].
  intros [err|]; apply emits_ret.
Qed.

Lemma getPullRequestProvider_emits pr : emits justified (getPullRequestProvider pr).
Proof.
  unfold getPullRequestProvider, scmutils.GetScmProviderAndSecretFromRepositoryReference,
    scmutils.GetScmProviderFromRepositoryReference, r_Get.
  emits_walk; cbn; auto.
Qed.

Lemma handleFinalizer_emits pr (prov : option (PullRequestProvider W)) : emits justified (handleFinalizer pr prov).
Proof.
  unfold handleFinalizer.
  destruct (DeletionTimestamp_IsZero pr) eqn:Hzero.
  - destruct (negb _); [|apply emits_ret].
    apply emits_bind; [|intros [pr' [err|]]; apply emits_ret].
    apply emits_RetryOnConflict. intros s. unfold addFinalizerClosure, r_Get, r_Update.
    emits_walk; cbn; auto.
  - destruct (ContainsFinalizer pr finalizerName) eqn:Hfin; [|apply emits_ret].
    apply emits_bind; [apply closePullRequest_emits; auto|].
    intros [pr' [err|]]; [apply emits_ret|].
    unfold r_Update. emits_walk; exact I.
Qed.

Lemma Reconcile_converge_emits pr (provider : PullRequestProvider W) :
  emits justified (Reconcile_converge pr provider).
Proof.
  unfold Reconcile_converge.
  destruct (_ && _ && _); [apply emits_ret|].
  apply emits_bind.
  { destruct (String.eqb_spec (specState pr) PullRequestOpen) as [Hopen|_];
      [|apply emits_ret].
    destruct (String.eqb_spec (statusState pr) PullRequestOpen) as [_|Hnot];
      [apply emits_ret|]. cbn [negb andb].
    unfold createPullRequest, metav1_Now.
    apply emits_bind; [apply emits_call; split; assumption|].
    intros [id [err|]]; [apply emits_ret|].
    apply emits_bind; [apply emits_call; exact I|]. intros now. apply emits_ret. }
  clear pr. intros [pr [err|]]; [apply emits_ret|].
  destruct (String.eqb_spec (specState pr) PullRequestMerged) as [Hm|_].
  - destruct (String.eqb_spec (statusState pr) PullRequestMerged) as [_|Hnm]; cbn [negb andb].
    + destruct (String.eqb_spec (specState pr) PullRequestClosed) as [Hc|_];
        [rewrite Hm in Hc; discriminate Hc|]. cbn [andb].
      unfold updatePullRequest, Recorder_Event, r_Status_Update.
      destruct (Z.eqb_spec (observedGeneration pr) (generation pr)) as [_|Hgen]; cbn [negb].
      * emits_walk; exact I.
      * emits_walk; cbn; auto.
    + unfold mergePullRequest, r_Status_Update.
      apply emits_bind.
      { apply emits_bind; [apply emits_call; split; assumption|].
        intros [err|]; apply emits_ret. }
      intros [pr' [err|]]; [apply emits_ret|]. emits_walk; exact I.
  - cbn [andb].
    destruct (String.eqb_spec (specState pr) PullRequestClosed) as [Hc|_].
    + destruct (String.eqb_spec (statusState pr) PullRequestClosed) as [_|Hnc]; cbn [negb andb].
      * unfold updatePullRequest, Recorder_Event, r_Status_Update.
        destruct (Z.eqb_spec (observedGeneration pr) (generation pr)) as [_|Hgen]; cbn [negb].
        -- emits_walk; exact I.
        -- emits_walk; cbn; auto.
      * apply emits_bind; [apply closePullRequest_emits; auto|].
        intros [pr' [err|]]; [apply emits_ret|].
        unfold r_Status_Update. emits_walk; exact I.
    + cbn [andb]. unfold updatePullRequest, Recorder_Event, r_Status_Update.
      destruct (Z.eqb_spec (observedGeneration pr) (generation pr)) as [_|Hgen]; cbn [negb].
      * emits_walk; exact I.
      * emits_walk; cbn; auto.
Qed.

(** X25.  Every call of [Reconcile] of a PullRequest is justified by
    the record it is made for.  The provider is asked to create a pull
    request only for a record with [spec.state] open whose [status.state]
    is not open; to merge only for [spec.state] merged and a [status.state]
    that is not merged; to close only for a [status.state] that is not
    merged, and either [spec.state] closed with a [status.state] that is not
    closed, or a record under deletion that has the finalizer; to update
    only when the observed generation differs from the generation.  A
    record is deleted only when its [status.state] is set.  Nothing but
    PullRequests is written, nothing is created in the cluster. *)
Theorem Reconcile_calls_are_justified (req : ObjectKey.t) :
  emits justified (Reconcile req).
Proof.
  unfold Reconcile.
  apply emits_bind; [unfold r_Get; apply emits_call; cbn; auto|].
  intros [pr|err]; [|destruct (IsNotFound err); apply emits_ret].
  apply emits_bind; [apply getPullRequestProvider_emits|].
  intros [prov [err|]]; [apply emits_ret|].
  destruct prov as [provider|]; [|apply emits_ret].
  apply emits_bind; [apply handleFinalizer_emits|]. clear pr.
  intros [[pr deleted] [err|]]; [apply emits_ret|].
  destruct deleted; [apply emits_ret|].
  unfold Reconcile_observe.
  apply emits_bind; [apply emits_call; exact I|].
  intros [found [err|]]; [apply emits_ret|].
  destruct (negb found); cbn [andb]; [|apply Reconcile_converge_emits].
  destruct (String.eqb_spec (statusState pr) "") as [_|Hstate]; cbn [negb];
    [apply Reconcile_converge_emits|].
  unfold r_Delete.
  apply emits_bind; [apply emits_call; exact Hstate|].
  intros [err|]; [destruct (IsNotFound err)|]; apply emits_ret.
Qed.
(** X26.  A converged PullRequest is left alone.  When the record has
    a [status.state], this is its [spec.state], the observed generation is
    the generation, and the provider finds the pull request open, then
    after asking the provider [Reconcile] returns the empty result without
    any further call: no write, no call of the provider. *)
Theorem Reconcile_converged_is_silent
        (req : ObjectKey.t) (st st1 st2 st3 : St.t W)
        (pr0 pr : PullRequest.t) (provider : PullRequestProvider W) (w4 : W) :
  r_Get req st = (st1, Val (Ok pr0)) ->
  getPullRequestProvider pr0 st1 = (st2, Val (Some provider, None)) ->
  handleFinalizer pr0 (Some provider) st2 = (st3, Val (pr, false, None)) ->
  FindOpen provider pr (St.world st3) = (w4, (true, None)) ->
  statusState pr <> "" ->
  specState pr = statusState pr ->
  observedGeneration pr = generation pr ->
  Reconcile req st
  = (St.mk w4 (St.calls st3 ++ [CFindOpen pr]), Val (Result.zero, None)).
Proof.
  intros Hget Hprov Hfin Hfind Hstate Hsame Hgen.
  unfold Reconcile.
  rewrite (mbind_val _ _ _ _ _ Hget).
  rewrite (mbind_val _ _ _ _ _ Hprov).
  rewrite (mbind_val _ _ _ _ _ Hfin).
  unfold Reconcile_observe.
  erewrite mbind_val by (rewrite call_run, Hfind; reflexivity).
  cbn [negb andb fst snd]. unfold Reconcile_converge.
  destruct (String.eqb_spec (statusState pr) "") as [E|_]; [contradiction|].
  rewrite Hsame, String.eqb_refl, Hgen, Z.eqb_refl. reflexivity.
Qed.

(** X27.  Opening a pull request.  For a record with [spec.state] open
    and no [status.state] yet, whose observed generation is not its
    generation, [Reconcile] does not look at what [FindOpen] found
    ([found] is arbitrary): it asks the provider to create the pull
    request, then, in the same pass, to update it, records the event, and
    writes the status with state open, the identifier the provider
    returned, the creation time and the generation as observed. *)
Theorem Reconcile_opens_pull_request
        (req : ObjectKey.t) (st st1 st2 st3 : St.t W)
        (pr0 pr stored : PullRequest.t) (provider : PullRequestProvider W)
        (found : bool) (id : string) (now : metav1_Time) (w4 w5 w6 w7 w8 : W) :
  let sp := PullRequest.Spec pr in
  let opened :=
    setPullRequestStatus
      (PullRequestStatus.mk id PullRequestOpen now (observedGeneration pr)) pr in
  let observed :=
    setPullRequestStatus
      (PullRequestStatus.mk id PullRequestOpen now (generation pr)) pr in
  r_Get req st = (st1, Val (Ok pr0)) ->
  getPullRequestProvider pr0 st1 = (st2, Val (Some provider, None)) ->
  handleFinalizer pr0 (Some provider) st2 = (st3, Val (pr, false, None)) ->
  FindOpen provider pr (St.world st3) = (w4, (found, None)) ->
  statusState pr = "" ->
  specState pr = PullRequestOpen ->
  observedGeneration pr <> generation pr ->
  ProviderCreate provider (PullRequestSpec.Title sp) (PullRequestSpec.SourceBranch sp)
                 (PullRequestSpec.TargetBranch sp) (PullRequestSpec.Description sp) pr w4
  = (w5, (id, None)) ->
  rt_now w5 = (w6, now) ->
  ProviderUpdate provider (PullRequestSpec.Title sp) (PullRequestSpec.Description sp)
                 opened w6 = (w7, None) ->
  store_status_update observed w7 = (w8, Ok stored) ->
  Reconcile req st
  = (St.mk w8
           (St.calls st3
            ++ [CFindOpen pr;
                CProviderCreate (PullRequestSpec.Title sp) (PullRequestSpec.SourceBranch sp)
                                (PullRequestSpec.TargetBranch sp)
                                (PullRequestSpec.Description sp) pr;
                CNow;
                CProviderUpdate (PullRequestSpec.Title sp) (PullRequestSpec.Description sp)
                                opened;
                CEvent (OPullRequest opened) "Normal" "PullRequestUpdated"
                       ("Pull Request " +:+ ObjectMeta.Name (PullRequest.Meta pr)
                        +:+ " updated");
                CStatusUpdate (OPullRequest observed)]),
     Val (Result.zero, None)).
Proof.
  intros sp opened observed Hget Hprov Hfin Hfind Hstate Hspec Hgen Hcreate Hnow Hupdate Hstatus.
  unfold Reconcile.
  rewrite (mbind_val _ _ _ _ _ Hget).
  rewrite (mbind_val _ _ _ _ _ Hprov).
  rewrite (mbind_val _ _ _ _ _ Hfin).
  unfold Reconcile_observe.
  erewrite mbind_val by (rewrite call_run, Hfind; reflexivity).
  cbn [fst snd]. rewrite Hstate.
  change (String.eqb "" "") with true. cbn [negb andb]. rewrite andb_false_r.
  unfold Reconcile_converge. rewrite Hstate, Hspec.
  change (String.eqb "" "") with true.
  change (String.eqb PullRequestOpen PullRequestOpen) with true.
  change (String.eqb "" PullRequestOpen) with false. cbn [negb andb].
  erewrite mbind_val.
  2:{ unfold createPullRequest. cbv zeta.
      erewrite mbind_val
        by (rewrite call_run; cbn [St.world]; fold sp; rewrite Hcreate; reflexivity).
      cbn [fst snd].
      erewrite mbind_val
        by (unfold metav1_Now; rewrite call_run; cbn [St.world]; rewrite Hnow; reflexivity).
      cbn [fst snd]. reflexivity. }
  fold opened. cbv beta iota.
  assert (Hso : specState opened = PullRequestOpen) by exact Hspec.
  assert (Hto : statusState opened = PullRequestOpen) by reflexivity.
  rewrite Hso, Hto.
  change (String.eqb PullRequestOpen PullRequestMerged) with false.
  change (String.eqb PullRequestOpen PullRequestClosed) with false.
  cbn [negb andb].
  assert (Hgo : (observedGeneration opened =? generation opened) = false)
    by (apply Z.eqb_neq; exact Hgen).
  rewrite Hgo. cbn [negb].
  erewrite mbind_val.
  2:{ unfold updatePullRequest. cbv zeta.
      erewrite mbind_val
        by (rewrite call_run; cbn [St.world]; change (PullRequest.Spec opened) with sp;
            rewrite Hupdate; reflexivity).
      cbn [fst snd].
      erewrite mbind_val by (unfold Recorder_Event; rewrite call_run; reflexivity).
      reflexivity. }
  cbv beta iota. cbn [St.world St.calls fst snd].
  change (setPullRequestStatus _ opened) with observed.
  erewrite mbind_val
    by (unfold r_Status_Update; rewrite call_run; cbn [St.world]; rewrite Hstatus;
        reflexivity).
  cbn [fst snd St.calls toObject PullRequest_Resource PullRequest.Spec PullRequest.Meta
       setPullRequestStatus opened].
  rewrite <- !app_assoc. reflexivity.
Qed.

(** X28.  An ScmProvider that names neither GitHub nor the fake
    driver yields no provider and no error from [getPullRequestProvider];
    [Reconcile] then fails with "pullRequestProvider is nil" after the
    three reads, without any write and without touching a finalizer. *)
Theorem Reconcile_fails_without_provider
        (req : ObjectKey.t) (st st1 st2 : St.t W) (pr : PullRequest.t)
        (scmProvider : ScmProvider.t) (secret : Secret.t) :
  r_Get req st = (st1, Val (Ok pr)) ->
  scmutils.GetScmProviderAndSecretFromRepositoryReference
    (PullRequestSpec.RepositoryReference (PullRequest.Spec pr)) (PullRequest.Meta pr) st1
  = (st2, Val (Some scmProvider, Some secret, None)) ->
  ScmProviderSpec.GitHub (ScmProvider.Spec scmProvider) = None ->
  ScmProviderSpec.Fake (ScmProvider.Spec scmProvider) = None ->
  Reconcile req st
  = (st2, Val (Result.zero,
               Some (ErrOther "failed to get pull request provider, pullRequestProvider is nil"))).
Proof.
  intros Hget Hscm Hgh Hfake. unfold Reconcile.
  rewrite (mbind_val _ _ _ _ _ Hget).
  erewrite mbind_val.
  2:{ unfold getPullRequestProvider. rewrite (mbind_val _ _ _ _ _ Hscm).
      cbn [orPanic]. erewrite mbind_val by reflexivity.
      rewrite Hgh, Hfake. reflexivity. }
  reflexivity.
Qed.

(** X29.  [updatePullRequest] records the event "PullRequestUpdated"
    whatever the provider answers: the event follows the call of the
    provider also when that call has failed, and the error of the
    provider is what the function returns. *)
Theorem updatePullRequest_records_event_even_on_failure
        (pr : PullRequest.t) (provider : PullRequestProvider W) (st : St.t W)
        (w : W) (err : option error) :
  ProviderUpdate provider (PullRequestSpec.Title (PullRequest.Spec pr))
                 (PullRequestSpec.Description (PullRequest.Spec pr)) pr (St.world st)
  = (w, err) ->
  updatePullRequest pr (Some provider) st
  = (St.mk w (St.calls st
              ++ [CProviderUpdate (PullRequestSpec.Title (PullRequest.Spec pr))
                                  (PullRequestSpec.Description (PullRequest.Spec pr)) pr;
                  CEvent (OPullRequest pr) "Normal" "PullRequestUpdated"
                         ("Pull Request " +:+ ObjectMeta.Name (PullRequest.Meta pr)
                          +:+ " updated")]),
     Val err).
Proof.
  intros Hupdate. unfold updatePullRequest.
  erewrite mbind_val by (rewrite call_run, Hupdate; reflexivity).
  cbn [fst snd].
  erewrite mbind_val by (unfold Recorder_Event; rewrite call_run; reflexivity).
  cbn [fst snd St.calls St.world toObject PullRequest_Resource].
  rewrite <- app_assoc. reflexivity.
Qed.

Lemma RemoveFinalizer_removes pr name :
  ContainsFinalizer (RemoveFinalizer pr name) name = false.
Proof.
  unfold ContainsFinalizer, RemoveFinalizer.
  cbn [setPullRequestMeta PullRequest.Meta setFinalizers ObjectMeta.Finalizers].
  induction (ObjectMeta.Finalizers (PullRequest.Meta pr)) as [|f l IH]; [reflexivity|].
  cbn [List.filter]. destruct (String.eqb_spec f name) as [->|Hne]; cbn [negb]; [exact IH|].
  cbn [existsb]. rewrite IH, orb_false_r. apply String.eqb_neq. congruence.
Qed.

(** X30.  A merged PullRequest under deletion is released without
    the provider being called: [closePullRequest] does nothing for a
    [status.state] merged, so [handleFinalizer] only writes the record
    without the finalizer and reports it as deleted.  The record it writes
    no longer has the finalizer. *)
Theorem handleFinalizer_skips_close_when_merged
        (pr stored : PullRequest.t) (provider : PullRequestProvider W)
        (st : St.t W) (w : W) :
  DeletionTimestamp_IsZero pr = false ->
  ContainsFinalizer pr finalizerName = true ->
  statusState pr = PullRequestMerged ->
  store_update (RemoveFinalizer pr finalizerName) (St.world st) = (w, Ok stored) ->
  handleFinalizer pr (Some provider) st
  = (St.mk w (St.calls st ++ [CUpdate (OPullRequest (RemoveFinalizer pr finalizerName))]),
     Val (stored, true, None))
  /\ ContainsFinalizer (RemoveFinalizer pr finalizerName) finalizerName = false.
Proof.
  intros Hdel Hfin Hmerged Hupdate. split; [|apply RemoveFinalizer_removes].
  unfold handleFinalizer. rewrite Hdel, Hfin.
  erewrite mbind_val
    by (unfold closePullRequest; rewrite Hmerged; reflexivity).
  cbn [fst snd].
  erewrite mbind_val by (unfold r_Update; rewrite call_run, Hupdate; reflexivity).
  reflexivity.
Qed.
End PullRequests.

(** ** Runs on concrete inputs *)

Import Scenario Fake.

(** The second environment of the pipeline is promoted once the check
    of the first one has passed. *)
Lemma merge_requires_previous_success_witness :
  Pipeline.afterStatus "success"
  = ((Pipeline.afterStatus "success").1, Val (Pipeline.calculatedStrategy "success", None))
  /\ In (CUpdate (OPullRequest Pipeline.merged)) (Pipeline.iterationCalls "success")
  /\ exists prev cur pc,
      (envutils.GetPreviousEnvironmentStatusByBranch
         (Pipeline.calculatedStrategy "success") "env/test").2 = Some prev
      /\ prev ∈ statusEnvironments (Pipeline.calculatedStrategy "success")
      /\ EnvironmentStatus.Branch prev = "env/dev"
      /\ cur ∈ statusEnvironments (Pipeline.calculatedStrategy "success")
      /\ EnvironmentStatus.Branch cur = "env/test"
      /\ proposedCommitMap Pipeline.pcs !! "env/test" = Some pc
      /\ PromotionStrategyReconciler.activeState prev = "success"
      /\ ProposedCommitShaState.Sha (PromotionStrategyReconciler.activeDry prev)
         = PromotionStrategyReconciler.proposedDrySha pc
      /\ ProposedCommitShaState.CommitTime (PromotionStrategyReconciler.activeDry cur)
         < ProposedCommitShaState.CommitTime (PromotionStrategyReconciler.activeDry prev).
Proof.
  split; [vm_compute; reflexivity|].
  assert (Hat : Pipeline.iterationCalls "success" !! 3%nat
                = Some (CUpdate (OPullRequest Pipeline.merged))).
  { vm_compute. reflexivity. }
  pose proof (proj1 (list_elem_of_In _ _) (list_elem_of_lookup_2 _ _ _ Hat)) as Hin.
  split; [exact Hin|].
  apply (merge_requires_previous_success
           Pipeline.ps (Pipeline.calculatedStrategy "success")
           (proposedCommitMap Pipeline.pcs)
           (start (Pipeline.world "success")) (Pipeline.afterStatus "success").1
           (Pipeline.afterStatus "success").1 (Pipeline.iteration "success").1
           [] [] Pipeline.dev Pipeline.test (Pipeline.iteration "success").2
           (Pipeline.iterationCalls "success") Pipeline.merged).
  - vm_compute. reflexivity.
  - reflexivity.
  - repeat constructor. discriminate.
  - vm_compute. reflexivity.
  - vm_compute. reflexivity.
  - exact Hin.
Defined.


(** C2, as stated, fails.  The spec lists env/dev, env/test and env/dev
    again.  The third environment has env/test before it, whose active
    check has failed: the active state of its status entry is "failure".
    The look-ups go by branch, so the iteration for the third environment
    finds the status entry of env/dev at index 0 of the ordered view,
    takes the environment for the first one and moves its open pull
    request to merged. *)
Lemma repeated_branch_merges_ungated : ~ previousGatesMerge (W := Cluster).
Proof.
  intros H.
  assert (Hat : Repeated.iterationCalls !! 2%nat
                = Some (CUpdate (OPullRequest Repeated.merged))).
  { vm_compute. reflexivity. }
  destruct (H Repeated.ps Repeated.calculatedStrategy (proposedCommitMap Repeated.pcs)
              (start Repeated.world) Repeated.afterStatus.1
              Repeated.afterStatus.1 Repeated.iteration.1
              [Repeated.dev] [] Repeated.test Repeated.dev Repeated.iteration.2
              Repeated.iterationCalls Repeated.merged)
    as (prev & pc & Hin & Hbranch & _ & Hstate & _).
  - vm_compute. reflexivity.
  - reflexivity.
  - vm_compute. reflexivity.
  - vm_compute. reflexivity.
  - exact (proj1 (list_elem_of_In _ _) (list_elem_of_lookup_2 _ _ _ Hat)).
  - assert (Hall : Forall (fun e => EnvironmentStatus.Branch e = "env/test" ->
                                    PromotionStrategyReconciler.activeState e <> "success")
                          (statusEnvironments Repeated.calculatedStrategy)).
    { vm_compute. repeat constructor; intros; discriminate. }
    rewrite Forall_forall in Hall. exact (Hall prev Hin Hbranch Hstate).
Qed.

(** With the check of the first environment pending, the pull request
    of the second stays open. *)
Lemma merge_blocked_unless_previous_success_witness :
  (forall prev, prev ∈ statusEnvironments (Pipeline.calculatedStrategy "pending") ->
                EnvironmentStatus.Branch prev = "env/dev" ->
                PromotionStrategyReconciler.activeState prev <> "success")
  /\ Forall notPullRequestUpdate (Pipeline.iterationCalls "pending").
Proof.
  assert (Hblocked : forall prev,
             prev ∈ statusEnvironments (Pipeline.calculatedStrategy "pending") ->
             EnvironmentStatus.Branch prev = "env/dev" ->
             PromotionStrategyReconciler.activeState prev <> "success").
  { apply (proj1 (Forall_forall
                    (fun prev => EnvironmentStatus.Branch prev = "env/dev" ->
                                 PromotionStrategyReconciler.activeState prev <> "success") _)).
    vm_compute. repeat constructor; intros; discriminate. }
  split; [exact Hblocked|].
  apply (merge_blocked_unless_previous_success
           Pipeline.ps (Pipeline.calculatedStrategy "pending")
           (proposedCommitMap Pipeline.pcs)
           (start (Pipeline.world "pending")) (Pipeline.afterStatus "pending").1
           (Pipeline.afterStatus "pending").1 (Pipeline.iteration "pending").1
           [] [] Pipeline.dev Pipeline.test (Pipeline.iteration "pending").2
           (Pipeline.iterationCalls "pending")).
  - vm_compute. reflexivity.
  - reflexivity.
  - repeat constructor. discriminate.
  - vm_compute. reflexivity.
  - vm_compute. reflexivity.
  - exact Hblocked.
Defined.

(** C3, as stated, fails.  In the pipeline whose first environment has
    passed its check, the second environment has a pending active check of
    its own, hence the active state "pending" in its own status entry, and
    its pull request is moved from open to merged all the same: the gate
    looks at the status of the previous environment, not at the one of the
    environment itself. *)
Lemma own_status_does_not_gate_merge : ~ ownStatusGatesMerge (W := Cluster).
Proof.
  intros H.
  specialize (H Pipeline.ps (Pipeline.calculatedStrategy "success")
                (proposedCommitMap Pipeline.pcs)
                (start (Pipeline.world "success")) (Pipeline.afterStatus "success").1
                (Pipeline.afterStatus "success").1 (Pipeline.iteration "success").1
                [] [] Pipeline.dev Pipeline.test (Pipeline.iteration "success").2
                (Pipeline.iterationCalls "success")).
  assert (Hnew : Forall notPullRequestUpdate (Pipeline.iterationCalls "success")).
  { apply H.
    - vm_compute. reflexivity.
    - reflexivity.
    - repeat constructor. discriminate.
    - vm_compute. reflexivity.
    - vm_compute. reflexivity.
    - apply (proj1 (Forall_forall
                      (fun cur => EnvironmentStatus.Branch cur = "env/test" ->
                                  PromotionStrategyReconciler.activeState cur <> "success") _)).
      vm_compute. repeat constructor; intros; discriminate. }
  rewrite Forall_forall in Hnew.
  specialize (Hnew (CUpdate (OPullRequest Pipeline.merged))).
  assert (Hat : Pipeline.iterationCalls "success" !! 3%nat
                = Some (CUpdate (OPullRequest Pipeline.merged))).
  { vm_compute. reflexivity. }
  specialize (Hnew (list_elem_of_lookup_2 _ _ _ Hat)). discriminate Hnew.
Qed.

(** C1, on the code.  For an environment without any active check key
    the collected list is empty, and after [calculateStatus] the active
    rolled-up status is still the initial ("unknown", "unknown"): the
    branch for the empty list writes "success" and the active hydrated SHA
    into the proposed roll-up instead.  With a key that no record matches,
    the collected list is empty as well and the active roll-up stays at
    the sentinel. *)
Lemma calculateStatus_without_checks_leaves_active_unknown :
  (calculated NoChecks.ps NoChecks.pcs NoChecks.world).2
  = Val (setStatusEnvironments (statusAfter NoChecks.ps NoChecks.pcs NoChecks.world) NoChecks.ps,
         None)
  /\ Environment.ActiveCommitStatuses NoChecks.dev
     ++ PromotionStrategySpec.ActiveCommitStatuses (PromotionStrategy.Spec NoChecks.ps) = []
  /\ commitStatusOf EnvironmentStatus.Active
       <$> statusAfter NoChecks.ps NoChecks.pcs NoChecks.world = [("unknown", "unknown")]
  /\ commitStatusOf EnvironmentStatus.Proposed
       <$> statusAfter NoChecks.ps NoChecks.pcs NoChecks.world = [("success", "H1")]
  /\ listed "health" "H1" NoMatch.world = []
  /\ commitStatusOf EnvironmentStatus.Active
       <$> statusAfter NoMatch.ps NoMatch.pcs NoMatch.world
     = [("no-commit-status-found", "no-commit-status-found")].
Proof. repeat split; vm_compute; reflexivity. Qed.

(** C4, on the code.  With one proposed check that is pending and no
    active check, the collected proposed list is not empty, yet the
    proposed roll-up is "success": the override loop runs over the
    collected active list.  With a failing active check and a passing
    proposed one, the proposed roll-up takes the state and SHA of the
    active entry. *)
Lemma proposed_rollup_scans_active_list :
  listed "security-scan" "H2" ProposedPending.world = [ProposedPending.scan]
  /\ CommitStatusStatus.State (CommitStatus.Status ProposedPending.scan) = "pending"
  /\ commitStatusOf EnvironmentStatus.Proposed
       <$> statusAfter ProposedPending.ps ProposedPending.pcs ProposedPending.world
     = [("success", "H1")]
  /\ listed "security-scan" "H2" ActiveFailing.world = [ActiveFailing.scan]
  /\ CommitStatusStatus.State (CommitStatus.Status ActiveFailing.scan) = "success"
  /\ listed "health" "H1" ActiveFailing.world = [ActiveFailing.health]
  /\ commitStatusOf EnvironmentStatus.Proposed
       <$> statusAfter ActiveFailing.ps ActiveFailing.pcs ActiveFailing.world
     = [("failure", "H1")].
Proof. repeat split; vm_compute; reflexivity. Qed.

(** C5, on the code.  Two records match the one key on the SHA to copy
    from and neither has a copy yet.  [copyCommitStatuses] lists them, looks
    for the copy of the first, creates it and returns nil: three calls in
    all, and no copy of the second record exists afterwards. *)
Lemma copyCommitStatuses_stops_after_first_create :
  listed "health" "H1" TwoToCopy.world = [TwoToCopy.first; TwoToCopy.second]
  /\ TwoToCopy.run.2 = Val None
  /\ commitStatusName <$> commitStatuses (St.world TwoToCopy.run.1)
     = ["health-a"; "health-b"; "proposed-health-a"]
  /\ lookupByKey (ObjectKey.mk "default" "proposed-health-b")
                 (commitStatuses (St.world TwoToCopy.run.1)) = Err ErrNotFound
  /\ length (St.calls TwoToCopy.run.1) = 3%nat.
Proof. repeat split; vm_compute; reflexivity. Qed.

(** C6, on the code.  A reconciler configured with the default requeue
    duration of 60 s reconciles a strategy successfully and returns a
    requeue-after of 10 s. *)
Lemma Reconcile_requeues_after_ten_seconds :
  (PromotionStrategyReconciler.Reconcile reconciler 1 request (start NoChecks.world)).2
  = Val (Result.mk true (10 * Second), None)
  /\ PromotionStrategyReconcilerConfig.RequeueDuration
       (PromotionStrategyReconciler.Config reconciler) = 60 * Second
  /\ Result.RequeueAfter (Result.mk true (10 * Second))
     <> PromotionStrategyReconcilerConfig.RequeueDuration
          (PromotionStrategyReconciler.Config reconciler).
Proof. repeat split; vm_compute; (reflexivity || discriminate). Qed.


(** A pull request with status "open" that the provider no longer
    lists: the record is deleted, and a not-found answer to the delete is
    swallowed. *)
Lemma Reconcile_deletes_vanished_pull_request_witness :
  PullRequestReconciler.statusState Vanished.pr <> ""
  /\ FindOpen provider Vanished.pr Vanished.world = (Vanished.world, (false, None))
  /\ PullRequestReconciler.Reconcile Vanished.request (start Vanished.world)
     = (St.mk Vanished.deleted
              (St.calls Vanished.afterProvider
               ++ [CFindOpen Vanished.pr; CDelete (OPullRequest Vanished.pr)]),
        Val (Result.zero, None))
  /\ PullRequestReconciler.Reconcile (prStore := Vanished.goneOnDelete)
                                     Vanished.request (start Vanished.world)
     = (St.mk Vanished.deleted
              (St.calls Vanished.afterProvider
               ++ [CFindOpen Vanished.pr; CDelete (OPullRequest Vanished.pr)]),
        Val (Result.zero, None)).
Proof.
  split; [discriminate|]. split; [reflexivity|]. split.
  - apply (Reconcile_deletes_vanished_pull_request
             Vanished.request (start Vanished.world) Vanished.afterGet
             Vanished.afterProvider Vanished.afterProvider
             Vanished.pr Vanished.pr provider Vanished.world Vanished.deleted None).
    + vm_compute. reflexivity.
    + vm_compute. reflexivity.
    + vm_compute. reflexivity.
    + vm_compute. reflexivity.
    + discriminate.
    + vm_compute. reflexivity.
    + left. reflexivity.
  - apply (Reconcile_deletes_vanished_pull_request
             (prStore := Vanished.goneOnDelete)
             Vanished.request (start Vanished.world) Vanished.afterGet
             Vanished.afterProvider Vanished.afterProvider
             Vanished.pr Vanished.pr provider Vanished.world Vanished.deleted
             (Some ErrNotFound)).
    + vm_compute. reflexivity.
    + vm_compute. reflexivity.
    + vm_compute. reflexivity.
    + vm_compute. reflexivity.
    + discriminate.
    + vm_compute. reflexivity.
    + right. reflexivity.
Defined.

(** ** Further runs on concrete inputs *)

(** The first four characters of a word. *)
Lemma TruncateString_takes_prefix_witness :
  allChars isAscii "promotion" = true
  /\ exists rest,
      "promotion" = utils.TruncateString "promotion" 4 +:+ rest
      /\ GoString.len (utils.TruncateString "promotion" 4)
         = Z.min (Z.max 4 0) (GoString.len "promotion").
Proof.
  split; [reflexivity|].
  apply (TruncateString_takes_prefix "promotion" 4). reflexivity.
Defined.

(** The name of the ProposedCommit of the demo strategy for env/dev. *)
Lemma KubeSafeUniqueName_alphabet_and_length_witness :
  utils.KubeSafeUniqueName "demo-env/dev" = Some "demo-env-dev-475fa186"
  /\ allChars isNameChar "demo-env-dev-475fa186" = true
  /\ GoString.len "demo-env-dev-475fa186" <= 253.
Proof.
  split; [vm_compute; reflexivity|].
  apply (KubeSafeUniqueName_alphabet_and_length "demo-env/dev"). vm_compute. reflexivity.
Defined.

Lemma KubeSafeUniqueName_short_name_keeps_hash_witness :
  "demo-env/dev" <> "" /\ GoString.len "demo-env/dev" <= 237
  /\ utils.KubeSafeUniqueName "demo-env/dev"
     = Some (Spec.stripTrailingHyphen
               (GoString.ToLower (GoString.m1_ReplaceAllString "demo-env/dev"))
             +:+ "-"
             +:+ GoString.Sprintf_x
                   (GoString.fnv32a
                      (GoString.ToLower (GoString.m1_ReplaceAllString "demo-env/dev")))).
Proof.
  split; [discriminate|]. split; [vm_compute; discriminate|].
  apply (KubeSafeUniqueName_short_name_keeps_hash "demo-env/dev");
    [discriminate|vm_compute; discriminate].
Defined.

(** A name of 300 letters: the result is a prefix of it. *)
Lemma KubeSafeUniqueName_long_name_drops_hash_witness :
  254 <= GoString.len (GoString.ToLower (GoString.m1_ReplaceAllString longName))
  /\ utils.KubeSafeUniqueName longName
     = Some (GoString.slice
               (GoString.ToLower (GoString.m1_ReplaceAllString longName)) 0
               (255 - GoString.len
                        (GoString.Sprintf_x
                           (GoString.fnv32a
                              (GoString.ToLower (GoString.m1_ReplaceAllString longName))))
                - 1)).
Proof.
  split; [vm_compute; discriminate|].
  apply (KubeSafeUniqueName_long_name_drops_hash longName). vm_compute. discriminate.
Defined.

(** Two branch names of one strategy that share a ProposedCommit. *)
Lemma KubeSafeUniqueName_conflates_separators_and_case_witness :
  GoString.isAlnum "/" = false /\ GoString.isAlnum "_" = false
  /\ utils.KubeSafeUniqueName "demo-env_dev" = utils.KubeSafeUniqueName "Demo-Env/Dev".
Proof.
  split; [reflexivity|]. split; [reflexivity|].
  apply (KubeSafeUniqueName_conflates_separators_and_case "Demo-Env" "Dev" "/" "_");
    reflexivity.
Defined.

(** A branch name that ends in a slash. *)
Lemma KubeSafeLabel_keeps_trailing_hyphen_witness :
  GoString.isAlnum "e" = true /\ GoString.isAlnum "/" = false
  /\ exists label, utils.KubeSafeLabel "release/" = Some label
                   /\ lastChar label = Some GoString.hyphen.
Proof.
  split; [reflexivity|]. split; [reflexivity|].
  apply (KubeSafeLabel_keeps_trailing_hyphen "releas" "e" "/"); reflexivity.
Defined.

Lemma KubeSafeLabel_of_unique_name_witness :
  utils.KubeSafeUniqueName "demo-env/dev" = Some "demo-env-dev-475fa186"
  /\ exists label dropped,
      utils.KubeSafeLabel "demo-env-dev-475fa186" = Some label
      /\ "demo-env-dev-475fa186" = dropped +:+ label
      /\ Z.min (GoString.len "demo-env-dev-475fa186") 63 - 1 <= GoString.len label
      /\ (GoString.len "demo-env-dev-475fa186" <= 63 ->
          GoString.index "demo-env-dev-475fa186" 0 <> Some GoString.hyphen ->
          label = "demo-env-dev-475fa186").
Proof.
  split; [vm_compute; reflexivity|].
  apply (KubeSafeLabel_of_unique_name "demo-env/dev"). vm_compute. reflexivity.
Defined.

Lemma Reordered_NoDup : NoDup (branches Reordered.ps).
Proof.
  change (branches Reordered.ps) with ["env/test"; "env/old"; "env/dev"].
  repeat (apply NoDup_cons; split; [rewrite ?elem_of_cons, elem_of_nil; intuition discriminate|]).
  apply NoDup_nil. exact I.
Defined.

Lemma Reordered_covered : covered Reordered.ps.
Proof.
  intros e He.
  change (specEnvironments Reordered.ps) with [Reordered.dev; Reordered.test] in He.
  apply elem_of_cons in He as [->|He].
  - exists (Reordered.entry "env/dev"). split; [|reflexivity].
    apply (list_elem_of_lookup_2 _ 2%nat). reflexivity.
  - apply list_elem_of_singleton in He as ->.
    exists (Reordered.entry "env/test"). split; [|reflexivity].
    apply (list_elem_of_lookup_2 _ 0%nat). reflexivity.
Defined.

(** A status in the order test, old, dev under a spec dev, test. *)
Lemma GetEnvironmentsFromStatusInOrder_follows_spec_witness :
  NoDup (branches Reordered.ps)
  /\ EnvironmentStatus.Branch <$> envutils.GetEnvironmentsFromStatusInOrder Reordered.ps
     = filter (fun b => b ∈ branches Reordered.ps)
              (Environment.Branch <$> specEnvironments Reordered.ps)
  /\ forall s, s ∈ envutils.GetEnvironmentsFromStatusInOrder Reordered.ps ->
               s ∈ statusEnvironments Reordered.ps
               /\ EnvironmentStatus.Branch s
                  ∈ Environment.Branch <$> specEnvironments Reordered.ps.
Proof.
  split; [exact Reordered_NoDup|].
  apply (GetEnvironmentsFromStatusInOrder_follows_spec Reordered.ps). exact Reordered_NoDup.
Defined.

(** There the entry of env/dev is the third of the status, and the
    index returned for it is 0. *)
Lemma GetEnvironmentByBranch_agrees_with_status_witness :
  covered Reordered.ps /\ NoDup (branches Reordered.ps)
  /\ statusEnvironments Reordered.ps !! 2%nat = Some (Reordered.entry "env/dev")
  /\ (envutils.GetEnvironmentByBranch Reordered.ps "env/dev").1 = 0
  /\ (envutils.GetEnvironmentStatusByBranch Reordered.ps "env/dev").1
     = (envutils.GetEnvironmentByBranch Reordered.ps "env/dev").1.
Proof.
  split; [exact Reordered_covered|]. split; [exact Reordered_NoDup|].
  split; [reflexivity|]. split; [reflexivity|].
  apply (GetEnvironmentByBranch_agrees_with_status Reordered.ps "env/dev").
  - exact Reordered_covered.
  - exact Reordered_NoDup.
Defined.

(** The ProposedCommit of env/dev exists and is complete. *)
Lemma createOrGetProposedCommit_returns_populated_witness :
  utils.KubeSafeUniqueName (utils.GetProposedCommitName "demo" "env/dev")
  = Some "demo-env-dev-475fa186"
  /\ PromotionStrategyReconciler.createOrGetProposedCommit 1 NoChecks.ps NoChecks.dev
                                                          (start NoChecks.world)
     = (St.mk NoChecks.world
              ([] ++ [CGet KProposedCommit (ObjectKey.mk "default" "demo-env-dev-475fa186");
                      CGet KProposedCommit (ObjectKey.mk "default" "demo-env-dev-475fa186")]),
        Val (proposedCommit "env/dev" "D1" "H1" 10 "D2" "H2" 20, None)).
Proof.
  split; [vm_compute; reflexivity|].
  apply (proj2 (createOrGetProposedCommit_returns_populated 0 NoChecks.ps NoChecks.dev)
               "demo-env-dev-475fa186" (start NoChecks.world) NoChecks.world NoChecks.world
               (proposedCommit "env/dev" "D1" "H1" 10 "D2" "H2" 20));
    vm_compute; reflexivity.
Defined.

(** In the empty cluster the wait reads three times in three rounds. *)
Lemma waitForStatus_spins_while_not_found_witness :
  (forall w, w = Empty.world ->
             (store_get (A := ProposedCommit.t) Empty.key w).1 = Empty.world
             /\ (store_get (A := ProposedCommit.t) Empty.key w).2 = Err ErrNotFound)
  /\ exists st',
      PromotionStrategyReconciler.waitForStatus 3 Empty.key ProposedCommit_zero
                                                (start Empty.world)
      = (st', OutOfFuel)
      /\ St.calls st' = [] ++ repeat (CGet KProposedCommit Empty.key) 3.
Proof.
  assert (H : forall w, w = Empty.world ->
                        (store_get (A := ProposedCommit.t) Empty.key w).1 = Empty.world
                        /\ (store_get (A := ProposedCommit.t) Empty.key w).2 = Err ErrNotFound).
  { intros w ->. split; reflexivity. }
  split; [exact H|].
  apply (waitForStatus_spins_while_not_found
           (fun w => w = Empty.world) Empty.key ProposedCommit_zero 3 (start Empty.world));
    [reflexivity|exact H].
Defined.

(** The pass for env/dev over the status that is out of order. *)
Lemma calculateStatus_body_writes_one_entry_witness :
  proposedCommitMap [Reordered.pc] !! Environment.Branch Reordered.dev = Some Reordered.pc
  /\ post (W := Cluster)
          (fun f =>
             match f with
             | Next ps' =>
                 PromotionStrategy.Spec ps' = PromotionStrategy.Spec Reordered.ps
                 /\ PromotionStrategy.Meta ps' = PromotionStrategy.Meta Reordered.ps
                 /\ commitsOf <$> statusEnvironments ps'
                    = commitsOf
                        <$> envutils.UpsertEnvironmentStatus
                              (statusEnvironments Reordered.ps)
                              (PromotionStrategyReconciler.freshStatus Reordered.dev Reordered.pc)
                 /\ forall j,
                     j <> Z.to_nat
                            (envutils.GetEnvironmentStatusByBranch
                               (setStatusEnvironments
                                  (envutils.UpsertEnvironmentStatus
                                     (statusEnvironments Reordered.ps)
                                     (PromotionStrategyReconciler.freshStatus
                                        Reordered.dev Reordered.pc))
                                  Reordered.ps)
                               (Environment.Branch Reordered.dev)).1 ->
                     statusEnvironments ps' !! j
                     = envutils.UpsertEnvironmentStatus
                         (statusEnvironments Reordered.ps)
                         (PromotionStrategyReconciler.freshStatus Reordered.dev Reordered.pc)
                       !! j
             | Return r => r.2 <> None
             end)
          (PromotionStrategyReconciler.calculateStatus_body
             (proposedCommitMap [Reordered.pc]) Reordered.ps Reordered.dev).
Proof.
  split; [vm_compute; reflexivity|].
  apply (calculateStatus_body_writes_one_entry
           (W := Cluster) (proposedCommitMap [Reordered.pc]) Reordered.ps Reordered.dev
           Reordered.pc).
  vm_compute. reflexivity.
Defined.

(** The copy target without labels. *)
Lemma copyCommitStatus_panics_on_unlabelled_copy_witness :
  labelOf (ObjectMeta.Labels (CommitStatus.Meta Unlabelled.source))
          PromotionStrategyReconciler.label_copy <> "true"
  /\ ObjectMeta.Labels (CommitStatus.Meta Unlabelled.existing) = None
  /\ PromotionStrategyReconciler.copyCommitStatus "H1" "H9" "env/dev" tt Unlabelled.source
                                                  (start Unlabelled.world)
     = (St.mk Unlabelled.world ([] ++ [CGet KCommitStatus Unlabelled.key]), Panicked).
Proof.
  split; [vm_compute; discriminate|]. split; [reflexivity|].
  apply (copyCommitStatus_panics_on_unlabelled_copy
           "H1" "H9" "env/dev" Unlabelled.source Unlabelled.existing
           (start Unlabelled.world) Unlabelled.world).
  - vm_compute. discriminate.
  - vm_compute. reflexivity.
  - reflexivity.
Defined.

(** The first environment with autoMerge: false.  It is at index 0 of
    the ordered view and its pull request is listed and open in spec and
    status, so that only the flag stands between it and the merge: the
    iteration makes no call at all, while the same iteration for the
    environment with auto-merge on lists, reads and merges the pull
    request. *)
Lemma autoMerge_off_leaves_pull_requests_witness :
  Environment.GetAutoMerge Manual.dev = false
  /\ (envutils.GetEnvironmentStatusByBranch Manual.calculatedStrategy "env/dev").1 = 0
  /\ store_list (pullRequestSelector "demo" "demo-env-dev-475fa186" "env-dev") Manual.world
     = (Manual.world, Ok [Manual.pr])
  /\ PullRequestSpec.State (PullRequest.Spec Manual.pr) = PullRequestOpen
  /\ PullRequestStatus.State (PullRequest.Status Manual.pr) = PullRequestOpen
  /\ emits (W := Cluster) notPullRequestCall
           (PromotionStrategyReconciler.Reconcile_body
              Manual.calculatedStrategy (proposedCommitMap [Manual.pc]) tt Manual.dev)
  /\ PromotionStrategyReconciler.Reconcile_body
       Manual.calculatedStrategy (proposedCommitMap [Manual.pc]) tt Manual.dev
       (start Manual.world)
     = (start Manual.world, Val (Next tt))
  /\ PromotionStrategyReconciler.Reconcile_body
       Manual.calculatedStrategy (proposedCommitMap [Manual.pc]) tt Manual.automatic
       (start Manual.world)
     = (St.mk Manual.after
              [CList KPullRequest
                     (pullRequestSelector "demo" "demo-env-dev-475fa186" "env-dev");
               CGet KPullRequest (objectKeyOf (PullRequest.Meta Manual.pr));
               CUpdate (OPullRequest Manual.merged)],
        Val (Next tt)).
Proof.
  split; [reflexivity|].
  split; [vm_compute; reflexivity|].
  split; [vm_compute; reflexivity|].
  split; [reflexivity|].
  split; [reflexivity|].
  split; [|split; vm_compute; reflexivity].
  apply (autoMerge_off_leaves_pull_requests
           (W := Cluster) Manual.calculatedStrategy (proposedCommitMap [Manual.pc]) Manual.dev).
  reflexivity.
Defined.

(** The only environment of a strategy: its active check has failed and
    the roll-ups say so, and its pull request is merged. *)
Lemma first_environment_merges_ungated_witness :
  commitStatusOf EnvironmentStatus.Active
    <$> statusEnvironments FirstPromotion.calculatedStrategy = [("failure", "H1")]
  /\ commitStatusOf EnvironmentStatus.Proposed
       <$> statusEnvironments FirstPromotion.calculatedStrategy = [("failure", "H1")]
  /\ PromotionStrategyReconciler.Reconcile_body
       FirstPromotion.calculatedStrategy (proposedCommitMap [FirstPromotion.pc]) tt
       FirstPromotion.dev (start FirstPromotion.world)
     = (St.mk FirstPromotion.after
              ([] ++ [CList KPullRequest
                            (pullRequestSelector "demo" "demo-env-dev-475fa186" "env-dev");
                      CGet KPullRequest (objectKeyOf (PullRequest.Meta FirstPromotion.pr));
                      CUpdate (OPullRequest
                                 (setPullRequestSpecState PullRequestMerged FirstPromotion.pr))]),
        Val (Next tt)).
Proof.
  split; [vm_compute; reflexivity|]. split; [vm_compute; reflexivity|].
  apply (first_environment_merges_ungated
           FirstPromotion.calculatedStrategy (proposedCommitMap [FirstPromotion.pc])
           FirstPromotion.dev FirstPromotion.pc (-1)
           (envutils.GetEnvironmentStatusByBranch FirstPromotion.calculatedStrategy "env/dev").2
           "demo" "demo-env-dev-475fa186" "env-dev"
           (start FirstPromotion.world) FirstPromotion.pr FirstPromotion.pr
           FirstPromotion.merged [] FirstPromotion.world FirstPromotion.world
           FirstPromotion.after);
    vm_compute; reflexivity.
Defined.

(** The pull request of env/test, open in the cluster and on the
    provider. *)
Lemma Reconcile_converged_is_silent_witness :
  PullRequestReconciler.statusState Vanished.pr <> ""
  /\ PullRequestReconciler.Reconcile Vanished.request (start Converged.world)
     = (St.mk Converged.world (St.calls Converged.afterProvider ++ [CFindOpen Vanished.pr]),
        Val (Result.zero, None)).
Proof.
  split; [discriminate|].
  apply (Reconcile_converged_is_silent
           Vanished.request (start Converged.world) Converged.afterGet
           Converged.afterProvider Converged.afterProvider
           Vanished.pr Vanished.pr provider Converged.world).
  - vm_compute. reflexivity.
  - vm_compute. reflexivity.
  - vm_compute. reflexivity.
  - vm_compute. reflexivity.
  - discriminate.
  - reflexivity.
  - reflexivity.
Defined.

(** A new record: created on the provider, updated there, observed. *)
Lemma Reconcile_opens_pull_request_witness :
  PullRequestReconciler.statusState Requested.pr = ""
  /\ PullRequestReconciler.observedGeneration Requested.pr
     <> PullRequestReconciler.generation Requested.pr
  /\ PullRequestReconciler.Reconcile Requested.request (start Requested.world)
     = (St.mk Requested.after
              (St.calls Requested.afterProvider
               ++ [CFindOpen Requested.pr;
                   CProviderCreate "Promote" "env/dev-next" "env/dev" "to dev" Requested.pr;
                   CNow;
                   CProviderUpdate "Promote" "to dev" Requested.opened;
                   CEvent (OPullRequest Requested.opened) "Normal" "PullRequestUpdated"
                          ("Pull Request " +:+ "pr-new" +:+ " updated");
                   CStatusUpdate (OPullRequest Requested.observed)]),
        Val (Result.zero, None)).
Proof.
  split; [reflexivity|]. split; [vm_compute; discriminate|].
  apply (Reconcile_opens_pull_request
           Requested.request (start Requested.world) Requested.afterGet
           Requested.afterProvider Requested.afterProvider
           Requested.pr Requested.pr Requested.observed provider false "1" 0
           Requested.world Requested.onProvider Requested.onProvider Requested.onProvider
           Requested.after).
  - vm_compute. reflexivity.
  - vm_compute. reflexivity.
  - vm_compute. reflexivity.
  - vm_compute. reflexivity.
  - reflexivity.
  - reflexivity.
  - vm_compute. discriminate.
  - vm_compute. reflexivity.
  - vm_compute. reflexivity.
  - vm_compute. reflexivity.
  - vm_compute. reflexivity.
Defined.

(** The ScmProvider names no driver. *)
Lemma Reconcile_fails_without_provider_witness :
  ScmProviderSpec.GitHub (ScmProvider.Spec NoDriver.scmProvider) = None
  /\ ScmProviderSpec.Fake (ScmProvider.Spec NoDriver.scmProvider) = None
  /\ PullRequestReconciler.Reconcile Vanished.request (start NoDriver.world)
     = (NoDriver.afterProvider,
        Val (Result.zero,
             Some (ErrOther "failed to get pull request provider, pullRequestProvider is nil"))).
Proof.
  split; [reflexivity|]. split; [reflexivity|].
  apply (Reconcile_fails_without_provider
           Vanished.request (start NoDriver.world) NoDriver.afterGet NoDriver.afterProvider
           Vanished.pr NoDriver.scmProvider NoDriver.secret).
  - vm_compute. reflexivity.
  - vm_compute. reflexivity.
  - reflexivity.
  - reflexivity.
Defined.

(** The provider fails; the event is recorded all the same. *)
Lemma updatePullRequest_records_event_even_on_failure_witness :
  ProviderUpdate Broken.provider "Promote" "to dev" Requested.pr Requested.world
  = (Requested.world, Some Broken.unavailable)
  /\ PullRequestReconciler.updatePullRequest Requested.pr (Some Broken.provider)
                                             (start Requested.world)
     = (St.mk Requested.world
              ([] ++ [CProviderUpdate "Promote" "to dev" Requested.pr;
                      CEvent (OPullRequest Requested.pr) "Normal" "PullRequestUpdated"
                             ("Pull Request " +:+ "pr-new" +:+ " updated")]),
        Val (Some Broken.unavailable)).
Proof.
  split; [reflexivity|].
  apply (updatePullRequest_records_event_even_on_failure
           Requested.pr Broken.provider (start Requested.world) Requested.world
           (Some Broken.unavailable)).
  reflexivity.
Defined.

(** A merged pull request with a deletion timestamp. *)
Lemma handleFinalizer_skips_close_when_merged_witness :
  PullRequestReconciler.DeletionTimestamp_IsZero MergedDeleted.pr = false
  /\ PullRequestReconciler.ContainsFinalizer MergedDeleted.pr PullRequestReconciler.finalizerName
     = true
  /\ PullRequestReconciler.statusState MergedDeleted.pr = PullRequestMerged
  /\ PullRequestReconciler.handleFinalizer MergedDeleted.pr (Some provider)
                                           (start MergedDeleted.world)
     = (St.mk MergedDeleted.after ([] ++ [CUpdate (OPullRequest MergedDeleted.released)]),
        Val (MergedDeleted.released, true, None))
  /\ PullRequestReconciler.ContainsFinalizer MergedDeleted.released
                                             PullRequestReconciler.finalizerName = false.
Proof.
  split; [reflexivity|]. split; [reflexivity|]. split; [reflexivity|].
  apply (handleFinalizer_skips_close_when_merged
           MergedDeleted.pr MergedDeleted.released provider
           (start MergedDeleted.world) MergedDeleted.after).
  - reflexivity.
  - reflexivity.
  - reflexivity.
  - vm_compute. reflexivity.
Defined.
